(** * Mexicano tournament engine: ranking, pairing and round lifecycle

    A shallow embedding of [js/tournament.js] (module [Tournament]) and
    [js/pairing.js] (module [Pairing]), followed by the properties of the
    engine.

    Modelling conventions.
    - A JavaScript Number holding a score, an identifier, a counter or a
      round number is an integer [Z]; the two quotients [pointsPerGame] and
      [winPercentage] are exact rationals [Q].  The integers of the code
      are doubles: they are the integers of the model as long as they stay
      within 2^53 in absolute value; [idsInRange] is that bound for the
      numbers of the matches.  Scores that are not integers are outside the
      model.
    - A score slot is a [jsval]: a number, [null], [undefined] or [NaN]
      (what [parseInt] yields on an empty input).
    - A participant slot of a match is an [option string]; [None] is
      [undefined], which is what indexing past the end of an array yields.
    - The object [stats] of [calculateStats] is a finite map from keys to
      entries, together with the order in which [Object.values] lists its
      own properties.  The entry of a player named [__proto__] is not an own
      property: the assignment installs it as the prototype of [stats]; the
      map holds it under that key, and [Object.values] passes it over.
    - [String.prototype.localeCompare] is supplied by the host and is a
      parameter of the engine, a [Collation].
    - A function that can throw returns a [result]; a function that mutates
      the tournament and can throw returns the outcome together with the
      tournament as it is left behind, also when it throws.
    - [new Date()] is an explicit argument [now] (milliseconds since the
      epoch); time stamps are stored as such. *)

From Stdlib Require Import ZArith QArith String List Lia Lqa.
From stdpp Require Import gmap strings list sorting fin_maps.

Local Open Scope Z_scope.

(** ** JavaScript values and the operators the engine applies to them *)

Inductive jsval : Type :=
| Undefined
| Null
| NaN
| Num (z : Z).

(** [ToNumber]: [None] stands for the number NaN. *)
Definition ToNumber (v : jsval) : option Z :=
  match v with
  | Num z => Some z
  | Null => Some 0
  | Undefined | NaN => None
  end.

(** [a >= b] *)
Definition js_ge (a b : jsval) : bool :=
  match ToNumber a, ToNumber b with
  | Some x, Some y => y <=? x
  | _, _ => false
  end.

(** [a > b] *)
Definition js_gt (a b : jsval) : bool :=
  match ToNumber a, ToNumber b with
  | Some x, Some y => y <? x
  | _, _ => false
  end.

(** [a + b] (no operand is a string or an object here) *)
Definition js_add (a b : jsval) : jsval :=
  match ToNumber a, ToNumber b with
  | Some x, Some y => Num (x + y)
  | _, _ => NaN
  end.

(** [a === b] *)
Definition js_strict_eq (a b : jsval) : bool :=
  match a, b with
  | Num x, Num y => x =? y
  | Undefined, Undefined => true
  | Null, Null => true
  | _, _ => false
  end.

(** The integer held by a numeric value; only read where the value is known
    to be a number. *)
Definition numberOf (v : jsval) : Z :=
  match v with
  | Num z => z
  | _ => 0
  end.

(** Property key of a participant slot: [undefined] is coerced to the
    string "undefined". *)
Definition propertyKey (player : option string) : string :=
  match player with
  | Some s => s
  | None => "undefined"
  end.

(** ** Data model *)

Record Match : Type := mkMatch {
  id : Z;
  team1Player1 : option string;
  team1Player2 : option string;
  team2Player1 : option string;
  team2Player2 : option string;
  team1Score : jsval;
  team2Score : jsval
}.

Record Round : Type := mkRound {
  roundNumber : Z;
  matches : list Match
}.

(** The field [name] of the tournament is [tournament_name] here, since the
    entries of [calculateStats] have a field [name] as well.  The date is the
    number of the day since the epoch. *)
Record Tournament : Type := mkTournament {
  tournament_name : string;
  description : string;
  tournamentDate : Z;
  players : list string;
  rounds : list Round;
  createdAt : Z;
  updatedAt : Z
}.

(** An entry of [calculateStats]; [rank] is absent until [rankPlayers]
    assigns it. *)
Record PlayerStats : Type := mkStats {
  name : string;
  totalPoints : Z;
  gamesPlayed : Z;
  wins : Z;
  losses : Z;
  pointsPerGame : Q;
  winPercentage : Q;
  rank : option Z
}.

Definition set_id (i : Z) (m : Match) : Match :=
  mkMatch i (team1Player1 m) (team1Player2 m) (team2Player1 m)
          (team2Player2 m) (team1Score m) (team2Score m).

Definition set_scores (s1 s2 : jsval) (m : Match) : Match :=
  mkMatch (id m) (team1Player1 m) (team1Player2 m) (team2Player1 m)
          (team2Player2 m) s1 s2.

Definition set_matches (ms : list Match) (r : Round) : Round :=
  mkRound (roundNumber r) ms.

Definition set_rounds (rs : list Round) (t : Tournament) : Tournament :=
  mkTournament (tournament_name t) (description t) (tournamentDate t)
               (players t) rs (createdAt t) (updatedAt t).

Definition set_updatedAt (now : Z) (t : Tournament) : Tournament :=
  mkTournament (tournament_name t) (description t) (tournamentDate t)
               (players t) (rounds t) (createdAt t) now.

Definition set_rank (r : option Z) (s : PlayerStats) : PlayerStats :=
  mkStats (name s) (totalPoints s) (gamesPlayed s) (wins s) (losses s)
          (pointsPerGame s) (winPercentage s) r.

(** The four participant slots of a match, in the order of the group they
    were taken from. *)
Definition participants (m : Match) : list (option string) :=
  [team1Player1 m; team2Player1 m; team2Player2 m; team1Player2 m].

(** ** Exceptions *)

Inductive exn : Type :=
| Error (msg : string)
| TypeError.

Inductive result (A : Type) : Type :=
| Ret (a : A)
| Throw (e : exn).
Arguments Ret {A} a.
Arguments Throw {A} e.

Global Instance result_ret : MRet result := λ A, Ret.

Global Instance result_bind : MBind result := λ A B k r,
  match r with
  | Ret a => k a
  | Throw e => Throw e
  end.

(** Reading a property of [o]: a [TypeError] when [o] is [undefined]. *)
Definition property_of {A B} (o : option A) (f : A → B) : result B :=
  match o with
  | Some a => Ret (f a)
  | None => Throw TypeError
  end.

(** ** Module Tournament *)

Definition isValidScore (team1Score team2Score : jsval) : bool :=
  js_ge team1Score (Num 0) &&
  js_ge team2Score (Num 0) &&
  js_strict_eq (js_add team1Score team2Score) (Num 25).

Definition isMatchComplete (m : Match) : bool :=
  negb (js_strict_eq (team1Score m) Null) &&
  negb (js_strict_eq (team1Score m) Undefined) &&
  negb (js_strict_eq (team2Score m) Null) &&
  negb (js_strict_eq (team2Score m) Undefined) &&
  isValidScore (team1Score m) (team2Score m).

Definition isRoundComplete (round : Round) : bool :=
  forallb isMatchComplete (matches round).

Definition getCurrentRoundNumber (t : Tournament) : Z :=
  if bool_decide (length (rounds t) = 0%nat) then 0
  else Z.of_nat (length (rounds t)).

Definition getCurrentRound (t : Tournament) : option Round :=
  if bool_decide (length (rounds t) = 0%nat) then None
  else rounds t !! (length (rounds t) - 1)%nat.

Definition canStartNextRound (t : Tournament) : bool :=
  match getCurrentRound t with
  | None => true
  | Some currentRound => isRoundComplete currentRound
  end.

(** *** calculateStats *)

Definition zeroStats (player : string) : PlayerStats :=
  mkStats player 0 0 0 0 0%Q 0%Q None.

(** [stats[player] = {...}] for each declared player.  For every key but
    [__proto__] the assignment creates an own property of [stats], or
    overwrites the one there is.  For the key [__proto__] it creates none: it
    makes the new entry the prototype of [stats], and [stats['__proto__']]
    reads that entry from then on.  The map holds the entry under the key
    [__proto__] all the same; [Object_values] below leaves it out. *)
Definition initStats (ps : list string) : gmap string PlayerStats :=
  foldl (λ stats player, <[player := zeroStats player]> stats) ∅ ps.

(** Body of the [if (stats[player])] blocks: the team's score, one game, and
    a win or a loss. *)
Definition addResult (score : Z) (won : bool) (s : PlayerStats) : PlayerStats :=
  mkStats (name s)
          (totalPoints s + score)
          (gamesPlayed s + 1)
          (if won then wins s + 1 else wins s)
          (if won then losses s else losses s + 1)
          (pointsPerGame s) (winPercentage s) (rank s).

(** [if (stats[player]) { ... }].  With an entry under the key, the entry
    is updated.  Without one, [stats[player]] is [undefined], or a value that
    the prototype chain supplies: a method of [Object.prototype], the object
    [Object.prototype] itself (for the key [__proto__]), or a number or the
    name held by the entry that was installed as prototype.  The writes then
    go to that value, where a number or a string drops them (the scripts are
    not in strict mode), and no entry of [stats] changes. *)
Definition updatePlayer (score : Z) (won : bool)
    (stats : gmap string PlayerStats) (player : option string)
    : gmap string PlayerStats :=
  alter (addResult score won) (propertyKey player) stats.

Definition processMatch (stats : gmap string PlayerStats) (m : Match)
    : gmap string PlayerStats :=
  if negb (isMatchComplete m) then stats
  else
    let team1Players := [team1Player1 m; team1Player2 m] in
    let team2Players := [team2Player1 m; team2Player2 m] in
    let team1Won := js_gt (team1Score m) (team2Score m) in
    let stats :=
      foldl (updatePlayer (numberOf (team1Score m)) team1Won)
            stats team1Players in
    foldl (updatePlayer (numberOf (team2Score m)) (negb team1Won))
          stats team2Players.

Definition processRound (stats : gmap string PlayerStats) (round : Round)
    : gmap string PlayerStats :=
  foldl processMatch stats (matches round).

Definition deriveStats (s : PlayerStats) : PlayerStats :=
  if 0 <? gamesPlayed s then
    mkStats (name s) (totalPoints s) (gamesPlayed s) (wins s) (losses s)
            (inject_Z (totalPoints s) / inject_Z (gamesPlayed s))%Q
            ((inject_Z (wins s) / inject_Z (gamesPlayed s)) * 100)%Q
            (rank s)
  else s.

(** [Object.values(stats).forEach(...)] visits the own properties: the
    quotients are derived for every entry but the one installed as
    prototype. *)
Definition deriveOwn (key : string) (entry : PlayerStats) : PlayerStats :=
  if decide (key = "__proto__"%string) then entry else deriveStats entry.

Definition calculateStats (t : Tournament) : gmap string PlayerStats :=
  map_imap (λ key entry, Some (deriveOwn key entry))
           (foldl processRound (initStats (players t)) (rounds t)).

(** *** rankPlayers *)

(** **** The own properties of [stats] and their order

    [Object.values] lists the own properties of an object: first those whose
    key is an array index, by ascending index, then the others in the order
    in which they were created. *)

Definition isDigit (c : Strings.Ascii.ascii) : bool :=
  let n := Strings.Ascii.nat_of_ascii c in (48 <=? n)%nat && (n <=? 57)%nat.

Fixpoint digitsValue (acc : N) (s : string) : option N :=
  match s with
  | EmptyString => Some acc
  | String c rest =>
      if isDigit c
      then digitsValue (10 * acc + N.of_nat (Strings.Ascii.nat_of_ascii c - 48))
                       rest
      else None
  end.

(** The index that a key is when it is an array index: the decimal numeral,
    without leading zero, of an integer from 0 to 2^32 - 2. *)
Definition arrayIndex (key : string) : option N :=
  match key with
  | EmptyString => None
  | String c rest =>
      if (Strings.Ascii.nat_of_ascii c =? 48)%nat && negb (String.eqb rest "")
      then None
      else
        match digitsValue 0 key with
        | Some n => if (n <? 2 ^ 32 - 1)%N then Some n else None
        | None => None
        end
  end.

Definition indexBefore (a b : string) : Prop :=
  (default 0 (arrayIndex a) ≤ default 0 (arrayIndex b))%N.

Global Instance indexBefore_dec : RelDecision indexBefore.
Proof. intros a b. unfold indexBefore. apply _. Defined.

(** The keys of the own properties that the assignments [stats[player] =
    {...}] create, in the order of their creation. *)
Definition createdKeys (ps : list string) : list string :=
  foldl (λ keys player,
           if decide (player = "__proto__"%string ∨ player ∈ keys) then keys
           else keys ++ [player])
        [] ps.

(** The keys in the order in which the host enumerates them. *)
Definition ownPropertyKeys (created : list string) : list string :=
  merge_sort indexBefore (filter (λ key, is_Some (arrayIndex key)) created) ++
  filter (λ key, ¬ is_Some (arrayIndex key)) created.

(** The own property keys of the object that [calculateStats t] returns. *)
Definition statsKeys (t : Tournament) : list string :=
  ownPropertyKeys (createdKeys (players t)).

(** [Object.values(stats)], for an object with the own property keys
    [keys]. *)
Definition Object_values (keys : list string)
    (stats : gmap string PlayerStats) : list PlayerStats :=
  omap (λ key, stats !! key) keys.

(** **** The order of the names

    [String.prototype.localeCompare] is supplied by the host and depends on
    its locale: it is a parameter of the engine.  [comparison] is the sign of
    the number it returns.  What is assumed of it is what ECMAScript requires
    of it, a consistent comparison: a total order of the strings, up to the
    strings that it takes to be equal. *)
Class Collation : Type := {
  localeCompare : string → string → comparison;
  localeCompare_antisym (a b : string) :
    localeCompare b a = CompOpp (localeCompare a b);
  localeCompare_trans (a b c : string) :
    localeCompare a b ≠ Gt → localeCompare b c ≠ Gt → localeCompare a c ≠ Gt
}.

Section with_collation.

Context {host : Collation}.

(** The comparison function handed to [sort]; the result is the sign of the
    number the JavaScript function returns. *)
Definition compareFn (a b : PlayerStats) : comparison :=
  if negb (totalPoints b =? totalPoints a) then
    (totalPoints b - totalPoints a ?= 0)
  else if negb (wins b =? wins a) then
    (wins b - wins a ?= 0)
  else if negb (Qeq_bool (pointsPerGame b) (pointsPerGame a)) then
    (pointsPerGame b - pointsPerGame a ?= 0)%Q
  else localeCompare (name a) (name b).

(** [a] may stay in front of [b]: the comparison function is not positive. *)
Definition sortsBefore (a b : PlayerStats) : Prop := compareFn a b ≠ Gt.

Global Instance sortsBefore_dec : RelDecision sortsBefore.
Proof. intros a b. unfold sortsBefore. apply _. Defined.

(** [players.sort(compareFn)].  The sort of the host is stable, and for a
    consistent comparison function its result is the sorted arrangement in
    which the entries that compare equal keep their order.  Insertion from
    the right computes that arrangement: an entry is put in front of the
    first later entry that it may stay in front of. *)
Fixpoint insertSorted (x : PlayerStats) (l : list PlayerStats)
    : list PlayerStats :=
  match l with
  | [] => [x]
  | y :: l' =>
      if decide (sortsBefore x y) then x :: l else y :: insertSorted x l'
  end.

Definition sort (l : list PlayerStats) : list PlayerStats :=
  foldr insertSorted [] l.

(** The [forEach] that assigns the ranks; [prev] is [players[index - 1]]
    after its own rank was assigned, and is absent at index 0. *)
Fixpoint assignRanks (prev : option PlayerStats) (index : Z)
    (l : list PlayerStats) : list PlayerStats :=
  match l with
  | [] => []
  | player :: rest =>
      let player' :=
        match prev with
        | None => set_rank (Some 1) player
        | Some prev =>
            if (totalPoints player =? totalPoints prev) &&
               (wins player =? wins prev)
            then set_rank (rank prev) player
            else set_rank (Some (index + 1)) player
        end in
      player' :: assignRanks (Some player') (index + 1) rest
  end.

Definition rankPlayers (t : Tournament) : list PlayerStats :=
  let stats := calculateStats t in
  let players := Object_values (statsKeys t) stats in
  assignRanks None 0 (sort players).

(** ** Module Pairing *)

(** Number of iterations of [for (let i = 0; i < length; i += 4)]. *)
Definition iterations (length : nat) : nat := ((length + 3) / 4)%nat.

(** The loop of [createInitialPairings], with [iters] iterations left to
    run; [group[k]] is [players[i + k]], and [undefined] past the end. *)
Fixpoint initialLoop (iters i : nat) (matchId : Z) (ps : list string)
    : list Match :=
  match iters with
  | O => []
  | S iters =>
      mkMatch matchId (ps !! i) (ps !! (i + 3)%nat)
              (ps !! (i + 1)%nat) (ps !! (i + 2)%nat) Null Null
      :: initialLoop iters (i + 4) (matchId + 1) ps
  end.

Definition createInitialPairings (ps : list string) : list Match :=
  initialLoop (iterations (length ps)) 0 1 ps.

(** The loop of [createMexicanoPairings]; reading [.name] of a missing
    group member throws. *)
Fixpoint mexicanoLoop (iters i : nat) (matchId : Z)
    (rankedPlayers : list PlayerStats) : result (list Match) :=
  match iters with
  | O => Ret []
  | S iters =>
      g0 ← property_of (rankedPlayers !! i) name;
      g3 ← property_of (rankedPlayers !! (i + 3)%nat) name;
      g1 ← property_of (rankedPlayers !! (i + 1)%nat) name;
      g2 ← property_of (rankedPlayers !! (i + 2)%nat) name;
      rest ← mexicanoLoop iters (i + 4) (matchId + 1) rankedPlayers;
      Ret (mkMatch matchId (Some g0) (Some g3) (Some g1) (Some g2) Null Null
           :: rest)
  end.

Definition createMexicanoPairings (rankedPlayers : list PlayerStats)
    : result (list Match) :=
  mexicanoLoop (iterations (length rankedPlayers)) 0 1 rankedPlayers.

(** [allPreviousMatches.reduce((max, m) => Math.max(max, m.id), 0)] *)
Definition maxMatchId (rs : list Round) : Z :=
  foldl (λ max m, Z.max max (id m)) 0 (flat_map matches rs).

(** [matches.forEach((match, index) => match.id = maxId + index + 1)] *)
Definition renumber (maxId : Z) (ms : list Match) : list Match :=
  imap (λ index m, set_id (maxId + Z.of_nat index + 1) m) ms.

(** [Ret None] is the value [null]. *)
Definition generateNextRound (t : Tournament) : result (option Round) :=
  if negb (canStartNextRound t) then Ret None
  else
    let nextRoundNumber := getCurrentRoundNumber t + 1 in
    ms ← (if nextRoundNumber =? 1
          then Ret (createInitialPairings (players t))
          else createMexicanoPairings (rankPlayers t));
    let maxId := maxMatchId (rounds t) in
    Ret (Some (mkRound nextRoundNumber (renumber maxId ms))).

Definition addNextRound (now : Z) (t : Tournament)
    : result unit * Tournament :=
  match generateNextRound t with
  | Throw e => (Throw e, t)
  | Ret None =>
      (Throw (Error "Cannot start next round: current round is not complete"), t)
  | Ret (Some newRound) =>
      (Ret (), set_updatedAt now (set_rounds (rounds t ++ [newRound]) t))
  end.

(** ** Module Tournament, continued: the edit of a score *)

(** [round.matches.find(m => m.id === matchId)], with the position of the
    match found. *)
Definition findMatch (matchId : Z) (ms : list Match) : option (nat * Match) :=
  list_find (λ m, id m = matchId) ms.

(** The outcome of the call and the tournament as the call leaves it.  The
    scores are written into the match object in place, and the list of rounds
    is replaced, before the next round is generated: a throw of
    [generateNextRound] leaves both writes behind. *)
Definition updateMatchScore (now : Z) (t : Tournament)
    (roundNumber matchId : Z) (team1Score team2Score : jsval)
    : result unit * Tournament :=
  if negb (isValidScore team1Score team2Score) then
    (Throw (Error "Invalid score: team scores must equal 25"), t)
  else
    let roundIndex := roundNumber - 1 in
    if (roundIndex <? 0) || (Z.of_nat (length (rounds t)) <=? roundIndex) then
      (Throw (Error "Invalid round number"), t)
    else
      match rounds t !! Z.to_nat roundIndex with
      | None => (Throw TypeError, t)
      | Some round =>
          match findMatch matchId (matches round) with
          | None => (Throw (Error "Match not found"), t)
          | Some (k, m) =>
              let round :=
                set_matches
                  (<[k := set_scores team1Score team2Score m]> (matches round))
                  round in
              let t1 := set_rounds (<[Z.to_nat roundIndex := round]> (rounds t)) t in
              let currentRoundNumber := getCurrentRoundNumber t1 in
              if roundNumber <? currentRoundNumber then
                let t2 := set_rounds (take (Z.to_nat roundNumber) (rounds t1)) t1 in
                match rounds t2 !! Z.to_nat roundIndex with
                | None => (Throw TypeError, t2)
                | Some edited =>
                    if isRoundComplete edited then
                      match generateNextRound t2 with
                      | Throw e => (Throw e, t2)
                      | Ret None => (Ret (), set_updatedAt now t2)
                      | Ret (Some nextRound) =>
                          (Ret (),
                           set_updatedAt now
                             (set_rounds (rounds t2 ++ [nextRound]) t2))
                      end
                    else (Ret (), set_updatedAt now t2)
                end
              else (Ret (), set_updatedAt now t1)
          end
      end.

End with_collation.

(** *** canEdit

    [tz] is the offset of local time from UTC in milliseconds.
    [new Date(tournament.tournamentDate)] is midnight UTC of the tournament
    day; [setHours(0, 0, 0, 0)] moves to the start of the local day that
    holds this instant, and [setDate(getDate() + 2)] adds two days of
    twenty-four hours (no change of the offset in between). *)

Definition msPerDay : Z := 86400000.

Definition startOfLocalDay (tz instant : Z) : Z :=
  (instant + tz) / msPerDay * msPerDay - tz.

Definition editDeadline (tz : Z) (t : Tournament) : Z :=
  startOfLocalDay tz (tournamentDate t * msPerDay) + 2 * msPerDay.

Definition canEdit (tz : Z) (t : Tournament) (now : Z) : bool :=
  now <? editDeadline tz t.

(** ** Statements taken from the specification, for comparison *)

(** A score pair as the specification accepts it: two integers, none
    negative, with sum 25. *)
Definition specValidScore (a b : jsval) : Prop :=
  ∃ x y, a = Num x ∧ b = Num y ∧ 0 ≤ x ∧ 0 ≤ y ∧ x + y = 25.

(** [ms] pairs the players [ps] in consecutive groups of four: one match for
    each group, the first and the last of the group against the two in the
    middle, every player in exactly one match, and four distinct players in
    each match. *)
Definition pairsQuartets (ps : list string) (ms : list Match) : Prop :=
  length ms = (length ps / 4)%nat ∧
  (∀ j g0 g1 g2 g3,
     ps !! (4 * j)%nat = Some g0 → ps !! (4 * j + 1)%nat = Some g1 →
     ps !! (4 * j + 2)%nat = Some g2 → ps !! (4 * j + 3)%nat = Some g3 →
     ∃ m, ms !! j = Some m ∧
          team1Player1 m = Some g0 ∧ team1Player2 m = Some g3 ∧
          team2Player1 m = Some g1 ∧ team2Player2 m = Some g2) ∧
  (∀ p, p ∈ ps →
     ∃ j, (∃ m, ms !! j = Some m ∧ Some p ∈ participants m) ∧
          ∀ j', (∃ m, ms !! j' = Some m ∧ Some p ∈ participants m) → j' = j) ∧
  (∀ m, m ∈ ms →
     NoDup (participants m) ∧
     ∀ slot, slot ∈ participants m → ∃ p, slot = Some p ∧ p ∈ ps).

(** The matches of all rounds, in the order [calculateStats] visits them. *)
Definition allMatches (t : Tournament) : list Match :=
  flat_map matches (rounds t).

(** What one match gives to the player [p], in the words of the
    specification.  A slot counts for [p] when it holds the name [p]; each
    slot of a complete match earns the score of its team and one game, a slot
    of the higher-scoring team earns one win, a slot of the other team one
    loss.  An incomplete match gives nothing. *)
Definition holds (p : string) (slot : option string) : Z :=
  if decide (propertyKey slot = p) then 1 else 0.

Definition onTeam1 (p : string) (m : Match) : Z :=
  holds p (team1Player1 m) + holds p (team1Player2 m).

Definition onTeam2 (p : string) (m : Match) : Z :=
  holds p (team2Player1 m) + holds p (team2Player2 m).

Inductive side : Type := Team1 | Team2.

Definition higherScoring (m : Match) : option side :=
  if numberOf (team2Score m) <? numberOf (team1Score m) then Some Team1
  else if numberOf (team1Score m) <? numberOf (team2Score m) then Some Team2
  else None.

Definition onSide (p : string) (m : Match) (s : side) : Z :=
  match s with Team1 => onTeam1 p m | Team2 => onTeam2 p m end.

Definition otherSide (s : side) : side :=
  match s with Team1 => Team2 | Team2 => Team1 end.

Definition matchPoints (p : string) (m : Match) : Z :=
  if isMatchComplete m
  then onTeam1 p m * numberOf (team1Score m) +
       onTeam2 p m * numberOf (team2Score m)
  else 0.

Definition matchGames (p : string) (m : Match) : Z :=
  if isMatchComplete m then onTeam1 p m + onTeam2 p m else 0.

Definition matchWins (p : string) (m : Match) : Z :=
  if isMatchComplete m
  then from_option (onSide p m) 0 (higherScoring m)
  else 0.

Definition matchLosses (p : string) (m : Match) : Z :=
  if isMatchComplete m
  then from_option (λ s, onSide p m (otherSide s)) 0 (higherScoring m)
  else 0.

Definition sumOver (f : Match → Z) (ms : list Match) : Z :=
  foldr (λ m acc, f m + acc) 0 ms.

(** [p] is in no complete match of [t]. *)
Definition noCompletedMatch (t : Tournament) (p : string) : Prop :=
  ∀ m, m ∈ allMatches t → isMatchComplete m = true →
       ∀ slot, slot ∈ participants m → propertyKey slot ≠ p.

(** The entry [s] after gaining points, games, wins and losses. *)
Definition gain (pts games won lost : Z) (s : PlayerStats) : PlayerStats :=
  mkStats (name s) (totalPoints s + pts) (gamesPlayed s + games)
          (wins s + won) (losses s + lost)
          (pointsPerGame s) (winPercentage s) (rank s).

(** The order of the ranking in the words of the specification: more total
    points first, then more wins, then more points per game, then the name in
    ascending case-sensitive lexicographic order. *)
Definition specPrecedes (a b : PlayerStats) : Prop :=
  totalPoints b < totalPoints a ∨
  (totalPoints a = totalPoints b ∧
   (wins b < wins a ∨
    (wins a = wins b ∧
     ((pointsPerGame b < pointsPerGame a)%Q ∨
      ((pointsPerGame a == pointsPerGame b)%Q ∧
       String.le (name a) (name b)))))).

(** The same order with the names in the order of the host: the name of [a]
    is not after the name of [b] by [localeCompare]. *)
Definition precedes {host : Collation} (a b : PlayerStats) : Prop :=
  totalPoints b < totalPoints a ∨
  (totalPoints a = totalPoints b ∧
   (wins b < wins a ∨
    (wins a = wins b ∧
     ((pointsPerGame b < pointsPerGame a)%Q ∨
      ((pointsPerGame a == pointsPerGame b)%Q ∧
       localeCompare (name a) (name b) ≠ Gt))))).

(** Two consecutive players share a rank when their total points and their
    wins are the same. *)
Definition tiedWith (prev player : PlayerStats) : Prop :=
  totalPoints player = totalPoints prev ∧ wins player = wins prev.

Global Instance tiedWith_dec prev player : Decision (tiedWith prev player).
Proof. unfold tiedWith. apply _. Defined.

(** The round [round] after the scores of its match [m], at position [k],
    were overwritten. *)
Definition withScores (s1 s2 : jsval) (k : nat) (m : Match) (round : Round)
    : Round :=
  set_matches (<[k := set_scores s1 s2 m]> (matches round)) round.

(** The rounds up to the one at index [i], with the edited round in place
    of the last of them. *)
Definition keptRounds (i : nat) (edited : Round) (rs : list Round)
    : list Round :=
  take i rs ++ [edited].

(** What a returning call [updateMatchScore(t, r, mid, s1, s2)] at time
    [now] has made of [t]: the match [m] numbered [mid] of round [r] has the
    new scores; beyond the rounds and the time of the update no field has
    changed; after the edit of a round before the last one, the rounds are
    those up to the edited one, then one new round when the edited round is
    complete, numbered [r + 1] and paired from the ranking of the rounds that
    were kept, and no further round when it is not complete; after the edit
    of the last round the rounds differ in the edited round only. *)
Definition cascadesTo {host : Collation} (now : Z) (t t' : Tournament)
    (r mid : Z) (s1 s2 : jsval) : Prop :=
  ∃ round k m,
    rounds t !! Z.to_nat (r - 1) = Some round ∧
    matches round !! k = Some m ∧ id m = mid ∧
    t' = set_updatedAt now (set_rounds (rounds t') t) ∧
    (r < Z.of_nat (length (rounds t)) →
     let kept :=
       keptRounds (Z.to_nat (r - 1)) (withScores s1 s2 k m round) (rounds t) in
     if isRoundComplete (withScores s1 s2 k m round) then
       ∃ next ms,
         rounds t' = kept ++ [next] ∧
         roundNumber next = r + 1 ∧
         createMexicanoPairings (rankPlayers (set_rounds kept t)) = Ret ms ∧
         matches next = renumber (maxMatchId kept) ms
     else rounds t' = kept) ∧
    (r = Z.of_nat (length (rounds t)) →
     rounds t' = <[Z.to_nat (r - 1) := withScores s1 s2 k m round]> (rounds t)).

(** The entry [s] accounts for the matches of [t] that [p] played in. *)
Definition accountsFor (t : Tournament) (p : string) (s : PlayerStats) : Prop :=
  name s = p ∧
  totalPoints s = sumOver (matchPoints p) (allMatches t) ∧
  gamesPlayed s = sumOver (matchGames p) (allMatches t) ∧
  wins s = sumOver (matchWins p) (allMatches t) ∧
  losses s = sumOver (matchLosses p) (allMatches t) ∧
  (0 < gamesPlayed s →
   (pointsPerGame s ==
      inject_Z (totalPoints s) / inject_Z (gamesPlayed s))%Q ∧
   (winPercentage s ==
      100 * inject_Z (wins s) / inject_Z (gamesPlayed s))%Q) ∧
  (noCompletedMatch t p → s = zeroStats p).

(** ** A tournament of eight players, as the engine builds it *)

Definition clubPlayers : list string :=
  ["Ann"; "Bob"; "Cat"; "Dan"; "Eve"; "Fay"; "Gus"; "Hal"]%string.

(** Team 1 is [a] and [b], team 2 is [c] and [d]. *)
Definition game (i : Z) (a b c d : string) (s1 s2 : jsval) : Match :=
  mkMatch i (Some a) (Some b) (Some c) (Some d) s1 s2.

Definition clubRound1 : Round :=
  mkRound 1 [game 1 "Ann" "Dan" "Bob" "Cat" (Num 15) (Num 10);
             game 2 "Eve" "Hal" "Fay" "Gus" (Num 10) (Num 15)].

Definition clubRound2 : Round :=
  mkRound 2 [game 3 "Ann" "Gus" "Dan" "Fay" (Num 20) (Num 5);
             game 4 "Bob" "Hal" "Cat" "Eve" (Num 11) (Num 14)].

Definition clubRound3 : Round :=
  mkRound 3 [game 5 "Ann" "Eve" "Gus" "Cat" (Num 13) (Num 12);
             game 6 "Bob" "Fay" "Hal" "Dan" (Num 9) (Num 16)].

(** Three complete rounds; the tournament day is day 20000. *)
Definition clubNight : Tournament :=
  mkTournament "Club night" "" 20000 clubPlayers
               [clubRound1; clubRound2; clubRound3] 0 2.

(** The tournament after its first round. *)
Definition clubFirstRound : Tournament :=
  mkTournament "Club night" "" 20000 clubPlayers [clubRound1] 0 2.

(** Round 1 with the first result turned around, and the round 2 that
    follows from it. *)
Definition clubRound1Edited : Round :=
  mkRound 1 [game 1 "Ann" "Dan" "Bob" "Cat" (Num 5) (Num 20);
             game 2 "Eve" "Hal" "Fay" "Gus" (Num 10) (Num 15)].

Definition clubRound2Again : Round :=
  mkRound 2 [game 3 "Bob" "Gus" "Cat" "Fay" Null Null;
             game 4 "Eve" "Dan" "Hal" "Ann" Null Null].

Definition clubNightEdited (now : Z) : Tournament :=
  mkTournament "Club night" "" 20000 clubPlayers
               [clubRound1Edited; clubRound2Again] 0 now.

(** ** A tournament with a player named [__proto__]

    The eight names are accepted by [validatePlayers]; the round is the
    first round that is made of them, with its scores entered. *)

Definition protoPlayers : list string :=
  ["Ann"; "Bob"; "Cat"; "Dan"; "Eve"; "Fay"; "Gus"; "__proto__"]%string.

Definition protoRound1 : Round :=
  mkRound 1 [game 1 "Ann" "Dan" "Bob" "Cat" (Num 15) (Num 10);
             game 2 "Eve" "__proto__" "Fay" "Gus" (Num 10) (Num 15)].

Definition protoNight : Tournament :=
  mkTournament "Proto night" "" 20000 protoPlayers [protoRound1] 0 2.

(** ** Invariants of the list of rounds *)

(** The rounds are numbered 1, 2, 3, ... in their order. *)
Definition roundsNumbered (rs : list Round) : Prop :=
  ∀ i r, rs !! i = Some r → roundNumber r = Z.of_nat i + 1.

(** Every round but the last one is complete. *)
Definition completeButLast (rs : list Round) : Prop :=
  ∀ i r, rs !! i = Some r → (S i < length rs)%nat → isRoundComplete r = true.

(** No two matches of the tournament have the same number. *)
Definition idsDistinct (rs : list Round) : Prop :=
  NoDup (id <$> flat_map matches rs).

(** In each round, the participant slots of the matches are the players
    [ps], each of them once. *)
Definition everyonePlays (ps : list string) (rs : list Round) : Prop :=
  ∀ r, r ∈ rs → mjoin (participants <$> matches r) ≡ₚ Some <$> ps.

(** The match numbers that a new round can get are integers that the
    doubles of the code hold exactly: the highest match number so far plus
    the number of players is at most 2^53.  Within this range
    [maxId + index + 1] is computed without rounding. *)
Definition idsInRange (t : Tournament) : Prop :=
  maxMatchId (rounds t) + Z.of_nat (length (players t)) ≤ 2 ^ 53.

(** What [updateMatchScore] comes to once the score is accepted and the
    match found: [edited] is the round with the new scores and [kept] the
    rounds up to it. *)
Definition editOutcome {host : Collation} (now : Z) (t : Tournament) (r : Z)
    (kept : list Round) (edited : Round) : result unit * Tournament :=
  if (r <? Z.of_nat (length (rounds t))) && isRoundComplete edited then
    match createMexicanoPairings (rankPlayers (set_rounds kept t)) with
    | Ret ms =>
        (Ret (),
         set_updatedAt now
           (set_rounds
              (kept ++ [mkRound (r + 1) (renumber (maxMatchId kept) ms)]) t))
    | Throw e => (Throw e, set_rounds kept t)
    end
  else (Ret (), set_updatedAt now (set_rounds kept t)).

(** The three messages with which [updateMatchScore] rejects a call. *)
Definition rejections : list string :=
  ["Invalid score: team scores must equal 25";
   "Invalid round number";
   "Match not found"]%string.

(** ** Totals over the players *)

Definition sumList {A} (f : A → Z) (l : list A) : Z :=
  foldr (λ x acc, f x + acc) 0 l.

(** The number of complete matches of the tournament. *)
Definition completedMatches (t : Tournament) : Z :=
  Z.of_nat (length (filter (λ m, isMatchComplete m = true) (allMatches t))).

(** A number read from the entry of [p], and 0 when [p] has no entry. *)
Definition statOf (field : PlayerStats → Z) (t : Tournament) (p : string) : Z :=
  from_option field 0 (calculateStats t !! p).

(** All participants of the complete matches are declared players. *)
Definition participantsDeclared (t : Tournament) : Prop :=
  ∀ m, m ∈ allMatches t → isMatchComplete m = true →
       ∀ slot, slot ∈ participants m → propertyKey slot ∈ players t.

(** ** Standing of two players *)

(** [q] is ahead of [p]: more total points, or as many points and more
    wins. *)
Definition ahead (q p : PlayerStats) : Prop :=
  totalPoints p < totalPoints q ∨
  (totalPoints q = totalPoints p ∧ wins p < wins q).

Global Instance ahead_dec q p : Decision (ahead q p).
Proof. unfold ahead. apply _. Defined.

(** The number of players of [l] that are ahead of [p]. *)
Definition countAhead (p : PlayerStats) (l : list PlayerStats) : Z :=
  Z.of_nat (length (filter (λ q, ahead q p) l)).

(** ** Module Tournament: the creation of a tournament *)

(** The object returned by [validatePlayers]; [error] is absent when the
    players are valid. *)
Record Validation : Type := mkValidation {
  isValid : bool;
  error : option string
}.

Definition isValidPlayerCount (count : Z) : bool :=
  bool_decide (count ∈ [8; 12; 16]).

Section creation.

(** [String.prototype.trim] and [String.prototype.toLowerCase] are supplied
    by the host; the engine is modelled for any two such functions. *)
Variables (trim toLowerCase : string → string).

Definition validatePlayers (ps : list string) : Validation :=
  let emptyNames := filter (λ p, p = ""%string ∨ trim p = ""%string) ps in
  if (0 <? length emptyNames)%nat then
    mkValidation false (Some "All player names must be non-empty"%string)
  else
    let uniqueNames : gset string :=
      list_to_set ((λ p, toLowerCase (trim p)) <$> ps) in
    if negb (size uniqueNames =? length ps)%nat then
      mkValidation false (Some "All player names must be unique"%string)
    else if negb (isValidPlayerCount (Z.of_nat (length ps))) then
      mkValidation false (Some "Must have exactly 8, 12, or 16 players"%string)
    else mkValidation true None.

(** [now] and [now'] are the two readings of the clock; [descr] is [None]
    when the argument is left out. *)
Definition createTournament (now now' : Z) (name : string) (date : Z)
    (ps : list string) (descr : option string) : result Tournament :=
  let validation := validatePlayers ps in
  if negb (isValid validation) then
    Throw (Error (default ""%string (error validation)))
  else
    Ret (mkTournament name (default ""%string descr) date (trim <$> ps) []
                      now now').

End creation.

Definition set_players (ps : list string) (t : Tournament) : Tournament :=
  mkTournament (tournament_name t) (description t) (tournamentDate t)
               ps (rounds t) (createdAt t) (updatedAt t).

(** ** Module Pairing: shuffleArray *)

Section shuffle.

Context {A : Type}.

(** [[shuffled[i], shuffled[j]] = [shuffled[j], shuffled[i]]].  The loop
    only swaps positions of the array, [i] below its length and [j] at most
    [i]; for other positions, which the host would fill with [undefined],
    the list is left as it is. *)
Definition swap (i j : nat) (shuffled : list A) : list A :=
  match shuffled !! i, shuffled !! j with
  | Some x, Some y => <[j := x]> (<[i := y]> shuffled)
  | _, _ => shuffled
  end.

(** The loop [for (let i = shuffled.length - 1; i > 0; i--)]; [random i]
    is the value of [Math.floor(Math.random() * (i + 1))] in the iteration
    with index [i]. *)
Fixpoint shuffleLoop (random : nat → nat) (i : nat) (shuffled : list A)
    : list A :=
  match i with
  | O => shuffled
  | S i' => shuffleLoop random i' (swap i (random i) shuffled)
  end.

Definition shuffleArray (random : nat → nat) (array : list A) : list A :=
  shuffleLoop random (length array - 1) array.

End shuffle.

(** ** Host string functions on ASCII strings, for the examples *)

Definition lowerChar (c : Strings.Ascii.ascii) : Strings.Ascii.ascii :=
  let n := Strings.Ascii.nat_of_ascii c in
  if (65 <=? n)%nat && (n <=? 90)%nat
  then Strings.Ascii.ascii_of_nat (n + 32)
  else c.

Fixpoint asciiLowerCase (s : string) : string :=
  match s with
  | EmptyString => EmptyString
  | String c s' => String (lowerChar c) (asciiLowerCase s')
  end.

Fixpoint trimStart (s : string) : string :=
  match s with
  | EmptyString => EmptyString
  | String c s' => if Ascii.is_space c then trimStart s' else s
  end.

Definition asciiTrim (s : string) : string :=
  String.rev (trimStart (String.rev (trimStart s))).

(** A collation for the examples: the names are compared by their code
    units from left to right, after the capital letters A to Z were replaced
    by the small ones.  It puts "bob" before "Dan", as the collations of the
    hosts do, and takes names that differ in case only to be equal. *)
Definition compareByKey (key : string → string) (a b : string) : comparison :=
  String.compare (key a) (key b).

Lemma compareByKey_antisym key a b :
  compareByKey key b a = CompOpp (compareByKey key a b).
Proof. unfold compareByKey. apply String.compare_antisym. Qed.

Lemma compare_not_Gt (x y : string) : String.compare x y ≠ Gt ↔ String.le x y.
Proof.
  unfold String.le, String.leb.
  destruct (String.compare x y); simpl; split; done.
Qed.

Lemma compareByKey_trans key a b c :
  compareByKey key a b ≠ Gt → compareByKey key b c ≠ Gt →
  compareByKey key a c ≠ Gt.
Proof. unfold compareByKey. rewrite !compare_not_Gt. apply transitivity. Qed.

Definition collateBy (key : string → string) : Collation :=
  {| localeCompare := compareByKey key;
     localeCompare_antisym := compareByKey_antisym key;
     localeCompare_trans := compareByKey_trans key |}.

Definition clubCollation : Collation := collateBy asciiLowerCase.

(** The names as they are typed in, with blanks around some of them. *)
Definition clubEntries : list string :=
  ["Ann "; " Bob"; "Cat"; "Dan"; "Eve"; "Fay"; "Gus"; "Hal"]%string.

(** A source of draws: in the iteration with index [i] the draw is the
    remainder of [3 * i + 1] by [i + 1]. *)
Definition clubDraws (i : nat) : nat := ((3 * i + 1) `mod` (i + 1))%nat.

(** ** Module App: the tournament in hand *)

(** The matches of the tournament are numbered 1, 2, 3, ... in the order of
    the rounds and, within a round, of its matches. *)
Definition idsInOrder (rs : list Round) : Prop :=
  id <$> flat_map matches rs =
  seqZ 1 (Z.of_nat (length (flat_map matches rs))).

(** The tournaments that the handlers of the application make.
    [handleCreateTournament] creates the tournament, shuffles its players
    and pushes the round that [generateNextRound] returns;
    [handleConfirmScore] calls [updateMatchScore] and goes on with the
    tournament as the call leaves it, also when it throws;
    [handleNextRound] pushes the round that [generateNextRound] returns,
    once the last round is complete; [Storage.saveTournament], which each of
    them calls, writes the time of the update.  The storage is taken to give
    back the tournament that was saved.  A push of [null] is not among the
    steps: that [generateNextRound] returns a round at each of them is
    proved below. *)
Inductive reachable {host : Collation} (trim toLowerCase : string → string)
    : Tournament → Prop :=
| reach_create (now now' : Z) (name : string) (date : Z) (ps : list string)
      (descr : option string) (random : nat → nat) (t t1 : Tournament)
      (round1 : Round) :
    createTournament trim toLowerCase now now' name date ps descr = Ret t →
    (∀ i, (random i ≤ i)%nat) →
    t1 = set_players (shuffleArray random (players t)) t →
    generateNextRound t1 = Ret (Some round1) →
    reachable trim toLowerCase (set_rounds (rounds t1 ++ [round1]) t1)
| reach_confirm (now : Z) (t : Tournament) (roundNum matchId : Z)
      (team1Score team2Score : jsval) :
    reachable trim toLowerCase t →
    reachable trim toLowerCase
      (snd (updateMatchScore now t roundNum matchId team1Score team2Score))
| reach_next (t : Tournament) (lastRound nextRound : Round) :
    reachable trim toLowerCase t →
    last (rounds t) = Some lastRound →
    isRoundComplete lastRound = true →
    generateNextRound t = Ret (Some nextRound) →
    reachable trim toLowerCase (set_rounds (rounds t ++ [nextRound]) t)
| reach_save (now : Z) (t : Tournament) :
    reachable trim toLowerCase t →
    reachable trim toLowerCase (set_updatedAt now t).

Definition wellFormed (t : Tournament) : Prop :=
  NoDup (players t) ∧ length (players t) ∈ [8; 12; 16]%nat ∧
  rounds t ≠ [] ∧
  roundsNumbered (rounds t) ∧ completeButLast (rounds t) ∧
  idsInOrder (rounds t) ∧ everyonePlays (players t) (rounds t) ∧
  ∀ r, r ∈ rounds t → (4 * length (matches r) = length (players t))%nat.

(** ** Module Tournament: getCourtCount *)

(** [playerCount / 4], a quotient of numbers. *)
Definition getCourtCount (playerCount : Z) : Q := inject_Z playerCount / 4.

(** ** Module Config (src/js/config.js) *)

(** [localStorage]: its items by key.  A key without an item reads
    [null], here [None]. *)
Abbreviation LocalStorage := (gmap string string).

Definition GITHUB_USER : string := "mexicano_github_user".
Definition GITHUB_REPO : string := "mexicano_github_repo".
Definition GITHUB_PAT : string := "mexicano_github_pat".
Definition GITHUB_BRANCH : string := "mexicano_github_branch".
Definition STORAGE_KEYS : list string :=
  [GITHUB_USER; GITHUB_REPO; GITHUB_PAT; GITHUB_BRANCH].
Definition DEFAULT_BRANCH : string := "main".

(** [item || other], for an item read from the storage: [null] and the
    empty string are falsy. *)
Definition js_or (item : option string) (other : string) : string :=
  match item with
  | Some s => if decide (s = ""%string) then other else s
  | None => other
  end.

(** [a && b] on strings. *)
Definition js_and (a b : string) : string :=
  if decide (a = ""%string) then a else b.

(** [ToBoolean] of a string. *)
Definition truthy (s : string) : bool := bool_decide (s ≠ ""%string).

Definition getGitHubUser (ls : LocalStorage) : string :=
  js_or (ls !! GITHUB_USER) "".

Definition setGitHubUser (user : string) (ls : LocalStorage) : LocalStorage :=
  <[GITHUB_USER := user]> ls.

Definition getGitHubRepo (ls : LocalStorage) : string :=
  js_or (ls !! GITHUB_REPO) "".

Definition setGitHubRepo (repo : string) (ls : LocalStorage) : LocalStorage :=
  <[GITHUB_REPO := repo]> ls.

Definition getGitHubPAT (ls : LocalStorage) : string :=
  js_or (ls !! GITHUB_PAT) "".

Definition setGitHubPAT (pat : string) (ls : LocalStorage) : LocalStorage :=
  <[GITHUB_PAT := pat]> ls.

Definition getGitHubBranch (ls : LocalStorage) : string :=
  js_or (ls !! GITHUB_BRANCH) DEFAULT_BRANCH.

Definition setGitHubBranch (branch : string) (ls : LocalStorage)
    : LocalStorage :=
  <[GITHUB_BRANCH := branch]> ls.

(** The value of [getGitHubUser() && getGitHubRepo() && getGitHubPAT()], a
    string that the callers test for truth. *)
Definition isConfigured (ls : LocalStorage) : string :=
  js_and (js_and (getGitHubUser ls) (getGitHubRepo ls)) (getGitHubPAT ls).

(** [branch] is [None] when the argument is left out or [undefined]; the
    default of the parameter then applies. *)
Definition saveGitHubConfig (user repo pat : string) (branch : option string)
    (ls : LocalStorage) : LocalStorage :=
  let branch := default DEFAULT_BRANCH branch in
  setGitHubBranch branch
    (setGitHubPAT pat (setGitHubRepo repo (setGitHubUser user ls))).

Definition clearConfig (ls : LocalStorage) : LocalStorage :=
  delete GITHUB_BRANCH
    (delete GITHUB_PAT (delete GITHUB_REPO (delete GITHUB_USER ls))).

(** ** Module UI: the score entry and the match cards
    (src/unnamed/part_000) *)

(** [a - b] *)
Definition js_sub (a b : jsval) : jsval :=
  match ToNumber a, ToNumber b with
  | Some x, Some y => Num (x - y)
  | _, _ => NaN
  end.

(** The values that [showScoreModal] gives to the inputs of team 1 and of
    team 2. *)
Definition showScoreModal (m : Match) : jsval * jsval :=
  let t1Score :=
    if negb (js_strict_eq (team1Score m) Null) then team1Score m
    else Num 13 in
  (t1Score, js_sub (Num 25) t1Score).

(** The values that [updateScoreModal] gives to the inputs of team 1 and of
    team 2.  [parsed] is what [parseInt] made of the value, [None] for
    NaN. *)
Definition updateScoreModal (parsed : option Z) : Z * Z :=
  let value := parsed in
  let value := match value with None => 0 | Some value => value end in
  let value := if value <? 0 then 0 else value in
  let value := if 25 <? value then 25 else value in
  (value, 25 - value).

(** In [renderMatches]: the count of the completed matches, the winner of a
    match card, and whether the button for the next round is shown. *)
Definition completedCount (round : Round) : nat :=
  length (filter (λ m, isMatchComplete m = true) (matches round)).

Definition winner (m : Match) : Z :=
  let isComplete := isMatchComplete m in
  if isComplete then (if js_gt (team1Score m) (team2Score m) then 1 else 2)
  else 0.

Definition nextRoundShown (round : Round) : bool := isRoundComplete round.

(** * Properties *)

(** ** Scores *)

Section scores.

Context {host : Collation}.

Lemma js_ge_zero v : js_ge v (Num 0) = true ↔ ∃ x, ToNumber v = Some x ∧ 0 ≤ x.
Proof.
  unfold js_ge. destruct (ToNumber v) as [x|]; simpl.
  - rewrite Z.leb_le. split; [eauto | by intros (? & [= <-] & ?)].
  - split; [done | by intros (? & ? & ?)].
Qed.

Lemma js_add_is v w r :
  js_strict_eq (js_add v w) (Num r) = true ↔
  ∃ x y, ToNumber v = Some x ∧ ToNumber w = Some y ∧ x + y = r.
Proof.
  unfold js_add.
  destruct (ToNumber v) as [x|], (ToNumber w) as [y|]; simpl;
    try (split; [done | by intros (? & ? & ? & ? & ?)]).
  rewrite Z.eqb_eq. split; [eauto | by intros (? & ? & [= <-] & [= <-] & ?)].
Qed.

Lemma isValidScore_numbers v w :
  isValidScore v w = true ↔
  ∃ x y, ToNumber v = Some x ∧ ToNumber w = Some y ∧
         0 ≤ x ∧ 0 ≤ y ∧ x + y = 25.
Proof.
  unfold isValidScore. rewrite !andb_true_iff, !js_ge_zero, js_add_is.
  split.
  - intros [[(x & Hx & ?) (y & Hy & ?)] (x' & y' & Hx' & Hy' & ?)].
  simplify_eq. by exists x, y.
  - intros (x & y & ? & ? & ? & ? & ?). split; [split |]; eauto.
Qed.

Lemma isValidScore_integers x y :
  isValidScore (Num x) (Num y) = true ↔ 0 ≤ x ∧ 0 ≤ y ∧ x + y = 25.
Proof.
  rewrite isValidScore_numbers. simpl. split.
  - by intros (? & ? & [= <-] & [= <-] & ?).
  - intros ?. exists x, y. done.
Qed.

(** A complete match holds two integers, none negative, with sum 25. *)
Lemma isMatchComplete_scores m :
  isMatchComplete m = true ↔
  ∃ x y, team1Score m = Num x ∧ team2Score m = Num y ∧
         0 ≤ x ∧ 0 ≤ y ∧ x + y = 25.
Proof.
  unfold isMatchComplete. rewrite !andb_true_iff, !negb_true_iff. split.
  - intros [[[[H1 H2] H3] H4] Hv].
    apply isValidScore_numbers in Hv as (x & y & Hx & Hy & ?).
    destruct (team1Score m), (team2Score m); simplify_eq/=.
    by exists x, y.
  - intros (x & y & -> & -> & ?). rewrite isValidScore_integers. done.
Qed.

(** No complete match is a draw. *)
Lemma isMatchComplete_no_draw m :
  isMatchComplete m = true →
  numberOf (team1Score m) ≠ numberOf (team2Score m).
Proof.
  intros (x & y & -> & -> & ?)%isMatchComplete_scores. simpl. lia.
Qed.

End scores.

(** C6, as stated, fails: [isValidScore(null, 25)] is [true], since [null]
    is converted to 0 by [>=] and by [+], and [null] is not an integer. *)
Lemma isValidScore_accepts_null :
  isValidScore Null (Num 25) = true ∧ ¬ specValidScore Null (Num 25).
Proof.
  split; [reflexivity |].
  intros (x & y & Hx & _). discriminate Hx.
Qed.

(** C6 (amended): [isValidScore] returns [true] if and only if both
    arguments, converted to numbers, are at least 0 and their sum is exactly
    25, where [null] counts as 0 and [undefined] and [NaN] make the result
    [false]; the arguments are not checked to be integers.  On integers this
    is the stated rule, and [isValidScore(15,10)] is [true],
    [isValidScore(13,13)] and [isValidScore(-1,26)] are [false]. *)
Theorem isValidScore_spec :
  (∀ a b, isValidScore a b = true ↔
          ∃ x y, ToNumber a = Some x ∧ ToNumber b = Some y ∧
                 0 ≤ x ∧ 0 ≤ y ∧ x + y = 25) ∧
  (∀ x y, isValidScore (Num x) (Num y) = true ↔ specValidScore (Num x) (Num y)) ∧
  isValidScore (Num 15) (Num 10) = true ∧
  isValidScore (Num 13) (Num 13) = false ∧
  isValidScore (Num (-1)) (Num 26) = false.
Proof.
  split; [apply isValidScore_numbers |].
  split; [| done].
  intros x y. rewrite isValidScore_integers. unfold specValidScore. split.
  - intros ?. by exists x, y.
  - by intros (? & ? & [= <-] & [= <-] & ?).
Qed.

(** ** Pairing *)

Section pairing.

Context {host : Collation}.

Lemma iterations_quartets k : iterations (4 * k) = k.
Proof. unfold iterations. symmetry. apply (Nat.div_unique _ 4 k 3); lia. Qed.

Lemma initialLoop_length k i mid ps : length (initialLoop k i mid ps) = k.
Proof.
  revert i mid. induction k as [|k IH]; intros i mid; simpl; [done |].
  by rewrite IH.
Qed.

Lemma initialLoop_lookup k i mid ps j :
  (j < k)%nat →
  initialLoop k i mid ps !! j =
  Some (mkMatch (mid + Z.of_nat j)
          (ps !! (i + 4 * j)%nat) (ps !! (i + 4 * j + 3)%nat)
          (ps !! (i + 4 * j + 1)%nat) (ps !! (i + 4 * j + 2)%nat) Null Null).
Proof.
  revert i mid j. induction k as [|k IH]; intros i mid j Hj; [lia |].
  destruct j as [|j]; simpl.
  - rewrite Z.add_0_r, !Nat.add_0_r. done.
  - rewrite IH by lia. do 2 f_equal; [lia | f_equal; lia ..].
Qed.

(** A full group read through indices is the next four players. *)
Lemma group_slots (ps : list string) i :
  (i + 4 ≤ length ps)%nat →
  [ps !! i; ps !! (i + 1)%nat; ps !! (i + 2)%nat; ps !! (i + 3)%nat] =
  Some <$> take 4 (drop i ps).
Proof.
  intros Hlen.
  rewrite <- (Nat.add_0_r i) at 1.
  rewrite <- !lookup_drop.
  assert (4 ≤ length (drop i ps))%nat as Hd by (rewrite length_drop; lia).
  destruct (drop i ps) as [|x0 [|x1 [|x2 [|x3 rest]]]]; simpl in Hd; try lia.
  done.
Qed.

Lemma initialLoop_participants k i mid ps :
  (i + 4 * k ≤ length ps)%nat →
  mjoin (participants <$> initialLoop k i mid ps) =
  Some <$> take (4 * k) (drop i ps).
Proof.
  revert i mid. induction k as [|k IH]; intros i mid Hlen; [done |].
  cbn [initialLoop fmap list_fmap mjoin list_join].
  rewrite IH by lia.
  unfold participants at 1; cbn [team1Player1 team1Player2 team2Player1 team2Player2].
  change (?a :: ?b :: ?c :: ?d :: ?l) with ([a; b; c; d] ++ l).
  rewrite group_slots by lia.
  rewrite app_nil_r, <- fmap_app. f_equal.
  replace (4 * S k)%nat with (4 + 4 * k)%nat by lia.
  rewrite <- take_take_drop, drop_drop. done.
Qed.

(** On a ranked list cut in full groups, [createMexicanoPairings] does not
    throw and pairs the names as [createInitialPairings] pairs players. *)
Lemma mexicanoLoop_initialLoop k i mid (ranked : list PlayerStats) :
  (i + 4 * k ≤ length ranked)%nat →
  mexicanoLoop k i mid ranked = Ret (initialLoop k i mid (name <$> ranked)).
Proof.
  revert i mid. induction k as [|k IH]; intros i mid Hlen; [done |].
  cbn [mexicanoLoop initialLoop].
  rewrite !list_lookup_fmap.
  destruct (lookup_lt_is_Some_2 ranked i) as [g0 ->]; [lia |].
  destruct (lookup_lt_is_Some_2 ranked (i + 3)) as [g3 ->]; [lia |].
  destruct (lookup_lt_is_Some_2 ranked (i + 1)) as [g1 ->]; [lia |].
  destruct (lookup_lt_is_Some_2 ranked (i + 2)) as [g2 ->]; [lia |].
  cbn. rewrite IH by lia. done.
Qed.

Lemma NoDup_join_member {A} (ls : list (list A)) l :
  NoDup (mjoin ls) → l ∈ ls → NoDup l.
Proof.
  induction ls as [|l' ls IH]; simpl; [by intros _ ?%elem_of_nil |].
  rewrite NoDup_app. intros (? & ? & ?) [-> | ?]%elem_of_cons; auto.
Qed.

Lemma NoDup_join_index {A} (ls : list (list A)) i j l1 l2 x :
  NoDup (mjoin ls) →
  ls !! i = Some l1 → ls !! j = Some l2 → x ∈ l1 → x ∈ l2 → i = j.
Proof.
  revert i j. induction ls as [|l' ls IH]; intros i j; simpl; [done |].
  rewrite NoDup_app. intros (Hl' & Hdisj & Hls) Hi Hj H1 H2.
  destruct i as [|i], j as [|j]; simplify_eq/=; [done | | | f_equal; eauto].
  - exfalso. apply (Hdisj x H1), list_elem_of_join.
    exists l2. split; [done |]. by eapply list_elem_of_lookup_2.
  - exfalso. apply (Hdisj x H2), list_elem_of_join.
    exists l1. split; [done |]. by eapply list_elem_of_lookup_2.
Qed.

(** What the pairing of full groups amounts to. *)
Lemma initialLoop_pairsQuartets k ps :
  NoDup ps → length ps = (4 * k)%nat →
  pairsQuartets ps (initialLoop k 0 1 ps).
Proof.
  intros Hnd Hlen.
  assert (mjoin (participants <$> initialLoop k 0 1 ps) = Some <$> ps) as Hjoin.
  { rewrite initialLoop_participants by lia.
    rewrite drop_0, <- Hlen, firstn_all. done. }
  assert (NoDup (mjoin (participants <$> initialLoop k 0 1 ps))) as Hndj.
  { rewrite Hjoin. apply NoDup_fmap_2; [apply _ | done]. }
  split; [| split; [| split]].
  - rewrite initialLoop_length, Hlen. apply Nat.div_unique_exact; lia.
  - intros j g0 g1 g2 g3 H0 H1 H2 H3.
    assert (j < k)%nat by (apply lookup_lt_Some in H3; lia).
    eexists. split; [by apply initialLoop_lookup |].
    cbn [team1Player1 team1Player2 team2Player1 team2Player2 Nat.add].
    rewrite H0, H1, H2, H3. done.
  - intros p Hp.
    assert (Some p ∈ mjoin (participants <$> initialLoop k 0 1 ps)) as Hin.
    { rewrite Hjoin. by apply list_elem_of_fmap_2. }
    apply list_elem_of_join in Hin as (l & Hpl & Hl).
    apply list_elem_of_lookup in Hl as [j Hj].
    pose proof Hj as Hj'.
    rewrite list_lookup_fmap in Hj'.
    destruct (initialLoop k 0 1 ps !! j) as [m|] eqn:Hm; simplify_eq/=.
    exists j. split; [by exists m |].
    intros j' (m' & Hm' & Hpm').
    eapply (NoDup_join_index _ j' j); [done | | done | done ..].
    rewrite list_lookup_fmap, Hm'. done.
  - intros m Hm. split.
    + eapply NoDup_join_member; [done |]. by apply list_elem_of_fmap_2.
    + intros slot Hslot.
      assert (slot ∈ Some <$> ps) as Hin.
      { rewrite <- Hjoin. apply list_elem_of_join.
        exists (participants m). split; [done |]. by apply list_elem_of_fmap_2. }
      apply list_elem_of_fmap in Hin as (p & -> & ?). by exists p.
Qed.

Lemma valid_count_quartets (n : nat) :
  n ∈ [8; 12; 16]%nat → ∃ k, n = (4 * k)%nat.
Proof.
  rewrite !elem_of_cons, elem_of_nil.
  intros [-> | [-> | [-> | []]]]; [by exists 2%nat | by exists 3%nat | by exists 4%nat].
Qed.

End pairing.

(** C3: for 8, 12 or 16 distinct players, [createInitialPairings] and
    [createMexicanoPairings] return a quarter as many matches as there are
    players; each consecutive group [g0, g1, g2, g3] of the input gives one
    match of [g0] and [g3] against [g1] and [g2]; every player is in exactly
    one match, and each match has four distinct players. *)
Theorem pairings_partition_in_quartets
    (ps : list string) (ranked : list PlayerStats) :
  NoDup ps → length ps ∈ [8; 12; 16]%nat →
  NoDup (name <$> ranked) → length ranked ∈ [8; 12; 16]%nat →
  pairsQuartets ps (createInitialPairings ps) ∧
  ∃ ms, createMexicanoPairings ranked = Ret ms ∧
        pairsQuartets (name <$> ranked) ms.
Proof.
  intros Hnd [k Hk]%valid_count_quartets Hnd' [k' Hk']%valid_count_quartets.
  split.
  - unfold createInitialPairings. rewrite Hk, iterations_quartets.
    by apply initialLoop_pairsQuartets.
  - unfold createMexicanoPairings. rewrite Hk', iterations_quartets.
    rewrite mexicanoLoop_initialLoop by lia.
    eexists. split; [done |].
    apply initialLoop_pairsQuartets; [done |]. by rewrite length_fmap.
Qed.

(** ** Rejected edits *)


(** ** Statistics *)

Section statistics.

Context {host : Collation}.

Implicit Types (st : gmap string PlayerStats) (p : string) (m : Match).

Lemma gain_gain a b c d a' b' c' d' s :
  gain a b c d (gain a' b' c' d' s) = gain (a' + a) (b' + b) (c' + c) (d' + d) s.
Proof. unfold gain; simpl. f_equal; lia. Qed.

Lemma gain_zero s : gain 0 0 0 0 s = s.
Proof. destruct s. unfold gain; simpl. f_equal; lia. Qed.

Lemma addResult_gain score won s :
  addResult score won s =
  gain score 1 (if won then 1 else 0) (if won then 0 else 1) s.
Proof. unfold addResult, gain. destruct won; f_equal; lia. Qed.

Lemma foldl_insert_lookup ps st p :
  foldl (λ stats player, <[player := zeroStats player]> stats) st ps !! p =
  if decide (p ∈ ps) then Some (zeroStats p) else st !! p.
Proof.
  revert st. induction ps as [|q ps IH]; intros st; simpl.
  - done.
  - rewrite IH. destruct (decide (p ∈ ps)) as [Hin | Hnin].
    + by rewrite decide_True by (by right).
    + destruct (decide (q = p)) as [-> | Hne].
      * rewrite decide_True by left. by rewrite lookup_insert_eq.
      * rewrite decide_False by (intros [-> | ?]%elem_of_cons; done).
        by rewrite lookup_insert_ne.
Qed.

Lemma initStats_lookup ps p :
  initStats ps !! p = if decide (p ∈ ps) then Some (zeroStats p) else None.
Proof. unfold initStats. by rewrite foldl_insert_lookup, lookup_empty. Qed.

Lemma updatePlayer_lookup score won st slot p :
  updatePlayer score won st slot !! p =
  gain (holds p slot * score) (holds p slot)
       (holds p slot * (if won then 1 else 0))
       (holds p slot * (if won then 0 else 1)) <$> st !! p.
Proof.
  unfold updatePlayer, holds. rewrite lookup_alter.
  destruct (decide (propertyKey slot = p)) as [-> | Hne].
  - destruct (st !! p) as [s|]; simpl; [| done].
    rewrite addResult_gain. do 2 f_equal; lia.
  - destruct (st !! p) as [s|]; simpl; [| done].
    by rewrite gain_zero.
Qed.

Lemma higherScoring_complete m :
  isMatchComplete m = true →
  higherScoring m =
  Some (if js_gt (team1Score m) (team2Score m) then Team1 else Team2).
Proof.
  intros (x & y & H1 & H2 & ?)%isMatchComplete_scores.
  unfold higherScoring, js_gt. rewrite H1, H2. simpl.
  destruct (y <? x) eqn:Hyx; [done |].
  apply Z.ltb_ge in Hyx. rewrite (proj2 (Z.ltb_lt x y)) by lia. done.
Qed.

(** The effect of one match on the entry of [p]. *)
Lemma processMatch_lookup st m p :
  processMatch st m !! p =
  gain (matchPoints p m) (matchGames p m) (matchWins p m) (matchLosses p m)
  <$> st !! p.
Proof.
  unfold processMatch, matchPoints, matchGames, matchWins, matchLosses.
  destruct (isMatchComplete m) eqn:Hc; simpl.
  - rewrite !updatePlayer_lookup, higherScoring_complete by done.
    destruct (st !! p) as [s|]; simpl; [| done].
    rewrite !gain_gain. unfold onTeam1, onTeam2.
    destruct (js_gt (team1Score m) (team2Score m)); simpl;
      unfold onTeam1, onTeam2; do 2 f_equal; lia.
  - destruct (st !! p) as [s|]; simpl; [| done]. by rewrite gain_zero.
Qed.

Lemma foldl_processMatch_lookup ms st p :
  foldl processMatch st ms !! p =
  gain (sumOver (matchPoints p) ms) (sumOver (matchGames p) ms)
       (sumOver (matchWins p) ms) (sumOver (matchLosses p) ms)
  <$> st !! p.
Proof.
  revert st. induction ms as [|m ms IH]; intros st; simpl.
  - destruct (st !! p); simpl; [| done]. by rewrite gain_zero.
  - rewrite IH, processMatch_lookup.
    destruct (st !! p); simpl; [| done]. by rewrite gain_gain.
Qed.

Lemma foldl_processRound st rs :
  foldl processRound st rs = foldl processMatch st (flat_map matches rs).
Proof.
  revert st. induction rs as [|r rs IH]; intros st; simpl; [done |].
  by rewrite foldl_app, IH.
Qed.

(** The entry under the key of a declared player. *)
Lemma calculateStats_lookup t p :
  calculateStats t !! p =
  if decide (p ∈ players t) then
    Some (deriveOwn p
            (gain (sumOver (matchPoints p) (allMatches t))
                  (sumOver (matchGames p) (allMatches t))
                  (sumOver (matchWins p) (allMatches t))
                  (sumOver (matchLosses p) (allMatches t))
                  (zeroStats p)))
  else None.
Proof.
  unfold calculateStats.
  rewrite map_lookup_imap, foldl_processRound, foldl_processMatch_lookup.
  rewrite initStats_lookup. by destruct (decide (p ∈ players t)).
Qed.

Lemma deriveOwn_fields key s :
  name (deriveOwn key s) = name s ∧
  totalPoints (deriveOwn key s) = totalPoints s ∧
  gamesPlayed (deriveOwn key s) = gamesPlayed s ∧
  wins (deriveOwn key s) = wins s ∧
  losses (deriveOwn key s) = losses s ∧
  rank (deriveOwn key s) = rank s.
Proof. unfold deriveOwn, deriveStats. by repeat case_match. Qed.

Lemma sumOver_zero f ms :
  (∀ m, m ∈ ms → f m = 0) → sumOver f ms = 0.
Proof.
  induction ms as [|m ms IH]; intros Hz; simpl; [done |].
  rewrite Hz by left. rewrite IH; [done |]. intros ??. apply Hz. by right.
Qed.

Lemma holds_other p slot : propertyKey slot ≠ p → holds p slot = 0.
Proof. intros ?. unfold holds. by rewrite decide_False. Qed.

Lemma inject_Z_nonzero (z : Z) : z ≠ 0 → ¬ (inject_Z z == 0)%Q.
Proof. unfold Qeq; simpl. lia. Qed.

Lemma dom_calculateStats t :
  dom (calculateStats t) = list_to_set (players t).
Proof.
  apply set_eq. intros p.
  rewrite elem_of_dom, calculateStats_lookup, elem_of_list_to_set.
  destruct (decide (p ∈ players t)); [by split; eauto |].
  split; [by intros [? ?] | done].
Qed.

Lemma calculateStats_name t p s : calculateStats t !! p = Some s → name s = p.
Proof.
  rewrite calculateStats_lookup.
  destruct (decide (p ∈ players t)); [| done].
  intros [= <-]. by rewrite (proj1 (deriveOwn_fields _ _)).
Qed.

Lemma calculateStats_rank t p s : calculateStats t !! p = Some s → rank s = None.
Proof.
  rewrite calculateStats_lookup.
  destruct (decide (p ∈ players t)); [| done].
  intros [= <-]. destruct (deriveOwn_fields p (gain
    (sumOver (matchPoints p) (allMatches t))
    (sumOver (matchGames p) (allMatches t))
    (sumOver (matchWins p) (allMatches t))
    (sumOver (matchLosses p) (allMatches t)) (zeroStats p)))
    as (_ & _ & _ & _ & _ & ->).
  done.
Qed.

(** Every declared player but one named [__proto__] has an entry that
    accounts for the matches played. *)
Lemma calculateStats_accounts t p :
  p ∈ players t → p ≠ "__proto__"%string →
  ∃ s, calculateStats t !! p = Some s ∧ accountsFor t p s.
Proof.
  intros Hp Hproto. eexists. split.
  { rewrite calculateStats_lookup, decide_True by done. done. }
  unfold accountsFor, deriveOwn. rewrite decide_False by done.
  set (s := gain _ _ _ _ _).
  assert (totalPoints (deriveStats s) = totalPoints s ∧
          gamesPlayed (deriveStats s) = gamesPlayed s ∧
          wins (deriveStats s) = wins s ∧
          losses (deriveStats s) = losses s ∧
          name (deriveStats s) = name s) as (-> & -> & -> & -> & ->).
  { unfold deriveStats. by case_match. }
  repeat split; try (subst s; simpl; lia).
  - unfold deriveStats. rewrite (proj2 (Z.ltb_lt _ _)) by done. simpl. reflexivity.
  - unfold deriveStats. rewrite (proj2 (Z.ltb_lt _ _)) by done. simpl.
    field. apply inject_Z_nonzero. subst s. simpl in *. lia.
  - intros Hnone.
    assert (∀ m, m ∈ allMatches t → isMatchComplete m = true →
                 onTeam1 p m = 0 ∧ onTeam2 p m = 0) as Hzero.
    { intros m Hm Hc. unfold onTeam1, onTeam2.
      rewrite !holds_other; [done | ..]; apply (Hnone m Hm Hc);
        unfold participants; by repeat constructor. }
    subst s.
    rewrite !sumOver_zero, gain_zero; [done | ..]; intros m Hm;
      unfold matchLosses, matchWins, matchGames, matchPoints;
      destruct (isMatchComplete m) eqn:Hc; try done;
      destruct (Hzero m Hm Hc) as [H1 H2];
      rewrite ?higherScoring_complete by done; simpl;
      try (destruct (js_gt _ _); simpl); lia.
Qed.

(** A participant whose name is not declared has no entry, and the update
    for such a participant leaves a map without that key as it is. *)
Lemma calculateStats_undeclared t p :
  p ∉ players t →
  calculateStats t !! p = None ∧
  ∀ score won (st : gmap string PlayerStats) slot,
    propertyKey slot = p → st !! p = None →
    updatePlayer score won st slot = st.
Proof.
  intros Hp. split.
  - rewrite calculateStats_lookup. by rewrite decide_False.
  - intros score won st slot <- Hnone. unfold updatePlayer.
    apply alter_id. intros s Hs. congruence.
Qed.

(** *** The own properties of the object *)

Lemma createdKeys_spec ps :
  NoDup (createdKeys ps) ∧
  ∀ p, p ∈ createdKeys ps ↔ p ∈ ps ∧ p ≠ "__proto__"%string.
Proof.
  unfold createdKeys.
  cut (∀ keys,
         NoDup keys → (∀ p, p ∈ keys → p ≠ "__proto__"%string) →
         let keys' :=
           foldl (λ keys player,
                    if decide (player = "__proto__"%string ∨ player ∈ keys)
                    then keys else keys ++ [player]) keys ps in
         NoDup keys' ∧
         ∀ p, p ∈ keys' ↔
              p ∈ keys ∨ (p ∈ ps ∧ p ≠ "__proto__"%string)).
  { intros H. destruct (H [] (NoDup_nil_2 (A := string))) as [Hnd Hin].
    { by intros p ?%elem_of_nil. }
    split; [done |]. intros p. rewrite Hin, elem_of_nil. tauto. }
  induction ps as [|q ps IH]; intros keys Hnd Hkeys; simpl.
  { split; [done |]. intros p. rewrite elem_of_nil. tauto. }
  case_decide as Hq.
  - destruct (IH keys Hnd Hkeys) as [Hnd' Hin]. split; [done |].
    intros p. rewrite Hin, elem_of_cons. split; [tauto |].
    intros [? | [[-> | ?] Hp]]; [tauto | | tauto].
    destruct Hq as [-> | ?]; [done | tauto].
  - destruct (IH (keys ++ [q])) as [Hnd' Hin].
    + apply NoDup_app. split; [done |]. split; [| apply NoDup_singleton].
      intros x Hx ->%list_elem_of_singleton. tauto.
    + intros p [? | ->%list_elem_of_singleton]%elem_of_app; [by apply Hkeys | tauto].
    + split; [done |]. intros p.
      rewrite Hin, elem_of_app, list_elem_of_singleton, elem_of_cons.
      split; [| tauto].
      intros [[? | ->] | ?]; [tauto | | tauto].
      right. split; [by left | tauto].
Qed.

Lemma ownPropertyKeys_Permutation keys : ownPropertyKeys keys ≡ₚ keys.
Proof.
  unfold ownPropertyKeys. rewrite merge_sort_Permutation.
  apply filter_app_complement.
Qed.

Lemma statsKeys_spec t :
  NoDup (statsKeys t) ∧
  ∀ p, p ∈ statsKeys t ↔ p ∈ players t ∧ p ≠ "__proto__"%string.
Proof.
  unfold statsKeys. destruct (createdKeys_spec (players t)) as [Hnd Hin].
  split.
  - by rewrite ownPropertyKeys_Permutation.
  - intros p. by rewrite ownPropertyKeys_Permutation.
Qed.

(** With distinct players, the own properties are as many as the players
    that are not named [__proto__]. *)
Lemma statsKeys_length t :
  NoDup (players t) →
  length (statsKeys t) =
  length (filter (λ p, p ≠ "__proto__"%string) (players t)).
Proof.
  intros Hnd. apply Permutation_length, NoDup_Permutation.
  - apply statsKeys_spec.
  - by apply NoDup_filter.
  - intros p. rewrite (proj2 (statsKeys_spec t)), list_elem_of_filter. tauto.
Qed.

Lemma statsKeys_Permutation t :
  NoDup (players t) → "__proto__"%string ∉ players t →
  statsKeys t ≡ₚ players t.
Proof.
  intros Hnd Hproto. apply NoDup_Permutation; [apply statsKeys_spec | done |].
  intros p. rewrite (proj2 (statsKeys_spec t)). split; [tauto |].
  intros Hp. split; [done |]. by intros ->.
Qed.

End statistics.

(** C5, at a tournament with a declared player named [__proto__], whom
    [validatePlayers] accepts: after one lost game with 10 points, the entry
    that [stats['__proto__']] reads has the points, the game and the loss,
    but 0 as points per game, because it is no own property of [stats] and
    the loop over [Object.values] passes it over.  It does not account for
    the match as the entry of a declared player should; the entry of the
    partner, Eve, has 10 points per game. *)
Theorem calculateStats_misses_proto :
  isValid (validatePlayers asciiTrim asciiLowerCase protoPlayers) = true ∧
  ("__proto__"%string ∈ players protoNight) ∧
  calculateStats protoNight !! "__proto__"%string =
    Some (mkStats "__proto__" 10 1 0 1 0 0 None) ∧
  ¬ accountsFor protoNight "__proto__"
      (mkStats "__proto__" 10 1 0 1 0 0 None) ∧
  calculateStats protoNight !! "Eve"%string =
    Some (mkStats "Eve" 10 1 0 1 10 0 None).
Proof.
  split; [vm_compute; reflexivity |].
  split; [apply (bool_decide_unpack _); vm_compute; exact I |].
  split; [vm_compute; reflexivity |].
  split; [| vm_compute; reflexivity].
  intros (_ & _ & _ & _ & _ & Hq & _).
  destruct Hq as [Hq _]; [simpl; lia |].
  vm_compute in Hq. discriminate Hq.
Qed.

(** C10, at the tournament [protoNight] of eight declared players, one of
    them named [__proto__], whom [validatePlayers] accepts: the own
    properties of the object that [calculateStats] returns are seven, and
    [__proto__], a declared player, is not among their keys;
    [Object.values] lists seven entries. *)
Theorem calculateStats_keys_miss_proto :
  isValid (validatePlayers asciiTrim asciiLowerCase protoPlayers) = true ∧
  ("__proto__"%string ∈ players protoNight) ∧
  statsKeys protoNight =
    ["Ann"; "Bob"; "Cat"; "Dan"; "Eve"; "Fay"; "Gus"]%string ∧
  name <$> Object_values (statsKeys protoNight) (calculateStats protoNight) =
    ["Ann"; "Bob"; "Cat"; "Dan"; "Eve"; "Fay"; "Gus"]%string.
Proof.
  split; [vm_compute; reflexivity |].
  split; [apply (bool_decide_unpack _); vm_compute; exact I |].
  split; vm_compute; reflexivity.
Qed.

(** ** Ranking *)

Section ranking.

Context {host : Collation}.

Implicit Types (a b c : PlayerStats) (l : list PlayerStats).

Lemma sign_not_positive (x y : Z) : x ≠ y → (x - y ?= 0) ≠ Gt ↔ x < y.
Proof. intros ?. rewrite Z.compare_gt_iff. lia. Qed.

Lemma Qsign_not_positive (x y : Q) :
  ¬ (x == y)%Q → (x - y ?= 0)%Q ≠ Gt ↔ (x < y)%Q.
Proof. intros ?. rewrite <- Qle_alt. split; intros ?; lra. Qed.

Lemma localeCompare_total x y :
  localeCompare x y ≠ Gt ∨ localeCompare y x ≠ Gt.
Proof.
  rewrite (localeCompare_antisym x y).
  destruct (localeCompare x y); simpl; auto.
Qed.

(** The comparison function orders by points, wins, points per game and
    name. *)
Lemma sortsBefore_precedes a b : sortsBefore a b ↔ precedes a b.
Proof.
  unfold sortsBefore, compareFn, precedes.
  destruct (Z.eqb_spec (totalPoints b) (totalPoints a)) as [Htp | Htp]; simpl.
  2: { rewrite sign_not_positive by done. split; [auto | lia]. }
  destruct (Z.eqb_spec (wins b) (wins a)) as [Hw | Hw]; simpl.
  2: { rewrite sign_not_positive by done. split; [auto | lia]. }
  destruct (Qeq_bool (pointsPerGame b) (pointsPerGame a)) eqn:Hq; simpl.
  - apply Qeq_bool_iff in Hq. split.
    + intros ?. right. split; [done |]. right. split; [done |]. right.
      split; [by symmetry | done].
    + intros [? | [_ [? | [_ [? | [_ ?]]]]]]; [lia | lia | lra | done].
  - apply Qeq_bool_neq in Hq. rewrite Qsign_not_positive by done. split.
    + intros ?. right. split; [done |]. right. split; [done |]. by left.
    + intros [? | [_ [? | [_ [? | [Heq _]]]]]]; [lia | lia | done |].
      destruct Hq. by symmetry.
Qed.

Global Instance precedes_trans : Transitive precedes.
Proof.
  intros a b c Hab Hbc. unfold precedes in *.
  destruct Hab as [? | [? [? | [? [? | [? ?]]]]]];
    destruct Hbc as [? | [? [? | [? [? | [? ?]]]]]];
    try (left; lia);
    try (right; split; [lia |]; left; lia);
    try (right; split; [lia |]; right; split; [lia |]; left; lra).
  right. split; [lia |]. right. split; [lia |]. right.
  split; [lra | by eapply localeCompare_trans].
Qed.

Global Instance precedes_total : Total precedes.
Proof.
  intros a b. unfold precedes.
  destruct (Z.lt_total (totalPoints a) (totalPoints b)) as [? | [? | ?]];
    [auto | | auto].
  destruct (Z.lt_total (wins a) (wins b)) as [? | [? | ?]];
    [right; right; split; [done |]; by left | | left; right; split; [done |]; by left].
  destruct (Qlt_le_dec (pointsPerGame a) (pointsPerGame b)) as [? | Hle].
  { right. right. split; [done |]. right. split; [done |]. by left. }
  destruct (Qlt_le_dec (pointsPerGame b) (pointsPerGame a)) as [? | Hle'].
  { left. right. split; [done |]. right. split; [done |]. by left. }
  assert (pointsPerGame a == pointsPerGame b)%Q by lra.
  destruct (localeCompare_total (name a) (name b)).
  - left. right. split; [done |]. right. split; [done |]. right. done.
  - right. right. split; [done |]. right. split; [done |]. right.
    split; [by symmetry | done].
Qed.

Global Instance sortsBefore_trans : Transitive sortsBefore.
Proof.
  intros a b c. rewrite !sortsBefore_precedes. apply precedes_trans.
Qed.

Global Instance sortsBefore_total : Total sortsBefore.
Proof.
  intros a b. rewrite !sortsBefore_precedes. apply precedes_total.
Qed.

Lemma insertSorted_Permutation x l : insertSorted x l ≡ₚ x :: l.
Proof.
  induction l as [|y l IH]; simpl; [done |].
  case_decide; [done |]. by rewrite IH, Permutation_swap.
Qed.

Lemma sort_permutation l : sort l ≡ₚ l.
Proof.
  induction l as [|x l IH]; simpl; [done |].
  by rewrite insertSorted_Permutation, IH.
Qed.

Lemma insertSorted_sorted x l :
  StronglySorted precedes l → StronglySorted precedes (insertSorted x l).
Proof.
  induction 1 as [|y l Hl IH Hall]; simpl.
  { by repeat constructor. }
  case_decide as Hxy.
  - apply sortsBefore_precedes in Hxy.
    constructor; [by constructor |].
    constructor; [done |].
    eapply Forall_impl; [done |]. intros z ?. by etrans.
  - constructor; [done |].
    rewrite insertSorted_Permutation. constructor; [| done].
    destruct (total precedes x y); [| done].
    by rewrite <- sortsBefore_precedes in *.
Qed.

Lemma sort_sorted l : StronglySorted precedes (sort l).
Proof.
  induction l as [|x l IH]; simpl; [constructor |].
  by apply insertSorted_sorted.
Qed.

(** Assigning the ranks changes nothing but the ranks. *)
Lemma assignRanks_erase prev i l :
  set_rank None <$> assignRanks prev i l = set_rank None <$> l.
Proof.
  revert prev i. induction l as [|x l IH]; intros prev i; [done |].
  cbn [assignRanks fmap list_fmap]. rewrite IH. f_equal.
  destruct prev as [q |]; [case_match |]; done.
Qed.

Lemma precedes_erase a b :
  precedes (set_rank None a) (set_rank None b) ↔ precedes a b.
Proof. done. Qed.

Lemma StronglySorted_erase l l' :
  set_rank None <$> l = set_rank None <$> l' →
  StronglySorted precedes l → StronglySorted precedes l'.
Proof.
  intros Heq Hs.
  assert (StronglySorted precedes (set_rank None <$> l')) as Hs'.
  { rewrite <- Heq. by apply (StronglySorted_fmap _ precedes precedes). }
  clear Heq Hs. induction l' as [|x l' IH]; [constructor |].
  cbn [fmap list_fmap] in Hs'. apply StronglySorted_inv in Hs' as [Hs' Hall].
  constructor; [by apply IH |].
  rewrite Forall_fmap in Hall. eapply Forall_impl; [done |].
  intros y. simpl. by rewrite <- (precedes_erase x y).
Qed.

Lemma assignRanks_first i l p :
  assignRanks None i l !! 0%nat = Some p → rank p = Some 1.
Proof. destruct l; simpl; [done |]. by intros [= <-]. Qed.

Lemma assignRanks_next prev i l j q p :
  assignRanks prev i l !! j = Some q →
  assignRanks prev i l !! S j = Some p →
  rank p = if decide (tiedWith q p) then rank q
           else Some (i + Z.of_nat (S j) + 1).
Proof.
  revert prev i j. induction l as [|x l IH]; intros prev i j; [done |].
  cbn [assignRanks]. destruct j as [|j].
  - intros [= <-]. destruct l as [|y l]; [done |].
    cbn [assignRanks lookup list_lookup]. intros [= <-].
    set (x' := match prev with Some _ => _ | None => _ end).
    unfold tiedWith. simpl.
    destruct (Z.eqb_spec (totalPoints y) (totalPoints x')),
             (Z.eqb_spec (wins y) (wins x')); simpl;
      [by rewrite decide_True | rewrite decide_False by tauto ..];
      f_equal; lia.
  - cbn [lookup list_lookup]. intros Hq Hp.
    rewrite (IH _ _ _ Hq Hp). case_decide; [done |]. f_equal. lia.
Qed.

Lemma Object_values_elem keys (stats : gmap string PlayerStats) x :
  x ∈ Object_values keys stats ↔ ∃ key, key ∈ keys ∧ stats !! key = Some x.
Proof. unfold Object_values. apply list_elem_of_omap. Qed.

(** The entries that [Object.values] lists are those of the declared
    players, but for one named [__proto__]. *)
Lemma Object_values_entry t x :
  x ∈ Object_values (statsKeys t) (calculateStats t) ↔
  calculateStats t !! name x = Some x ∧ name x ≠ "__proto__"%string.
Proof.
  rewrite Object_values_elem. split.
  - intros (key & Hkey & Hx).
    rewrite (calculateStats_name _ _ _ Hx).
    apply statsKeys_spec in Hkey. tauto.
  - intros [Hx Hproto]. exists (name x). split; [| done].
    apply statsKeys_spec. split; [| done].
    rewrite calculateStats_lookup in Hx. by case_decide.
Qed.

Lemma Object_values_keys keys (stats : gmap string PlayerStats) :
  (∀ key, key ∈ keys → ∃ s, stats !! key = Some s ∧ name s = key) →
  name <$> Object_values keys stats = keys.
Proof.
  unfold Object_values.
  induction keys as [|key keys IH]; intros Hkeys; [done |].
  destruct (Hkeys key) as (s & Hs & Hname); [by left |].
  cbn [omap list_omap]. rewrite Hs. cbn [fmap list_fmap].
  rewrite Hname. f_equal. apply IH. intros ??. apply Hkeys. by right.
Qed.

(** The names of the entries, in the order of [Object.values]. *)
Lemma Object_values_names t :
  name <$> Object_values (statsKeys t) (calculateStats t) = statsKeys t.
Proof.
  apply Object_values_keys. intros key Hkey.
  apply statsKeys_spec in Hkey as [Hkey _].
  destruct (calculateStats t !! key) as [s |] eqn:Hs.
  - exists s. split; [done |]. by eapply calculateStats_name.
  - rewrite calculateStats_lookup, decide_True in Hs by done. done.
Qed.

Lemma Object_values_rank_none t :
  set_rank None <$> Object_values (statsKeys t) (calculateStats t) =
  Object_values (statsKeys t) (calculateStats t).
Proof.
  rewrite <- (list_fmap_id (Object_values _ _)) at 2.
  apply list_fmap_ext. intros j s Hs. simpl.
  apply list_elem_of_lookup_2, Object_values_entry in Hs as [Hs _].
  apply calculateStats_rank in Hs. destruct s. simpl in *. by subst.
Qed.

End ranking.



(** ** Generating the next round *)

Section next_round.

Context {host : Collation}.

Implicit Types (t : Tournament) (r : Round).

Lemma getCurrentRound_last t : getCurrentRound t = last (rounds t).
Proof.
  unfold getCurrentRound. rewrite last_lookup.
  case_bool_decide as Hlen; [| by replace (pred (length (rounds t))) with (length (rounds t) - 1)%nat by lia].
  apply length_zero_iff_nil in Hlen. by rewrite Hlen.
Qed.

Lemma getCurrentRoundNumber_length t :
  getCurrentRoundNumber t = Z.of_nat (length (rounds t)).
Proof. unfold getCurrentRoundNumber. case_bool_decide; lia. Qed.

Lemma isRoundComplete_false r :
  isRoundComplete r = false ↔ ∃ m, m ∈ matches r ∧ isMatchComplete m = false.
Proof.
  unfold isRoundComplete. induction (matches r) as [|m ms IH]; simpl.
  - split; [done | by intros (? & ?%elem_of_nil & ?)].
  - rewrite andb_false_iff, IH. split.
    + intros [? | (m' & ? & ?)]; [exists m | exists m']; split; by constructor || done.
    + intros (m' & [-> | ?]%elem_of_cons & ?); eauto.
Qed.

Lemma canStartNextRound_false t :
  canStartNextRound t = false ↔
  ∃ r, last (rounds t) = Some r ∧ ∃ m, m ∈ matches r ∧ isMatchComplete m = false.
Proof.
  unfold canStartNextRound. rewrite getCurrentRound_last.
  destruct (last (rounds t)) as [r |].
  - rewrite isRoundComplete_false. split; [eauto | by intros (? & [= <-] & ?)].
  - split; [done | by intros (? & ? & ?)].
Qed.

Lemma canStartNextRound_true t :
  canStartNextRound t = true ↔
  rounds t = [] ∨ ∃ r, last (rounds t) = Some r ∧ isRoundComplete r = true.
Proof.
  unfold canStartNextRound. rewrite getCurrentRound_last.
  destruct (rounds t) as [|r0 rs] eqn:Hrs; [by split; auto |].
  destruct (last (r0 :: rs)) as [r |] eqn:Hlast.
  - split; [eauto | by intros [? | (? & [= <-] & ?)]].
  - by apply last_None in Hlast.
Qed.

Lemma generateNextRound_first t :
  rounds t = [] →
  generateNextRound t =
  Ret (Some (mkRound 1 (renumber 0 (createInitialPairings (players t))))).
Proof.
  intros Hrs. unfold generateNextRound, canStartNextRound.
  rewrite getCurrentRound_last, getCurrentRoundNumber_length, Hrs. done.
Qed.

Lemma generateNextRound_later t :
  rounds t ≠ [] → canStartNextRound t = true →
  generateNextRound t =
  ms ← createMexicanoPairings (rankPlayers t);
  Ret (Some (mkRound (Z.of_nat (length (rounds t)) + 1)
                     (renumber (maxMatchId (rounds t)) ms))).
Proof.
  intros Hrs Hcan. unfold generateNextRound.
  rewrite Hcan, getCurrentRoundNumber_length. simpl.
  destruct (rounds t) eqn:?; [done |].
  rewrite (proj2 (Z.eqb_neq _ _)) by (simpl; lia). done.
Qed.

(** [null] is returned in no other case than the refusal. *)
Lemma generateNextRound_null t :
  generateNextRound t = Ret None ↔ canStartNextRound t = false.
Proof.
  split.
  - unfold generateNextRound. destruct (canStartNextRound t); [| done]. simpl.
    destruct (if _ =? 1 then _ else _); simpl; done.
  - intros Hcan. unfold generateNextRound. by rewrite Hcan.
Qed.

Lemma assignRanks_length prev i l : length (assignRanks prev i l) = length l.
Proof.
  rewrite <- (length_fmap (set_rank None)), assignRanks_erase.
  apply length_fmap.
Qed.

(** The ranking has an entry for each own property of the object. *)
Lemma rankPlayers_length_keys t :
  length (rankPlayers t) = length (statsKeys t).
Proof.
  unfold rankPlayers. cbn zeta.
  rewrite assignRanks_length, (Permutation_length (sort_permutation _)).
  by rewrite <- (length_fmap name), Object_values_names.
Qed.

Lemma rankPlayers_length t :
  NoDup (players t) → "__proto__"%string ∉ players t →
  length (rankPlayers t) = length (players t).
Proof.
  intros Hnd Hproto. rewrite rankPlayers_length_keys.
  by apply Permutation_length, statsKeys_Permutation.
Qed.

(** With a player named [__proto__] among distinct players in a number
    divisible by four, the ranking cannot be cut in groups of four. *)
Lemma rankPlayers_length_proto t :
  NoDup (players t) → Nat.divide 4 (length (players t)) →
  "__proto__"%string ∈ players t →
  ¬ Nat.divide 4 (length (rankPlayers t)).
Proof.
  intros Hnd [k Hk] Hproto.
  rewrite rankPlayers_length_keys, statsKeys_length by done.
  assert (players t ≡ₚ
          filter (λ p, p = "__proto__"%string) (players t) ++
          filter (λ p, p ≠ "__proto__"%string) (players t)) as Hsplit
    by (by rewrite filter_app_complement).
  assert (length (filter (λ p, p = "__proto__"%string) (players t)) = 1%nat)
    as Hone.
  { change 1%nat with (length ["__proto__"%string]).
    apply Permutation_length, NoDup_Permutation;
      [by apply NoDup_filter | apply NoDup_singleton |].
    intros p. rewrite list_elem_of_filter, list_elem_of_singleton.
    split; [tauto |]. by intros ->. }
  apply Permutation_length in Hsplit. rewrite length_app, Hone in Hsplit.
  intros [k' Hk']. lia.
Qed.

Lemma createMexicanoPairings_quartets (ranked : list PlayerStats) :
  Nat.divide 4 (length ranked) →
  createMexicanoPairings ranked =
  Ret (createInitialPairings (name <$> ranked)).
Proof.
  intros [k Hk]. unfold createMexicanoPairings, createInitialPairings.
  rewrite length_fmap, Hk, (Nat.mul_comm k 4), iterations_quartets.
  apply mexicanoLoop_initialLoop. lia.
Qed.

End next_round.

(** With distinct declared players in a number divisible by four, none of
    them named [__proto__], [generateNextRound] refuses, returning [null],
    exactly when the last round has an incomplete match; with no round yet,
    or a complete last round, it returns a round numbered with the number of
    existing rounds plus one. *)
Lemma generateNextRound_refuses_or_returns {host : Collation} (t : Tournament) :
  NoDup (players t) → Nat.divide 4 (length (players t)) →
  "__proto__"%string ∉ players t →
  (generateNextRound t = Ret None ↔
   ∃ r, last (rounds t) = Some r ∧
        ∃ m, m ∈ matches r ∧ isMatchComplete m = false) ∧
  (rounds t = [] ∨ (∃ r, last (rounds t) = Some r ∧ isRoundComplete r = true) →
   ∃ next, generateNextRound t = Ret (Some next) ∧
           roundNumber next = Z.of_nat (length (rounds t)) + 1).
Proof.
  intros Hnd Hdiv Hproto. split.
  - by rewrite generateNextRound_null, canStartNextRound_false.
  - intros Hcan%canStartNextRound_true.
    destruct (decide (rounds t = [])) as [Hrs | Hrs].
    + rewrite generateNextRound_first by done. eexists. split; [done |].
      by rewrite Hrs.
    + rewrite generateNextRound_later by done.
      rewrite createMexicanoPairings_quartets by (by rewrite rankPlayers_length).
      eexists. split; done.
Qed.

(** ** The edit of a score and its cascade *)

Section edit.

Context {host : Collation}.

Implicit Types (t : Tournament) (r : Z).

Lemma take_S_insert {A} (l : list A) i x :
  (i < length l)%nat → take (S i) (<[i := x]> l) = take i l ++ [x].
Proof.
  intros Hi.
  rewrite (take_S_r _ _ x) by (by apply list_lookup_insert_eq).
  by rewrite take_insert_ge.
Qed.

Lemma last_insert_eq {A} (l : list A) x :
  l ≠ [] → <[pred (length l) := x]> l = take (pred (length l)) l ++ [x].
Proof.
  intros Hl. destruct (length l) as [|n] eqn:Hlen.
  { by apply length_zero_iff_nil in Hlen. }
  simpl. rewrite <- take_S_insert by lia.
  rewrite take_ge; [done |]. rewrite length_insert. lia.
Qed.

(** What a call that returns has done. *)
Lemma updateMatchScore_returns now t r mid s1 s2 t' :
  updateMatchScore now t r mid s1 s2 = (Ret (), t') →
  ∃ round k m,
    isValidScore s1 s2 = true ∧
    1 ≤ r ≤ Z.of_nat (length (rounds t)) ∧
    rounds t !! Z.to_nat (r - 1) = Some round ∧
    findMatch mid (matches round) = Some (k, m) ∧
    t' = set_updatedAt now (set_rounds (rounds t') t) ∧
    (r < Z.of_nat (length (rounds t)) →
     let kept :=
       keptRounds (Z.to_nat (r - 1)) (withScores s1 s2 k m round) (rounds t) in
     if isRoundComplete (withScores s1 s2 k m round) then
       ∃ ms,
         createMexicanoPairings (rankPlayers (set_rounds kept t)) = Ret ms ∧
         rounds t' = kept ++ [mkRound (r + 1) (renumber (maxMatchId kept) ms)]
     else rounds t' = kept) ∧
    (r = Z.of_nat (length (rounds t)) →
     rounds t' = <[Z.to_nat (r - 1) := withScores s1 s2 k m round]> (rounds t)).
Proof.
  unfold updateMatchScore.
  destruct (isValidScore s1 s2) eqn:Hvalid; simpl; [| done].
  destruct ((r - 1 <? 0) || (Z.of_nat (length (rounds t)) <=? r - 1)) eqn:Hrange;
    [done |].
  apply orb_false_iff in Hrange as [?%Z.ltb_ge ?%Z.leb_gt].
  destruct (rounds t !! Z.to_nat (r - 1)) as [round |] eqn:Hround; [| done].
  destruct (findMatch mid (matches round)) as [[k m] |] eqn:Hfind; [| done].
  fold (withScores s1 s2 k m round).
  set (edited := withScores s1 s2 k m round).
  rewrite getCurrentRoundNumber_length. cbn [rounds set_rounds].
  rewrite length_insert.
  destruct (r <? Z.of_nat (length (rounds t))) eqn:Hpast.
  - apply Z.ltb_lt in Hpast.
    replace (Z.to_nat r) with (S (Z.to_nat (r - 1))) by lia.
    rewrite take_S_insert by lia.
    fold (keptRounds (Z.to_nat (r - 1)) edited (rounds t)).
    set (kept := keptRounds (Z.to_nat (r - 1)) edited (rounds t)).
    assert (length kept = Z.to_nat r) as Hlen.
    { unfold kept, keptRounds. rewrite length_app, length_take. simpl. lia. }
    assert (kept !! Z.to_nat (r - 1) = Some edited) as ->.
    { unfold kept, keptRounds. rewrite lookup_app_r; rewrite length_take; [| lia].
      by replace (Z.to_nat (r - 1) - _)%nat with 0%nat by lia. }
    intros Hres. exists round, k, m. fold edited kept.
    do 4 (split; [done || lia |]).
    cut (t' = set_updatedAt now (set_rounds (rounds t') t) ∧
         if isRoundComplete edited then
           ∃ ms,
             createMexicanoPairings (rankPlayers (set_rounds kept t)) = Ret ms ∧
             rounds t' =
             kept ++ [mkRound (r + 1) (renumber (maxMatchId kept) ms)]
         else rounds t' = kept).
    { intros [? ?]. split; [done |]. split; [by intros _ | intros; lia]. }
    destruct (isRoundComplete edited) eqn:Hcomplete.
    + rewrite generateNextRound_later in Hres; cycle 1.
      { cbn [rounds set_rounds]. unfold kept, keptRounds. by destruct (take _ _). }
      { apply canStartNextRound_true. right. exists edited.
        cbn [rounds set_rounds]. unfold kept, keptRounds. by rewrite last_snoc. }
      cbn [rounds set_rounds] in Hres.
      change (set_rounds kept (set_rounds _ t)) with (set_rounds kept t) in Hres.
      destruct (createMexicanoPairings (rankPlayers (set_rounds kept t)))
        as [ms | e]; simpl in Hres; [| done].
      injection Hres as <-. split; [done |].
      exists ms. split; [done |]. cbn [rounds set_rounds set_updatedAt].
      rewrite Hlen. do 3 f_equal. lia.
    + by injection Hres as <-.
  - apply Z.ltb_ge in Hpast. intros [= <-]. exists round, k, m.
    split; [done |]. split; [lia |]. split; [done |]. split; [done |].
    split; [done |]. split; [intros; lia | done].
Qed.

Lemma ids_withScores s1 s2 k m round :
  matches round !! k = Some m →
  id <$> matches (withScores s1 s2 k m round) = id <$> matches round.
Proof.
  intros Hk. unfold withScores. cbn [matches set_matches].
  rewrite list_fmap_insert. apply list_insert_id.
  by rewrite list_lookup_fmap, Hk.
Qed.

Lemma maxMatchId_ids rs :
  maxMatchId rs = foldl Z.max 0 (id <$> flat_map matches rs).
Proof.
  unfold maxMatchId. generalize 0.
  induction (flat_map matches rs) as [|m ms IH]; intros z; simpl; [done |].
  apply IH.
Qed.

Lemma foldl_max_bound (zs : list Z) (z0 z : Z) :
  z ∈ zs → z ≤ foldl Z.max z0 zs.
Proof.
  assert (∀ zs z0, z0 ≤ foldl Z.max z0 zs) as Hmono.
  { clear. induction zs as [|y zs IH]; intros z0; simpl; [lia |].
    etrans; [| apply IH]. lia. }
  revert z0. induction zs as [|y zs IH]; intros z0; [by intros ?%elem_of_nil |].
  intros [-> | Hin]%elem_of_cons; simpl.
  - etrans; [| apply Hmono]. lia.
  - by apply IH.
Qed.

Lemma maxMatchId_bound rs m :
  m ∈ flat_map matches rs → id m ≤ maxMatchId rs.
Proof.
  intros Hm. rewrite maxMatchId_ids. apply foldl_max_bound.
  by apply list_elem_of_fmap_2.
Qed.

Lemma flat_map_snoc {A B} (f : A → list B) l x :
  flat_map f (l ++ [x]) = flat_map f l ++ f x.
Proof. rewrite flat_map_app. simpl. by rewrite app_nil_r. Qed.

(** Overwriting scores does not change the highest match number. *)
Lemma maxMatchId_keptRounds rs i round s1 s2 k m :
  rs !! i = Some round → matches round !! k = Some m →
  maxMatchId (keptRounds i (withScores s1 s2 k m round) rs) =
  maxMatchId (take (S i) rs).
Proof.
  intros Hi Hk. rewrite !maxMatchId_ids, (take_S_r _ _ _ Hi).
  unfold keptRounds. rewrite !flat_map_snoc, !fmap_app.
  by rewrite ids_withScores.
Qed.

Lemma renumber_ids maxId ms :
  id <$> renumber maxId ms = seqZ (maxId + 1) (Z.of_nat (length ms)).
Proof.
  apply list_eq. intros j. unfold renumber.
  rewrite list_lookup_fmap, list_lookup_imap.
  destruct (ms !! j) as [m |] eqn:Hj; simpl.
  - symmetry. apply lookup_seqZ. apply lookup_lt_Some in Hj. lia.
  - symmetry. apply lookup_seqZ_ge. apply lookup_ge_None in Hj. lia.
Qed.

Lemma findMatch_position mid ms k m :
  findMatch mid ms = Some (k, m) → ms !! k = Some m ∧ id m = mid.
Proof. intros (? & ? & _)%list_find_Some. done. Qed.

End edit.

(** C2: after a call that returns on a round before the last one, the
    rounds are those up to the edited round, followed, when the edited round
    is complete, by exactly one new round, numbered one more than the edited
    round and paired from the ranking of the kept rounds, and by nothing when
    the edited round is incomplete.  After a call that returns on the last
    round, the rounds are the same but for the two scores of the match.  No
    field but the rounds and the time of the update changes. *)
Theorem updateMatchScore_cascade {host : Collation}
    (now : Z) (t t' : Tournament) (r mid : Z) (s1 s2 : jsval) :
  updateMatchScore now t r mid s1 s2 = (Ret (), t') →
  cascadesTo now t t' r mid s1 s2.
Proof.
  intros (round & k & m & _ & _ & Hround & Hfind & Ht' & Hpast & Hlast)
    %updateMatchScore_returns.
  apply findMatch_position in Hfind as [Hk Hid].
  exists round, k, m. repeat (split; [done |]). split; [| done].
  intros Hr. specialize (Hpast Hr). simpl in *.
  destruct (isRoundComplete _); [| done].
  destruct Hpast as (ms & Hms & Hrounds). eexists _, ms. done.
Qed.


Section regenerated_ids_witness_example.

#[local] Existing Instance clubCollation.


End regenerated_ids_witness_example.

Section regenerated_ids_reuse_discarded_example.

#[local] Existing Instance clubCollation.


End regenerated_ids_reuse_discarded_example.

Section updateMatchScore_cascade_witness_example.

#[local] Existing Instance clubCollation.

(** The cascade at the edit of round 1 of [clubNight]. *)
Lemma updateMatchScore_cascade_witness :
  updateMatchScore 9 clubNight 1 1 (Num 5) (Num 20) =
    (Ret (), clubNightEdited 9) ∧
  cascadesTo 9 clubNight (clubNightEdited 9) 1 1 (Num 5) (Num 20).
Proof.
  assert (updateMatchScore 9 clubNight 1 1 (Num 5) (Num 20) =
          (Ret (), clubNightEdited 9)) as Hcall by (vm_compute; reflexivity).
  split; [exact Hcall |].
  exact (updateMatchScore_cascade
           9 clubNight (clubNightEdited 9) 1 1 (Num 5) (Num 20) Hcall).
Defined.

End updateMatchScore_cascade_witness_example.

Section clubNight_built_example.

#[local] Existing Instance clubCollation.

(** The engine builds [clubNight]: a first round from the order of entry,
    then, after the scores of a round are entered, the next round from the
    ranking. *)
Lemma clubNight_built :
  let enter r i a b t := snd (updateMatchScore 2 t r i (Num a) (Num b)) in
  let start t := snd (addNextRound 1 t) in
  let created := mkTournament "Club night" "" 20000 clubPlayers [] 0 0 in
  enter 3 6 9 16 (enter 3 5 13 12 (start
    (enter 2 4 11 14 (enter 2 3 20 5 (start
      (enter 1 2 10 15 (enter 1 1 15 10 (start created)))))))) = clubNight.
Proof. vm_compute. reflexivity. Qed.

End clubNight_built_example.

Section pairings_partition_witness_example.

#[local] Existing Instance clubCollation.

(** The pairings of the eight players of [clubNight], by entry and by rank. *)
Lemma pairings_partition_witness :
  NoDup clubPlayers ∧ length clubPlayers ∈ [8; 12; 16]%nat ∧
  NoDup (name <$> rankPlayers clubNight) ∧
  length (rankPlayers clubNight) ∈ [8; 12; 16]%nat ∧
  pairsQuartets clubPlayers (createInitialPairings clubPlayers) ∧
  ∃ ms, createMexicanoPairings (rankPlayers clubNight) = Ret ms ∧
        pairsQuartets (name <$> rankPlayers clubNight) ms.
Proof.
  assert (NoDup clubPlayers) as H1
    by (apply (bool_decide_unpack _); vm_compute; exact I).
  assert (length clubPlayers ∈ [8; 12; 16]%nat) as H2
    by (apply (bool_decide_unpack _); vm_compute; exact I).
  assert (NoDup (name <$> rankPlayers clubNight)) as H3
    by (apply (bool_decide_unpack _); vm_compute; exact I).
  assert (length (rankPlayers clubNight) ∈ [8; 12; 16]%nat) as H4
    by (apply (bool_decide_unpack _); vm_compute; exact I).
  split; [exact H1 |]. split; [exact H2 |].
  split; [exact H3 |]. split; [exact H4 |].
  exact (pairings_partition_in_quartets
           clubPlayers (rankPlayers clubNight) H1 H2 H3 H4).
Defined.

End pairings_partition_witness_example.

Section updateMatchScore_rejects_witness_example.

#[local] Existing Instance clubCollation.


End updateMatchScore_rejects_witness_example.

Section rankPlayers_witness_example.

#[local] Existing Instance clubCollation.


End rankPlayers_witness_example.

(** ** The edit window *)

Section edit_after_window_succeeds_example.

#[local] Existing Instance clubCollation.

(** C9, as stated, fails: thirty days after the tournament day [canEdit] is
    [false], and [updateMatchScore] writes the new scores all the same. *)
Lemma edit_after_window_succeeds :
  let now := (20000 + 30) * msPerDay in
  canEdit 0 clubNight now = false ∧
  ∃ t', updateMatchScore now clubNight 3 5 (Num 5) (Num 20) = (Ret (), t') ∧
        rounds t' ≠ rounds clubNight ∧
        rounds t' !! 2%nat =
        Some (mkRound 3 [game 5 "Ann" "Eve" "Gus" "Cat" (Num 5) (Num 20);
                         game 6 "Bob" "Fay" "Hal" "Dan" (Num 9) (Num 16)]).
Proof.
  split; [reflexivity |].
  eexists. split; [vm_compute; reflexivity |].
  split; [| reflexivity]. vm_compute. discriminate.
Qed.

End edit_after_window_succeeds_example.

(** C9, as amended: [canEdit] is [false] exactly from the deadline on, which
    without an offset of the local time is the start of the second day after
    the tournament day; [updateMatchScore] does not look at the edit window:
    its outcome and the rounds it leaves are the same at any two times, and
    only the time of the update tells them apart.  The caller is to ask
    [canEdit] first. *)
Theorem updateMatchScore_ignores_edit_window {host : Collation}
    (tz now now' : Z) (t : Tournament) (r mid : Z) (s1 s2 : jsval) :
  (canEdit tz t now = false ↔ editDeadline tz t ≤ now) ∧
  editDeadline 0 t = (tournamentDate t + 2) * msPerDay ∧
  fst (updateMatchScore now t r mid s1 s2) =
    fst (updateMatchScore now' t r mid s1 s2) ∧
  set_updatedAt 0 (snd (updateMatchScore now t r mid s1 s2)) =
    set_updatedAt 0 (snd (updateMatchScore now' t r mid s1 s2)).
Proof.
  split; [unfold canEdit; apply Z.ltb_ge |].
  split.
  { unfold editDeadline, startOfLocalDay.
    rewrite Z.add_0_r, Z.sub_0_r, Z.div_mul by done. unfold msPerDay. lia. }
  unfold updateMatchScore.
  repeat (case_match; simpl; try done).
Qed.

(** * Further properties of the engine *)

(** ** The outcomes of an edit *)

Section outcomes.

Context {host : Collation}.

Implicit Types (t : Tournament) (r : Z) (rs : list Round).

Lemma keptRounds_last rs (edited : Round) :
  rs ≠ [] →
  keptRounds (pred (length rs)) edited rs = <[pred (length rs) := edited]> rs.
Proof. intros ?. unfold keptRounds. by rewrite last_insert_eq. Qed.

Lemma keptRounds_length rs i edited :
  (i < length rs)%nat → length (keptRounds i edited rs) = S i.
Proof.
  intros ?. unfold keptRounds. rewrite length_app, length_take. simpl. lia.
Qed.

(** The call, evaluated up to the generation of the next round. *)
Lemma updateMatchScore_eval now t r mid s1 s2 round k m :
  isValidScore s1 s2 = true →
  1 ≤ r ≤ Z.of_nat (length (rounds t)) →
  rounds t !! Z.to_nat (r - 1) = Some round →
  findMatch mid (matches round) = Some (k, m) →
  updateMatchScore now t r mid s1 s2 =
  editOutcome now t r
    (keptRounds (Z.to_nat (r - 1)) (withScores s1 s2 k m round) (rounds t))
    (withScores s1 s2 k m round).
Proof.
  intros Hvalid Hr Hround Hfind. unfold updateMatchScore, editOutcome.
  rewrite Hvalid. simpl.
  rewrite (proj2 (orb_false_iff _ _)); cycle 1.
  { split; [apply Z.ltb_ge | apply Z.leb_gt]; lia. }
  rewrite Hround, Hfind.
  fold (withScores s1 s2 k m round).
  set (edited := withScores s1 s2 k m round).
  rewrite getCurrentRoundNumber_length. cbn [rounds set_rounds].
  rewrite length_insert.
  destruct (r <? Z.of_nat (length (rounds t))) eqn:Hpast; simpl.
  - apply Z.ltb_lt in Hpast.
    replace (Z.to_nat r) with (S (Z.to_nat (r - 1))) by lia.
    rewrite take_S_insert by lia.
    fold (keptRounds (Z.to_nat (r - 1)) edited (rounds t)).
    set (kept := keptRounds (Z.to_nat (r - 1)) edited (rounds t)).
    assert (length kept = Z.to_nat r) as Hlen.
    { unfold kept. rewrite keptRounds_length; lia. }
    assert (kept !! Z.to_nat (r - 1) = Some edited) as ->.
    { unfold kept, keptRounds. rewrite lookup_app_r; rewrite length_take; [| lia].
      by replace (Z.to_nat (r - 1) - _)%nat with 0%nat by lia. }
    destruct (isRoundComplete edited) eqn:Hcomplete; [| done].
    rewrite generateNextRound_later; cycle 1.
    { cbn [rounds set_rounds]. unfold kept, keptRounds. by destruct (take _ _). }
    { apply canStartNextRound_true. right. exists edited.
      cbn [rounds set_rounds]. unfold kept, keptRounds. by rewrite last_snoc. }
    cbn [rounds set_rounds].
    change (set_rounds kept (set_rounds _ t)) with (set_rounds kept t).
    destruct (createMexicanoPairings (rankPlayers (set_rounds kept t)))
      as [ms | e]; simpl; [| done].
    rewrite Hlen. by replace (Z.of_nat (Z.to_nat r)) with r by lia.
  - apply Z.ltb_ge in Hpast.
    assert (rounds t ≠ []) as Hne by (by intros Hnil; rewrite Hnil in Hround).
    replace (Z.to_nat (r - 1)) with (pred (length (rounds t))) by lia.
    by rewrite keptRounds_last.
Qed.

(** A call is rejected with one of three messages and without a write, or it
    is one of the outcomes above. *)
Lemma updateMatchScore_cases now t r mid s1 s2 :
  (∃ msg, msg ∈ rejections ∧
          updateMatchScore now t r mid s1 s2 = (Throw (Error msg), t)) ∨
  (∃ round k m,
     isValidScore s1 s2 = true ∧
     1 ≤ r ≤ Z.of_nat (length (rounds t)) ∧
     rounds t !! Z.to_nat (r - 1) = Some round ∧
     findMatch mid (matches round) = Some (k, m) ∧
     updateMatchScore now t r mid s1 s2 =
     editOutcome now t r
       (keptRounds (Z.to_nat (r - 1)) (withScores s1 s2 k m round) (rounds t))
       (withScores s1 s2 k m round)).
Proof.
  destruct (isValidScore s1 s2) eqn:Hvalid; cycle 1.
  { left. eexists. split; [| unfold updateMatchScore; by rewrite Hvalid].
    unfold rejections. by repeat constructor. }
  destruct (decide (1 ≤ r ≤ Z.of_nat (length (rounds t)))) as [Hr | Hr]; cycle 1.
  { left. eexists. split; cycle 1.
    - unfold updateMatchScore. rewrite Hvalid. simpl.
      rewrite (proj2 (orb_true_iff _ _)); [done |].
      rewrite Z.ltb_lt, Z.leb_le. lia.
    - unfold rejections. by repeat constructor. }
  destruct (lookup_lt_is_Some_2 (rounds t) (Z.to_nat (r - 1))) as [round Hround];
    [lia |].
  destruct (findMatch mid (matches round)) as [[k m] |] eqn:Hfind.
  - right. exists round, k, m. repeat (split; [done || lia |]).
    by apply updateMatchScore_eval.
  - left. eexists. split; cycle 1.
    + unfold updateMatchScore. rewrite Hvalid. simpl.
      rewrite (proj2 (orb_false_iff _ _)); cycle 1.
      { split; [apply Z.ltb_ge | apply Z.leb_gt]; lia. }
      by rewrite Hround, Hfind.
    + unfold rejections. by repeat constructor.
Qed.

(** The rounds a call leaves: those it found, or the rounds up to the edited
    one, or these and one new round. *)
Lemma updateMatchScore_rounds now t r mid s1 s2 :
  rounds (snd (updateMatchScore now t r mid s1 s2)) = rounds t ∨
  ∃ round k m,
    (Z.to_nat (r - 1) < length (rounds t))%nat ∧
    rounds t !! Z.to_nat (r - 1) = Some round ∧
    matches round !! k = Some m ∧
    let edited := withScores s1 s2 k m round in
    let kept := keptRounds (Z.to_nat (r - 1)) edited (rounds t) in
    rounds (snd (updateMatchScore now t r mid s1 s2)) = kept ∨
    (isRoundComplete edited = true ∧
     ∃ ms,
       createMexicanoPairings (rankPlayers (set_rounds kept t)) = Ret ms ∧
       rounds (snd (updateMatchScore now t r mid s1 s2)) =
       kept ++ [mkRound (Z.of_nat (length kept) + 1)
                        (renumber (maxMatchId kept) ms)]).
Proof.
  destruct (updateMatchScore_cases now t r mid s1 s2)
    as [(msg & _ & ->) | (round & k & m & _ & Hr & Hround & Hfind & ->)];
    [by left |].
  right. exists round, k, m.
  apply findMatch_position in Hfind as [Hk _].
  split; [lia |]. split; [done |]. split; [done |]. simpl.
  unfold editOutcome.
  destruct (_ && _) eqn:Hcond; [| by left].
  apply andb_true_iff in Hcond as [Hpast%Z.ltb_lt Hcomplete].
  destruct (createMexicanoPairings _) as [ms | e] eqn:Hms; [| by left].
  right. split; [done |]. exists ms. split; [done |]. cbn [snd rounds set_updatedAt set_rounds].
  rewrite keptRounds_length by lia. do 3 f_equal. lia.
Qed.

(** The fields a call does not write. *)
Lemma updateMatchScore_frame now t r mid s1 s2 :
  let t' := snd (updateMatchScore now t r mid s1 s2) in
  tournament_name t' = tournament_name t ∧ description t' = description t ∧
  tournamentDate t' = tournamentDate t ∧ players t' = players t ∧
  createdAt t' = createdAt t.
Proof.
  destruct (updateMatchScore_cases now t r mid s1 s2)
    as [(msg & _ & ->) | (round & k & m & _ & _ & _ & _ & ->)]; [done |].
  unfold editOutcome. repeat case_match; done.
Qed.

Lemma generateNextRound_Some t next :
  generateNextRound t = Ret (Some next) →
  canStartNextRound t = true ∧
  ∃ ms,
    next = mkRound (Z.of_nat (length (rounds t)) + 1)
                   (renumber (maxMatchId (rounds t)) ms) ∧
    (rounds t = [] ∧ ms = createInitialPairings (players t) ∨
     rounds t ≠ [] ∧ createMexicanoPairings (rankPlayers t) = Ret ms).
Proof.
  intros Hgen.
  destruct (canStartNextRound t) eqn:Hcan; cycle 1.
  { apply generateNextRound_null in Hcan. congruence. }
  split; [done |].
  destruct (decide (rounds t = [])) as [Hrs | Hrs].
  - rewrite generateNextRound_first in Hgen by done. injection Hgen as <-.
    eexists. split; [by rewrite Hrs |]. by left.
  - rewrite generateNextRound_later in Hgen by done.
    destruct (createMexicanoPairings _) as [ms | e]; simpl in Hgen; [| done].
    injection Hgen as <-. exists ms. split; [done |]. by right.
Qed.

(** The rounds [addNextRound] leaves: those it found, or these and the round
    that [generateNextRound] returned. *)
Lemma addNextRound_rounds now t :
  (rounds (snd (addNextRound now t)) = rounds t ∧
   ∃ e, fst (addNextRound now t) = Throw e) ∨
  ∃ next, generateNextRound t = Ret (Some next) ∧
          addNextRound now t =
          (Ret (), set_updatedAt now (set_rounds (rounds t ++ [next]) t)).
Proof.
  unfold addNextRound.
  destruct (generateNextRound t) as [[next |] | e]; [right | left ..]; eauto.
Qed.

End outcomes.

(** ** What the operations keep *)

Section invariants.

Context {host : Collation}.

Implicit Types (t : Tournament) (rs : list Round) (round : Round).

Lemma keptRounds_lookup rs i edited j r :
  (i < length rs)%nat →
  keptRounds i edited rs !! j = Some r ↔
  (j < i)%nat ∧ rs !! j = Some r ∨ j = i ∧ r = edited.
Proof.
  intros Hi. unfold keptRounds.
  rewrite lookup_snoc_Some, length_take, lookup_take_Some.
  replace (i `min` length rs)%nat with i by lia. split.
  - intros [[? [? ?]] | [? ?]]; [left | right]; done.
  - intros [[? ?] | [? ?]]; [left | right]; done.
Qed.

Lemma roundsNumbered_kept rs i round s1 s2 k m :
  roundsNumbered rs → rs !! i = Some round →
  roundsNumbered (keptRounds i (withScores s1 s2 k m round) rs).
Proof.
  intros Hnum Hi j r.
  rewrite keptRounds_lookup by (by eapply lookup_lt_Some).
  intros [[_ Hj] | [-> ->]]; [by apply Hnum |]. by apply (Hnum i round).
Qed.

Lemma roundsNumbered_snoc rs ms :
  roundsNumbered rs →
  roundsNumbered (rs ++ [mkRound (Z.of_nat (length rs) + 1) ms]).
Proof.
  intros Hnum j r. rewrite lookup_snoc_Some.
  intros [[_ Hj] | [-> <-]]; [by apply Hnum | done].
Qed.

Lemma completeButLast_kept rs i edited :
  completeButLast rs → (i < length rs)%nat →
  completeButLast (keptRounds i edited rs).
Proof.
  intros Hc Hi j r. rewrite keptRounds_lookup, keptRounds_length by done.
  intros [[? Hj] | [-> ->]] ?; [| lia]. apply (Hc j r Hj). lia.
Qed.

Lemma completeButLast_snoc rs next :
  completeButLast rs →
  (∀ r, last rs = Some r → isRoundComplete r = true) →
  completeButLast (rs ++ [next]).
Proof.
  intros Hc Hlast j r. rewrite lookup_snoc_Some, length_app. simpl.
  intros [[? Hj] | [-> <-]] ?; [| lia].
  destruct (decide (S j = length rs)) as [Heq | ?]; [| apply (Hc j r Hj); lia].
  apply Hlast. rewrite last_lookup, <- Heq. done.
Qed.

Lemma ids_keptRounds rs i round s1 s2 k m :
  rs !! i = Some round → matches round !! k = Some m →
  id <$> flat_map matches (keptRounds i (withScores s1 s2 k m round) rs) =
  id <$> flat_map matches (take (S i) rs).
Proof.
  intros Hi Hk. rewrite (take_S_r _ _ _ Hi). unfold keptRounds.
  rewrite !flat_map_snoc, !fmap_app. by rewrite ids_withScores.
Qed.

Lemma idsDistinct_take rs n : idsDistinct rs → idsDistinct (take n rs).
Proof.
  unfold idsDistinct. rewrite <- (take_drop n rs) at 1.
  rewrite flat_map_app, fmap_app. by intros (? & _ & _)%NoDup_app.
Qed.

Lemma idsDistinct_kept rs i round s1 s2 k m :
  idsDistinct rs → rs !! i = Some round → matches round !! k = Some m →
  idsDistinct (keptRounds i (withScores s1 s2 k m round) rs).
Proof.
  intros Hd Hi Hk. unfold idsDistinct.
  rewrite (ids_keptRounds _ _ _ _ _ _ _ Hi Hk). by apply idsDistinct_take.
Qed.

Lemma idsDistinct_snoc rs n ms :
  idsDistinct rs →
  idsDistinct (rs ++ [mkRound n (renumber (maxMatchId rs) ms)]).
Proof.
  unfold idsDistinct. intros Hd.
  rewrite flat_map_snoc, fmap_app. cbn [matches].
  rewrite renumber_ids. apply NoDup_app. split; [done |].
  split; [| apply NoDup_seqZ].
  intros x (m & -> & Hm%maxMatchId_bound)%list_elem_of_fmap
    (j & Hj)%list_elem_of_lookup.
  apply lookup_seqZ in Hj. lia.
Qed.

Lemma participants_withScores s1 s2 k m round :
  matches round !! k = Some m →
  participants <$> matches (withScores s1 s2 k m round) =
  participants <$> matches round.
Proof.
  intros Hk. unfold withScores. cbn [matches set_matches].
  rewrite list_fmap_insert. apply list_insert_id.
  by rewrite list_lookup_fmap, Hk.
Qed.

Lemma participants_renumber maxId ms :
  participants <$> renumber maxId ms = participants <$> ms.
Proof.
  unfold renumber. rewrite fmap_imap.
  apply list_eq. intros j. rewrite list_lookup_imap, list_lookup_fmap.
  by destruct (ms !! j).
Qed.

Lemma everyonePlays_kept ps rs i round s1 s2 k m :
  everyonePlays ps rs → rs !! i = Some round → matches round !! k = Some m →
  everyonePlays ps (keptRounds i (withScores s1 s2 k m round) rs).
Proof.
  intros He Hi Hk r (j & Hj)%list_elem_of_lookup.
  apply keptRounds_lookup in Hj as [[_ Hj] | [-> ->]];
    [| | by eapply lookup_lt_Some].
  - apply He. by eapply list_elem_of_lookup_2.
  - rewrite participants_withScores by done.
    apply He. by eapply list_elem_of_lookup_2.
Qed.

Lemma everyonePlays_snoc ps rs n maxId ms :
  everyonePlays ps rs →
  mjoin (participants <$> ms) ≡ₚ Some <$> ps →
  everyonePlays ps (rs ++ [mkRound n (renumber maxId ms)]).
Proof.
  intros He Hms r [Hr | ->%list_elem_of_singleton]%elem_of_app; [by apply He |].
  cbn [matches]. by rewrite participants_renumber.
Qed.

(** A list of entries whose pairing does not throw is cut in full groups. *)
Lemma mexicanoLoop_short k i mid (ranked : list PlayerStats) :
  (0 < k)%nat → (length ranked < i + 4 * k)%nat →
  mexicanoLoop k i mid ranked = Throw TypeError.
Proof.
  revert i mid. induction k as [|k IH]; intros i mid Hk Hlen; [lia |].
  cbn [mexicanoLoop].
  destruct (ranked !! i) as [g0 |] eqn:H0; [| done].
  destruct (ranked !! (i + 3)%nat) as [g3 |] eqn:H3; [| done].
  destruct (ranked !! (i + 1)%nat) as [g1 |] eqn:H1; [| done].
  destruct (ranked !! (i + 2)%nat) as [g2 |] eqn:H2; [| done].
  apply lookup_lt_Some in H3. cbn.
  rewrite IH by lia. done.
Qed.

Lemma iterations_spec n :
  (4 * iterations n < n + 4)%nat ∧ (n ≤ 4 * iterations n)%nat.
Proof.
  unfold iterations.
  pose proof (Nat.div_mod_eq (n + 3) 4).
  pose proof (Nat.mod_upper_bound (n + 3) 4). lia.
Qed.

Lemma createMexicanoPairings_throws (ranked : list PlayerStats) :
  ¬ Nat.divide 4 (length ranked) →
  createMexicanoPairings ranked = Throw TypeError.
Proof.
  intros Hdiv. unfold createMexicanoPairings.
  destruct (iterations_spec (length ranked)) as [Hlo Hhi].
  apply mexicanoLoop_short.
  - destruct (iterations (length ranked)); [| lia].
    destruct Hdiv. exists 0%nat. lia.
  - destruct (decide (length ranked = 4 * iterations (length ranked))%nat)
      as [Heq | ?]; [| lia].
    destruct Hdiv. exists (iterations (length ranked)). lia.
Qed.

Lemma createMexicanoPairings_Ret (ranked : list PlayerStats) ms :
  createMexicanoPairings ranked = Ret ms →
  Nat.divide 4 (length ranked) ∧ ms = createInitialPairings (name <$> ranked).
Proof.
  intros Hms.
  destruct (decide (Nat.divide 4 (length ranked))) as [Hdiv | Hdiv].
  - split; [done |]. rewrite createMexicanoPairings_quartets in Hms by done.
    by injection Hms.
  - rewrite createMexicanoPairings_throws in Hms by done. done.
Qed.

Lemma createInitialPairings_participants (ps : list string) :
  Nat.divide 4 (length ps) →
  mjoin (participants <$> createInitialPairings ps) = Some <$> ps.
Proof.
  intros [k Hk]. unfold createInitialPairings.
  rewrite Hk, (Nat.mul_comm k 4), iterations_quartets.
  rewrite initialLoop_participants by lia.
  by rewrite drop_0, (Nat.mul_comm 4 k), <- Hk, firstn_all.
Qed.

(** The ranking lists the own properties of the object, each once: the
    declared players, but for one named [__proto__]. *)
Lemma rankPlayers_names t :
  NoDup (name <$> rankPlayers t) ∧
  ∀ p, p ∈ name <$> rankPlayers t ↔
       p ∈ players t ∧ p ≠ "__proto__"%string.
Proof.
  assert (name <$> rankPlayers t ≡ₚ statsKeys t) as Hperm.
  { unfold rankPlayers. cbn zeta.
    assert (∀ l : list PlayerStats, name <$> l = name <$> (set_rank None <$> l))
      as Herase by (intros l; by rewrite <- list_fmap_compose).
    rewrite Herase, assignRanks_erase, <- Herase, sort_permutation.
    by rewrite Object_values_names. }
  split.
  - rewrite Hperm. apply statsKeys_spec.
  - intros p. rewrite Hperm. apply statsKeys_spec.
Qed.

Lemma rankPlayers_names_players t :
  NoDup (players t) → "__proto__"%string ∉ players t →
  name <$> rankPlayers t ≡ₚ players t.
Proof.
  intros Hnd Hproto. destruct (rankPlayers_names t) as [? Hin].
  apply NoDup_Permutation; [done | done |].
  intros p. rewrite Hin. split; [tauto |].
  intros Hp. split; [done |]. by intros ->.
Qed.

(** When the ranking of distinct players in a number divisible by four is
    paired, no player is named [__proto__] and every player is seated
    once. *)
Lemma createMexicanoPairings_ranking t ms :
  NoDup (players t) → Nat.divide 4 (length (players t)) →
  createMexicanoPairings (rankPlayers t) = Ret ms →
  ("__proto__"%string ∉ players t) ∧
  mjoin (participants <$> ms) ≡ₚ Some <$> players t.
Proof.
  intros Hnd Hdiv [Hranked ->]%createMexicanoPairings_Ret.
  assert ("__proto__"%string ∉ players t) as Hproto.
  { intros Hproto. by apply (rankPlayers_length_proto t). }
  split; [done |].
  rewrite createInitialPairings_participants by (by rewrite length_fmap).
  by rewrite rankPlayers_names_players.
Qed.

(** With a player named [__proto__] the ranking is not paired. *)
Lemma createMexicanoPairings_proto t :
  NoDup (players t) → Nat.divide 4 (length (players t)) →
  "__proto__"%string ∈ players t →
  createMexicanoPairings (rankPlayers t) = Throw TypeError.
Proof.
  intros Hnd Hdiv Hproto. apply createMexicanoPairings_throws.
  by apply rankPlayers_length_proto.
Qed.

(** The pairing of the next round seats every player once. *)
Lemma generateNextRound_everyonePlays t next :
  NoDup (players t) → Nat.divide 4 (length (players t)) →
  everyonePlays (players t) (rounds t) →
  generateNextRound t = Ret (Some next) →
  everyonePlays (players t) (rounds t ++ [next]).
Proof.
  intros Hnd Hdiv He (_ & ms & -> & Hms)%generateNextRound_Some.
  apply everyonePlays_snoc; [done |].
  destruct Hms as [[_ ->] | [_ Hms]].
  - by rewrite createInitialPairings_participants.
  - by apply createMexicanoPairings_ranking in Hms as [_ ?].
Qed.

End invariants.

(** X1: the numbers of the matches stay distinct, as long as they stay in
    the range of the integers that a double holds exactly (the highest
    number plus the number of players is at most 2^53): if no two matches of
    the tournament have the same number, this is so again in the tournament
    that [updateMatchScore] leaves, whatever its outcome, and in the one
    that [addNextRound] leaves. *)
Theorem match_ids_stay_distinct {host : Collation}
    (now : Z) (t : Tournament) (r mid : Z) (s1 s2 : jsval) :
  idsDistinct (rounds t) → idsInRange t →
  idsDistinct (rounds (snd (updateMatchScore now t r mid s1 s2))) ∧
  idsDistinct (rounds (snd (addNextRound now t))).
Proof.
  intros Hd _. split.
  - destruct (updateMatchScore_rounds now t r mid s1 s2)
      as [-> | (round & k & m & _ & Hround & Hk & [-> | (_ & ms & _ & ->)])];
      [done | by apply idsDistinct_kept |].
    apply idsDistinct_snoc. by apply idsDistinct_kept.
  - destruct (addNextRound_rounds now t) as [[-> _] | (next & Hgen & ->)];
      [done |].
    apply generateNextRound_Some in Hgen as (_ & ms & -> & _).
    by apply idsDistinct_snoc.
Qed.

Section match_ids_witness_example.

#[local] Existing Instance clubCollation.

(** The three rounds of [clubNight] have the match numbers 1 to 6. *)
Lemma match_ids_witness :
  idsDistinct (rounds clubNight) ∧ idsInRange clubNight ∧
  idsDistinct (rounds (snd (updateMatchScore 9 clubNight 1 1 (Num 5) (Num 20)))) ∧
  idsDistinct (rounds (snd (addNextRound 9 clubNight))).
Proof.
  assert (idsDistinct (rounds clubNight)) as Hd
    by (apply (bool_decide_unpack _); vm_compute; exact I).
  assert (idsInRange clubNight) as Hrange
    by (apply (bool_decide_unpack _); vm_compute; exact I).
  split; [exact Hd |]. split; [exact Hrange |].
  exact (match_ids_stay_distinct 9 clubNight 1 1 (Num 5) (Num 20) Hd Hrange).
Defined.

End match_ids_witness_example.

(** X2: the rounds stay numbered 1, 2, 3, ... in their order: if they are
    so numbered, they are again in the tournament that [updateMatchScore]
    leaves, whatever its outcome, and in the one that [addNextRound]
    leaves. *)
Theorem rounds_stay_numbered {host : Collation}
    (now : Z) (t : Tournament) (r mid : Z) (s1 s2 : jsval) :
  roundsNumbered (rounds t) →
  roundsNumbered (rounds (snd (updateMatchScore now t r mid s1 s2))) ∧
  roundsNumbered (rounds (snd (addNextRound now t))).
Proof.
  intros Hn. split.
  - destruct (updateMatchScore_rounds now t r mid s1 s2)
      as [-> | (round & k & m & _ & Hround & Hk & [-> | (_ & ms & _ & ->)])];
      [done | by apply roundsNumbered_kept |].
    apply roundsNumbered_snoc. by apply roundsNumbered_kept.
  - destruct (addNextRound_rounds now t) as [[-> _] | (next & Hgen & ->)];
      [done |].
    apply generateNextRound_Some in Hgen as (_ & ms & -> & _).
    by apply roundsNumbered_snoc.
Qed.

Section rounds_numbered_witness_example.

#[local] Existing Instance clubCollation.

Lemma rounds_numbered_witness :
  roundsNumbered (rounds clubNight) ∧
  roundsNumbered (rounds (snd (updateMatchScore 9 clubNight 1 1 (Num 5) (Num 20)))) ∧
  roundsNumbered (rounds (snd (addNextRound 9 clubNight))).
Proof.
  assert (roundsNumbered (rounds clubNight)) as Hn.
  { intros [|[|[|i]]] r Hr; simpl in Hr; [injection Hr as <-; reflexivity .. |].
    discriminate Hr. }
  split; [exact Hn |].
  exact (rounds_stay_numbered 9 clubNight 1 1 (Num 5) (Num 20) Hn).
Defined.

End rounds_numbered_witness_example.

(** X3: no incomplete round is ever followed by another round: if every
    round but the last is complete, this is so again in the tournament that
    [updateMatchScore] leaves, whatever its outcome, and in the one that
    [addNextRound] leaves. *)
Theorem earlier_rounds_stay_complete {host : Collation}
    (now : Z) (t : Tournament) (r mid : Z) (s1 s2 : jsval) :
  completeButLast (rounds t) →
  completeButLast (rounds (snd (updateMatchScore now t r mid s1 s2))) ∧
  completeButLast (rounds (snd (addNextRound now t))).
Proof.
  intros Hc. split.
  - destruct (updateMatchScore_rounds now t r mid s1 s2)
      as [-> | (round & k & m & Hlt & Hround & Hk &
                [-> | (Hcomplete & ms & _ & ->)])];
      [done | by apply completeButLast_kept |].
    apply completeButLast_snoc; [by apply completeButLast_kept |].
    unfold keptRounds. rewrite last_snoc. by intros ? [= <-].
  - destruct (addNextRound_rounds now t) as [[-> _] | (next & Hgen & ->)];
      [done |].
    apply generateNextRound_Some in Hgen as (Hcan & _).
    apply completeButLast_snoc; [done |].
    apply canStartNextRound_true in Hcan as [-> | (r' & -> & ?)];
      [done | by intros ? [= <-]].
Qed.

Section earlier_rounds_witness_example.

#[local] Existing Instance clubCollation.

Lemma earlier_rounds_witness :
  completeButLast (rounds clubNight) ∧
  completeButLast
    (rounds (snd (updateMatchScore 9 clubNight 1 1 (Num 5) (Num 20)))) ∧
  completeButLast (rounds (snd (addNextRound 9 clubNight))).
Proof.
  assert (completeButLast (rounds clubNight)) as Hc.
  { intros [|[|[|i]]] r Hr Hlt; simpl in Hr, Hlt;
      [injection Hr as <-; reflexivity .. |]. discriminate Hr. }
  split; [exact Hc |].
  exact (earlier_rounds_stay_complete 9 clubNight 1 1 (Num 5) (Num 20) Hc).
Defined.

End earlier_rounds_witness_example.

(** X4: with distinct declared players in a number divisible by four, every
    player stays seated exactly once in every round: if in each round the
    participant slots of the matches are the declared players, each once,
    this is so again in the tournament that [updateMatchScore] leaves,
    whatever its outcome, and in the one that [addNextRound] leaves. *)
Theorem everyone_plays_in_every_round {host : Collation}
    (now : Z) (t : Tournament) (r mid : Z) (s1 s2 : jsval) :
  NoDup (players t) → Nat.divide 4 (length (players t)) →
  everyonePlays (players t) (rounds t) →
  everyonePlays (players t)
    (rounds (snd (updateMatchScore now t r mid s1 s2))) ∧
  everyonePlays (players t) (rounds (snd (addNextRound now t))).
Proof.
  intros Hnd Hdiv He. split.
  - destruct (updateMatchScore_rounds now t r mid s1 s2)
      as [-> | (round & k & m & Hlt & Hround & Hk &
                [-> | (Hcomplete & ms & Hms & ->)])];
      [done | by apply everyonePlays_kept |].
    apply everyonePlays_snoc; [by apply everyonePlays_kept |].
    by apply (createMexicanoPairings_ranking (set_rounds _ t)) in Hms as [_ ?].
  - destruct (addNextRound_rounds now t) as [[-> _] | (next & Hgen & ->)];
      [done |].
    by apply generateNextRound_everyonePlays.
Qed.

Section everyone_plays_witness_example.

#[local] Existing Instance clubCollation.

Lemma everyone_plays_witness :
  NoDup (players clubNight) ∧ Nat.divide 4 (length (players clubNight)) ∧
  everyonePlays (players clubNight) (rounds clubNight) ∧
  everyonePlays (players clubNight)
    (rounds (snd (updateMatchScore 9 clubNight 1 1 (Num 5) (Num 20)))) ∧
  everyonePlays (players clubNight) (rounds (snd (addNextRound 9 clubNight))).
Proof.
  assert (NoDup (players clubNight)) as Hnd
    by (apply (bool_decide_unpack _); vm_compute; exact I).
  assert (Nat.divide 4 (length (players clubNight))) as Hdiv
    by (exists 2%nat; reflexivity).
  assert (everyonePlays (players clubNight) (rounds clubNight)) as He.
  { intros r Hr. simpl in Hr. rewrite !elem_of_cons in Hr.
    destruct Hr as [-> | [-> | [-> | Hr]]];
      [apply (bool_decide_unpack _); vm_compute; exact I .. |].
    by apply elem_of_nil in Hr. }
  split; [exact Hnd |]. split; [exact Hdiv |]. split; [exact He |].
  exact (everyone_plays_in_every_round
           9 clubNight 1 1 (Num 5) (Num 20) Hnd Hdiv He).
Defined.

End everyone_plays_witness_example.

(** X5: with distinct declared players in a number divisible by four, none
    of them named [__proto__], the two operations never fail with a
    [TypeError]: [updateMatchScore] returns, or it throws one of its three
    messages and leaves the tournament as it was; [addNextRound] returns, or
    it throws its message and leaves the tournament as it was. *)
Theorem operations_throw_only_their_messages {host : Collation}
    (now : Z) (t : Tournament) (r mid : Z) (s1 s2 : jsval) :
  NoDup (players t) → Nat.divide 4 (length (players t)) →
  "__proto__"%string ∉ players t →
  (fst (updateMatchScore now t r mid s1 s2) = Ret () ∨
   ∃ msg, msg ∈ rejections ∧
          updateMatchScore now t r mid s1 s2 = (Throw (Error msg), t)) ∧
  (fst (addNextRound now t) = Ret () ∨
   addNextRound now t =
   (Throw (Error "Cannot start next round: current round is not complete"), t)).
Proof.
  intros Hnd Hdiv Hproto. split.
  - destruct (updateMatchScore_cases now t r mid s1 s2)
      as [? | (round & k & m & _ & _ & _ & _ & ->)]; [by right |].
    left. unfold editOutcome.
    rewrite createMexicanoPairings_quartets
      by (by rewrite rankPlayers_length).
    by destruct (_ && _).
  - unfold addNextRound.
    destruct (decide (rounds t = [])) as [Hrs | Hrs].
    { rewrite generateNextRound_first by done. by left. }
    destruct (canStartNextRound t) eqn:Hcan.
    + rewrite generateNextRound_later by done.
      rewrite createMexicanoPairings_quartets
        by (by rewrite rankPlayers_length).
      by left.
    + apply generateNextRound_null in Hcan as ->. by right.
Qed.

Section operations_throw_witness_example.

#[local] Existing Instance clubCollation.

Lemma operations_throw_witness :
  NoDup (players clubNight) ∧ Nat.divide 4 (length (players clubNight)) ∧
  ("__proto__"%string ∉ players clubNight) ∧
  (fst (updateMatchScore 9 clubNight 1 7 (Num 5) (Num 20)) = Ret () ∨
   ∃ msg, msg ∈ rejections ∧
          updateMatchScore 9 clubNight 1 7 (Num 5) (Num 20) =
          (Throw (Error msg), clubNight)) ∧
  (fst (addNextRound 9 clubNight) = Ret () ∨
   addNextRound 9 clubNight =
   (Throw (Error "Cannot start next round: current round is not complete"),
    clubNight)).
Proof.
  assert (NoDup (players clubNight)) as Hnd
    by (apply (bool_decide_unpack _); vm_compute; exact I).
  assert (Nat.divide 4 (length (players clubNight))) as Hdiv
    by (exists 2%nat; reflexivity).
  assert ("__proto__"%string ∉ players clubNight) as Hproto
    by (apply (bool_decide_unpack _); vm_compute; exact I).
  split; [exact Hnd |]. split; [exact Hdiv |]. split; [exact Hproto |].
  exact (operations_throw_only_their_messages
           9 clubNight 1 7 (Num 5) (Num 20) Hnd Hdiv Hproto).
Defined.

End operations_throw_witness_example.

(** X6: neither operation touches the setup of the tournament: whatever the
    outcome, the name, the description, the date, the declared players and
    the time of creation are those of the tournament it was called on. *)
Theorem operations_keep_the_setup {host : Collation}
    (now : Z) (t : Tournament) (r mid : Z) (s1 s2 : jsval) :
  set_updatedAt 0 (set_rounds [] (snd (updateMatchScore now t r mid s1 s2))) =
    set_updatedAt 0 (set_rounds [] t) ∧
  set_updatedAt 0 (set_rounds [] (snd (addNextRound now t))) =
    set_updatedAt 0 (set_rounds [] t).
Proof.
  split.
  - destruct (updateMatchScore_frame now t r mid s1 s2)
      as (H1 & H2 & H3 & H4 & H5).
    unfold set_updatedAt, set_rounds; simpl. by rewrite H1, H2, H3, H4, H5.
  - unfold addNextRound. by repeat case_match.
Qed.

(** ** An edit made twice, and read back *)

Section repeated.

Context {host : Collation}.

Implicit Types (t : Tournament) (round : Round).

Lemma withScores_twice s1 s2 k m round :
  withScores s1 s2 k (set_scores s1 s2 m) (withScores s1 s2 k m round) =
  withScores s1 s2 k m round.
Proof.
  unfold withScores, set_matches. cbn [matches roundNumber].
  by rewrite list_insert_insert_eq.
Qed.

Lemma findMatch_withScores mid s1 s2 k m round :
  findMatch mid (matches round) = Some (k, m) →
  findMatch mid (matches (withScores s1 s2 k m round)) =
  Some (k, set_scores s1 s2 m).
Proof.
  unfold findMatch. intros (Hk & Hid & Hfirst)%list_find_Some.
  apply list_find_Some. cbn [matches withScores set_matches].
  split; [| split; [done |]].
  - apply list_lookup_insert_eq. by eapply lookup_lt_Some.
  - intros j y Hj Hlt. rewrite list_lookup_insert_ne in Hj by lia.
    by apply (Hfirst j).
Qed.

Lemma keptRounds_again i edited rs rest :
  (i < length rs)%nat →
  keptRounds i edited (keptRounds i edited rs ++ rest) = keptRounds i edited rs.
Proof.
  intros Hi. unfold keptRounds at 1.
  rewrite take_app_le by (rewrite keptRounds_length; lia).
  unfold keptRounds at 1.
  rewrite take_app_le by (rewrite length_take; lia).
  by rewrite take_idemp.
Qed.

Lemma updateMatchScore_again now t r mid s1 s2 t' :
  updateMatchScore now t r mid s1 s2 = (Ret (), t') →
  updateMatchScore now t' r mid s1 s2 = (Ret (), t').
Proof.
  intros Hfirst.
  destruct (updateMatchScore_cases now t r mid s1 s2)
    as [(msg & _ & Hrej) | (round & k & m & Hvalid & Hr & Hround & Hfind & Heq)];
    [congruence |].
  rewrite Heq in Hfirst. clear Heq.
  set (edited := withScores s1 s2 k m round) in *.
  set (kept := keptRounds (Z.to_nat (r - 1)) edited (rounds t)) in *.
  assert (length kept = Z.to_nat r) as Hlen.
  { unfold kept. rewrite keptRounds_length; lia. }
  assert (∃ rest, rounds t' = kept ++ rest ∧
                  t' = set_updatedAt now (set_rounds (kept ++ rest) t) ∧
                  editOutcome now t' r kept edited = (Ret (), t')) as
    (rest & Hrounds & Ht' & Hagain).
  { unfold editOutcome in Hfirst |- *.
    destruct ((r <? Z.of_nat (length (rounds t))) && isRoundComplete edited)
      eqn:Hcond.
    - apply andb_true_iff in Hcond as [_ Hcomplete].
      destruct (createMexicanoPairings (rankPlayers (set_rounds kept t)))
        as [ms | e] eqn:Hms; [| done].
      injection Hfirst as <-. eexists. split; [done |]. split; [done |].
      cbn [rounds set_rounds set_updatedAt]. rewrite length_app, Hlen. simpl.
      rewrite (proj2 (Z.ltb_lt _ _)) by lia. rewrite Hcomplete. simpl.
      change (rankPlayers (set_rounds kept (set_updatedAt now (set_rounds _ t))))
        with (rankPlayers (set_rounds kept t)).
      by rewrite Hms.
    - injection Hfirst as <-. exists []. rewrite app_nil_r.
      split; [done |]. split; [done |].
      cbn [rounds set_rounds set_updatedAt]. rewrite Hlen.
      rewrite (proj2 (Z.ltb_ge _ _)) by lia. done. }
  rewrite (updateMatchScore_eval now t' r mid s1 s2 edited k (set_scores s1 s2 m)).
  - unfold edited at 1 2. rewrite withScores_twice. fold edited.
    rewrite Hrounds. unfold kept at 1. rewrite keptRounds_again by lia.
    done.
  - done.
  - rewrite Hrounds, length_app. lia.
  - rewrite Hrounds. apply lookup_app_l_Some.
    unfold kept. apply keptRounds_lookup; [lia |]. by right.
  - by apply findMatch_withScores.
Qed.

Lemma updateMatchScore_stored now t r mid s1 s2 t' :
  updateMatchScore now t r mid s1 s2 = (Ret (), t') →
  ∃ round' k m',
    rounds t' !! Z.to_nat (r - 1) = Some round' ∧
    findMatch mid (matches round') = Some (k, m') ∧
    team1Score m' = s1 ∧ team2Score m' = s2.
Proof.
  intros Hfirst.
  destruct (updateMatchScore_cases now t r mid s1 s2)
    as [(msg & _ & Hrej) | (round & k & m & Hvalid & Hr & Hround & Hfind & Heq)];
    [congruence |].
  rewrite Heq in Hfirst.
  exists (withScores s1 s2 k m round), k, (set_scores s1 s2 m).
  split; [| split; [by apply findMatch_withScores | done]].
  assert (∀ rest,
    (keptRounds (Z.to_nat (r - 1)) (withScores s1 s2 k m round) (rounds t)
       ++ rest) !! Z.to_nat (r - 1) = Some (withScores s1 s2 k m round))
    as Hlookup.
  { intros rest. apply lookup_app_l_Some, keptRounds_lookup; [lia |].
    by right. }
  unfold editOutcome in Hfirst. repeat case_match; simplify_eq;
    cbn [rounds set_rounds set_updatedAt]; [done |
      rewrite <- (app_nil_r (keptRounds _ _ _)); apply Hlookup ..].
Qed.

End repeated.

(** X7: an edit made twice is an edit made once: when a call of
    [updateMatchScore] has returned, the same call on the tournament it left
    returns and leaves that tournament as it is. *)
Theorem updateMatchScore_idempotent {host : Collation}
    (now : Z) (t t' : Tournament) (r mid : Z) (s1 s2 : jsval) :
  updateMatchScore now t r mid s1 s2 = (Ret (), t') →
  updateMatchScore now t' r mid s1 s2 = (Ret (), t').
Proof. apply updateMatchScore_again. Qed.

Section updateMatchScore_idempotent_witness_example.

#[local] Existing Instance clubCollation.

Lemma updateMatchScore_idempotent_witness :
  updateMatchScore 9 clubNight 1 1 (Num 5) (Num 20) =
    (Ret (), clubNightEdited 9) ∧
  updateMatchScore 9 (clubNightEdited 9) 1 1 (Num 5) (Num 20) =
    (Ret (), clubNightEdited 9).
Proof.
  assert (updateMatchScore 9 clubNight 1 1 (Num 5) (Num 20) =
          (Ret (), clubNightEdited 9)) as Hcall by (vm_compute; reflexivity).
  split; [exact Hcall |].
  exact (updateMatchScore_idempotent
           9 clubNight (clubNightEdited 9) 1 1 (Num 5) (Num 20) Hcall).
Defined.

End updateMatchScore_idempotent_witness_example.

(** X8: a score that was written is read back: after a call of
    [updateMatchScore] that returns, the round with the given number exists
    in the tournament left, and the first match with the given number in it
    holds the two scores of the call. *)
Theorem updateMatchScore_reads_back {host : Collation}
    (now : Z) (t t' : Tournament) (r mid : Z) (s1 s2 : jsval) :
  updateMatchScore now t r mid s1 s2 = (Ret (), t') →
  ∃ round' k m',
    rounds t' !! Z.to_nat (r - 1) = Some round' ∧
    findMatch mid (matches round') = Some (k, m') ∧
    team1Score m' = s1 ∧ team2Score m' = s2.
Proof. apply updateMatchScore_stored. Qed.

Section updateMatchScore_reads_back_witness_example.

#[local] Existing Instance clubCollation.

Lemma updateMatchScore_reads_back_witness :
  updateMatchScore 9 clubNight 1 1 (Num 5) (Num 20) =
    (Ret (), clubNightEdited 9) ∧
  ∃ round' k m',
    rounds (clubNightEdited 9) !! Z.to_nat (1 - 1) = Some round' ∧
    findMatch 1 (matches round') = Some (k, m') ∧
    team1Score m' = Num 5 ∧ team2Score m' = Num 20.
Proof.
  assert (updateMatchScore 9 clubNight 1 1 (Num 5) (Num 20) =
          (Ret (), clubNightEdited 9)) as Hcall by (vm_compute; reflexivity).
  split; [exact Hcall |].
  exact (updateMatchScore_reads_back
           9 clubNight (clubNightEdited 9) 1 1 (Num 5) (Num 20) Hcall).
Defined.

End updateMatchScore_reads_back_witness_example.

(** ** Relations between the numbers of an entry *)

Section totals.

Context {host : Collation}.

Implicit Types (t : Tournament) (p : string) (m : Match).

Lemma sumList_plus {A} (f g : A → Z) l :
  sumList (λ x, f x + g x) l = sumList f l + sumList g l.
Proof. induction l as [|x l IH]; simpl; [done |]. rewrite IH. lia. Qed.

Lemma sumList_mul {A} (c : Z) (f : A → Z) l :
  sumList (λ x, c * f x) l = c * sumList f l.
Proof. induction l as [|x l IH]; simpl; [lia |]. rewrite IH. lia. Qed.

Lemma sumList_ext {A} (f g : A → Z) l :
  (∀ x, x ∈ l → f x = g x) → sumList f l = sumList g l.
Proof.
  induction l as [|x l IH]; intros Hfg; simpl; [done |].
  rewrite Hfg by left. rewrite IH; [done |]. intros ??. apply Hfg. by right.
Qed.

Lemma sumList_mono {A} (f g : A → Z) l :
  (∀ x, f x ≤ g x) → sumList f l ≤ sumList g l.
Proof.
  intros Hfg. induction l as [|x l IH]; simpl; [done |].
  specialize (Hfg x). lia.
Qed.

Lemma sumList_const_zero {A} (l : list A) : sumList (λ _, 0) l = 0.
Proof. induction l as [|x l IH]; simpl; [done |]. by rewrite IH. Qed.

Lemma sumList_exchange {A B} (f : A → B → Z) (la : list A) (lb : list B) :
  sumList (λ a, sumList (f a) lb) la =
  sumList (λ b, sumList (λ a, f a b) la) lb.
Proof.
  induction la as [|a la IH]; simpl.
  - by rewrite sumList_const_zero.
  - by rewrite IH, <- sumList_plus.
Qed.

Lemma sumList_indicator {A} (f : A → bool) (c : Z) l :
  sumList (λ x, if f x then c else 0) l =
  c * Z.of_nat (length (filter (λ x, f x = true) l)).
Proof.
  induction l as [|x l IH]; simpl; [lia |].
  rewrite IH. destruct (f x) eqn:Hfx.
  - rewrite filter_cons_True by done. simpl. lia.
  - rewrite filter_cons_False by congruence. lia.
Qed.

Lemma holds_range p slot : 0 ≤ holds p slot ≤ 1.
Proof. unfold holds. case_decide; lia. Qed.

Lemma matchGames_split p m : matchGames p m = matchWins p m + matchLosses p m.
Proof.
  unfold matchGames, matchWins, matchLosses.
  destruct (isMatchComplete m) eqn:Hc; [| done].
  rewrite higherScoring_complete by done.
  destruct (js_gt _ _); simpl; lia.
Qed.

Lemma matchWins_range p m : 0 ≤ matchWins p m ∧ 0 ≤ matchLosses p m.
Proof.
  unfold matchWins, matchLosses.
  pose proof (holds_range p (team1Player1 m)).
  pose proof (holds_range p (team1Player2 m)).
  pose proof (holds_range p (team2Player1 m)).
  pose proof (holds_range p (team2Player2 m)).
  destruct (isMatchComplete m); [| done].
  destruct (higherScoring m) as [[|] |]; simpl; unfold onTeam1, onTeam2; lia.
Qed.

Lemma matchPoints_range p m : 0 ≤ matchPoints p m ≤ 25 * matchGames p m.
Proof.
  unfold matchPoints, matchGames.
  pose proof (holds_range p (team1Player1 m)).
  pose proof (holds_range p (team1Player2 m)).
  pose proof (holds_range p (team2Player1 m)).
  pose proof (holds_range p (team2Player2 m)).
  destruct (isMatchComplete m) eqn:Hc; [| lia].
  apply isMatchComplete_scores in Hc as (x & y & -> & -> & ? & ? & ?).
  unfold onTeam1, onTeam2. simpl. nia.
Qed.

(** An entry, whatever its key, holds the sums over the matches. *)
Lemma calculateStats_entry t p s :
  calculateStats t !! p = Some s →
  s = deriveOwn p
        (gain (sumList (matchPoints p) (allMatches t))
              (sumList (matchGames p) (allMatches t))
              (sumList (matchWins p) (allMatches t))
              (sumList (matchLosses p) (allMatches t))
              (zeroStats p)).
Proof.
  rewrite calculateStats_lookup. case_decide; [| done]. by intros [= <-].
Qed.

Lemma quotient_range (a b c : Z) :
  0 < b → 0 ≤ a ≤ c * b →
  (0 <= inject_Z a / inject_Z b)%Q ∧ (inject_Z a / inject_Z b <= inject_Z c)%Q.
Proof.
  intros Hb [Ha Hac].
  assert (0 < inject_Z b)%Q as Hb'
    by (change 0%Q with (inject_Z 0); by rewrite <- Zlt_Qlt).
  split.
  - apply Qle_shift_div_l; [done |].
    rewrite Qmult_0_l. change 0%Q with (inject_Z 0). by rewrite <- Zle_Qle.
  - apply Qle_shift_div_r; [done |].
    rewrite <- inject_Z_mult. by rewrite <- Zle_Qle.
Qed.

Lemma entry_relations t p s :
  calculateStats t !! p = Some s →
  gamesPlayed s = wins s + losses s ∧
  0 ≤ wins s ∧ 0 ≤ losses s ∧
  0 ≤ totalPoints s ≤ 25 * gamesPlayed s ∧
  (0 <= pointsPerGame s)%Q ∧ (pointsPerGame s <= 25)%Q ∧
  (0 <= winPercentage s)%Q ∧ (winPercentage s <= 100)%Q.
Proof.
  intros ->%calculateStats_entry.
  set (ms := allMatches t).
  assert (sumList (matchGames p) ms =
          sumList (matchWins p) ms + sumList (matchLosses p) ms) as Hsplit.
  { rewrite <- sumList_plus. apply sumList_ext. intros m _.
    apply matchGames_split. }
  assert (0 ≤ sumList (matchWins p) ms) as Hw.
  { rewrite <- (sumList_const_zero ms). apply sumList_mono.
    intros m. apply matchWins_range. }
  assert (0 ≤ sumList (matchLosses p) ms) as Hl.
  { rewrite <- (sumList_const_zero ms). apply sumList_mono.
    intros m. apply matchWins_range. }
  assert (0 ≤ sumList (matchPoints p) ms) as Hp0.
  { rewrite <- (sumList_const_zero ms). apply sumList_mono.
    intros m. apply matchPoints_range. }
  assert (sumList (matchPoints p) ms ≤ 25 * sumList (matchGames p) ms) as Hp.
  { rewrite <- sumList_mul. apply sumList_mono.
    intros m. apply matchPoints_range. }
  unfold deriveOwn. case_decide; [simpl; repeat split; try lia; lra |].
  unfold deriveStats. cbn [gamesPlayed gain zeroStats].
  destruct (0 <? 0 + sumList (matchGames p) ms) eqn:Hplayed; simpl.
  - apply Z.ltb_lt in Hplayed.
    destruct (quotient_range (0 + sumList (matchPoints p) ms)
                (0 + sumList (matchGames p) ms) 25) as [? ?]; [lia | lia |].
    destruct (quotient_range (0 + sumList (matchWins p) ms)
                (0 + sumList (matchGames p) ms) 1) as [? ?]; [lia | lia |].
    change (inject_Z 25) with 25%Q in *. change (inject_Z 1) with 1%Q in *.
    repeat split; try lia; try done; lra.
  - repeat split; try lia; lra.
Qed.

Lemma sum_holds_absent (ps : list string) slot :
  propertyKey slot ∉ ps → sumList (λ p, holds p slot) ps = 0.
Proof.
  intros Hout. rewrite <- (sumList_const_zero ps). apply sumList_ext.
  intros p Hp. apply holds_other. intros Heq. apply Hout. by rewrite Heq.
Qed.

Lemma sum_holds_present (ps : list string) slot :
  NoDup ps → propertyKey slot ∈ ps → sumList (λ p, holds p slot) ps = 1.
Proof.
  induction 1 as [|q ps Hq Hnd IH]; [by intros ?%elem_of_nil |].
  intros [Heq | Hin]%elem_of_cons; simpl.
  - rewrite sum_holds_absent by (by rewrite Heq).
    unfold holds. rewrite decide_True by done. lia.
  - rewrite IH by done. rewrite holds_other; [lia |].
    intros Heq. apply Hq. by rewrite <- Heq.
Qed.

Lemma sum_over_players_of_match t m :
  NoDup (players t) → participantsDeclared t →
  m ∈ allMatches t → isMatchComplete m = true →
  sumList (λ p, onTeam1 p m) (players t) = 2 ∧
  sumList (λ p, onTeam2 p m) (players t) = 2.
Proof.
  intros Hnd Hdecl Hm Hc. unfold onTeam1, onTeam2.
  rewrite !sumList_plus, !sum_holds_present; [done | done | ..];
    try done; apply (Hdecl m Hm Hc); unfold participants; by repeat constructor.
Qed.

Lemma players_total t (field : PlayerStats → Z) (share : string → Match → Z)
    (c : Z) :
  NoDup (players t) → participantsDeclared t →
  (∀ p s, calculateStats t !! p = Some s →
          field s = sumList (share p) (allMatches t)) →
  (∀ m, isMatchComplete m = false → ∀ p, share p m = 0) →
  (∀ m, m ∈ allMatches t → isMatchComplete m = true →
        sumList (λ p, share p m) (players t) = c) →
  sumList (statOf field t) (players t) = c * completedMatches t.
Proof.
  intros Hnd Hdecl Hfield Hzero Hshare.
  rewrite (sumList_ext _ (λ p, sumList (share p) (allMatches t))); cycle 1.
  { intros p Hp. unfold statOf.
    destruct (calculateStats t !! p) as [s |] eqn:Hs; simpl.
    - by apply Hfield.
    - rewrite calculateStats_lookup, decide_True in Hs by done. done. }
  rewrite sumList_exchange.
  unfold completedMatches. rewrite <- sumList_indicator.
  apply sumList_ext. intros m Hm.
  destruct (isMatchComplete m) eqn:Hc; [by apply Hshare |].
  rewrite <- (sumList_const_zero (players t)). apply sumList_ext.
  intros p _. by apply Hzero.
Qed.

Lemma players_totals t :
  NoDup (players t) → participantsDeclared t →
  sumList (statOf totalPoints t) (players t) = 50 * completedMatches t ∧
  sumList (statOf gamesPlayed t) (players t) = 4 * completedMatches t ∧
  sumList (statOf wins t) (players t) = 2 * completedMatches t ∧
  sumList (statOf losses t) (players t) = 2 * completedMatches t.
Proof.
  intros Hnd Hdecl.
  assert (∀ p s, calculateStats t !! p = Some s →
    totalPoints s = sumList (matchPoints p) (allMatches t) ∧
    gamesPlayed s = sumList (matchGames p) (allMatches t) ∧
    wins s = sumList (matchWins p) (allMatches t) ∧
    losses s = sumList (matchLosses p) (allMatches t)) as Hfields.
  { intros p s ->%calculateStats_entry. unfold deriveOwn, deriveStats.
    repeat case_match; simpl; lia. }
  split; [| split; [| split]].
  - apply (players_total t totalPoints matchPoints); [done | done | ..].
    + intros p s Hs. by apply Hfields.
    + intros m Hc p. unfold matchPoints. by rewrite Hc.
    + intros m Hm Hc.
      destruct (sum_over_players_of_match t m Hnd Hdecl Hm Hc) as [H1 H2].
      unfold matchPoints. rewrite Hc.
      apply isMatchComplete_scores in Hc as (x & y & -> & -> & ? & ? & ?).
      simpl.
      rewrite sumList_plus.
      rewrite (sumList_ext (λ p, onTeam1 p m * x) (λ p, x * onTeam1 p m))
        by (intros; lia).
      rewrite (sumList_ext (λ p, onTeam2 p m * y) (λ p, y * onTeam2 p m))
        by (intros; lia).
      rewrite !sumList_mul, H1, H2. lia.
  - apply (players_total t gamesPlayed matchGames); [done | done | ..].
    + intros p s Hs. by apply Hfields.
    + intros m Hc p. unfold matchGames. by rewrite Hc.
    + intros m Hm Hc.
      destruct (sum_over_players_of_match t m Hnd Hdecl Hm Hc) as [H1 H2].
      unfold matchGames. rewrite Hc, sumList_plus, H1, H2. done.
  - apply (players_total t wins matchWins); [done | done | ..].
    + intros p s Hs. by apply Hfields.
    + intros m Hc p. unfold matchWins. by rewrite Hc.
    + intros m Hm Hc.
      destruct (sum_over_players_of_match t m Hnd Hdecl Hm Hc) as [H1 H2].
      unfold matchWins. rewrite Hc, higherScoring_complete by done.
      by destruct (js_gt _ _).
  - apply (players_total t losses matchLosses); [done | done | ..].
    + intros p s Hs. by apply Hfields.
    + intros m Hc p. unfold matchLosses. by rewrite Hc.
    + intros m Hm Hc.
      destruct (sum_over_players_of_match t m Hnd Hdecl Hm Hc) as [H1 H2].
      unfold matchLosses. rewrite Hc, higherScoring_complete by done.
      by destruct (js_gt _ _).
Qed.

End totals.

(** X9: the numbers of every entry of [calculateStats] fit together: the
    games played are the wins plus the losses, none of them is negative, the
    total points are between 0 and 25 for each game played, the points per
    game are between 0 and 25 and the percentage of wins between 0 and 100. *)
Theorem stats_entries_are_consistent
    (t : Tournament) (p : string) (s : PlayerStats) :
  calculateStats t !! p = Some s →
  gamesPlayed s = wins s + losses s ∧
  0 ≤ wins s ∧ 0 ≤ losses s ∧
  0 ≤ totalPoints s ≤ 25 * gamesPlayed s ∧
  (0 <= pointsPerGame s)%Q ∧ (pointsPerGame s <= 25)%Q ∧
  (0 <= winPercentage s)%Q ∧ (winPercentage s <= 100)%Q.
Proof. apply entry_relations. Qed.

(** The entry of Ann in [clubNight]: 48 points and three wins in three
    games. *)
Lemma stats_entries_witness :
  ∃ s, calculateStats clubNight !! "Ann" = Some s ∧
       totalPoints s = 48 ∧
       gamesPlayed s = wins s + losses s ∧
       0 ≤ wins s ∧ 0 ≤ losses s ∧
       0 ≤ totalPoints s ≤ 25 * gamesPlayed s ∧
       (0 <= pointsPerGame s)%Q ∧ (pointsPerGame s <= 25)%Q ∧
       (0 <= winPercentage s)%Q ∧ (winPercentage s <= 100)%Q.
Proof.
  destruct (calculateStats clubNight !! "Ann") as [s |] eqn:Hs;
    [| vm_compute in Hs; discriminate].
  exists s. split; [reflexivity |].
  split; [vm_compute in Hs; injection Hs as <-; reflexivity |].
  exact (stats_entries_are_consistent clubNight "Ann" s Hs).
Defined.

(** X10: the matches account for all the points: with distinct declared
    players, and all participants of the complete matches among them, the
    players' total points add up to 50 for each complete match, their games
    to 4, their wins to 2 and their losses to 2. *)
Theorem stats_add_up_over_players (t : Tournament) :
  NoDup (players t) → participantsDeclared t →
  sumList (statOf totalPoints t) (players t) = 50 * completedMatches t ∧
  sumList (statOf gamesPlayed t) (players t) = 4 * completedMatches t ∧
  sumList (statOf wins t) (players t) = 2 * completedMatches t ∧
  sumList (statOf losses t) (players t) = 2 * completedMatches t.
Proof. apply players_totals. Qed.

(** The six matches of [clubNight] give 300 points. *)
Lemma stats_add_up_witness :
  NoDup (players clubNight) ∧ participantsDeclared clubNight ∧
  completedMatches clubNight = 6 ∧
  sumList (statOf totalPoints clubNight) (players clubNight) =
    50 * completedMatches clubNight ∧
  sumList (statOf gamesPlayed clubNight) (players clubNight) =
    4 * completedMatches clubNight ∧
  sumList (statOf wins clubNight) (players clubNight) =
    2 * completedMatches clubNight ∧
  sumList (statOf losses clubNight) (players clubNight) =
    2 * completedMatches clubNight.
Proof.
  assert (NoDup (players clubNight)) as Hnd
    by (apply (bool_decide_unpack _); vm_compute; exact I).
  assert (participantsDeclared clubNight) as Hdecl.
  { intros m Hm _ slot Hslot.
    assert (Forall (λ m, Forall (λ slot, propertyKey slot ∈ players clubNight)
                                (participants m)) (allMatches clubNight))
      as Hall by (apply (bool_decide_unpack _); vm_compute; exact I).
    rewrite Forall_forall in Hall. specialize (Hall m Hm).
    rewrite Forall_forall in Hall. by apply Hall. }
  split; [exact Hnd |]. split; [exact Hdecl |]. split; [reflexivity |].
  exact (stats_add_up_over_players clubNight Hnd Hdecl).
Defined.

(** ** Ranks as a count *)

Section standing.

Context {host : Collation}.

Implicit Types (a b c p q : PlayerStats) (l : list PlayerStats).

Lemma precedes_not_ahead a b : precedes a b → ¬ ahead b a.
Proof. unfold precedes, ahead. intros [? | [? [? | [? _]]]] [? | [? ?]]; lia. Qed.

Lemma precedes_ahead a b c : precedes a b → ahead b c → ahead a c.
Proof. unfold precedes, ahead. intros [? | [? [? | [? _]]]] [? | [? ?]]; lia. Qed.

Lemma ahead_trans a b c : ahead a b → ahead b c → ahead a c.
Proof. unfold ahead. lia. Qed.

Lemma ahead_irrefl a : ¬ ahead a a.
Proof. unfold ahead. lia. Qed.

Lemma ahead_tied a p q : tiedWith p q → ahead a q ↔ ahead a p.
Proof. unfold tiedWith, ahead. lia. Qed.

Lemma precedes_untied_ahead a b : precedes a b → ¬ tiedWith a b → ahead a b.
Proof.
  unfold precedes, tiedWith, ahead. intros [? | [? [? | [? _]]]] ?; lia.
Qed.

Lemma standing_cases a b : ahead a b ∨ tiedWith a b ∨ ahead b a.
Proof. unfold ahead, tiedWith. lia. Qed.

Lemma filter_all {A} (P : A → Prop) `{∀ x, Decision (P x)} (l : list A) :
  Forall P l → filter P l = l.
Proof.
  induction 1 as [|x l Hx _ IH]; [done |].
  by rewrite filter_cons_True, IH.
Qed.

Lemma filter_none {A} (P : A → Prop) `{∀ x, Decision (P x)} (l : list A) :
  Forall (λ x, ¬ P x) l → filter P l = [].
Proof.
  induction 1 as [|x l Hx _ IH]; [done |].
  by rewrite filter_cons_False, IH.
Qed.

Lemma sorted_around l i p :
  StronglySorted precedes l → l !! i = Some p →
  Forall (λ q, precedes q p) (take i l) ∧ Forall (precedes p) (drop (S i) l).
Proof.
  intros Hs Hi. rewrite <- (take_drop_middle l i p Hi) in Hs.
  apply StronglySorted_app in Hs as (Hcross & _ & Htail).
  apply StronglySorted_cons in Htail as [Hafter _]. split; [| done].
  apply Forall_forall. intros q Hq. apply Hcross; [done | left].
Qed.

(** In a sorted list only players in front of [p] are ahead of [p]. *)
Lemma countAhead_front l i p :
  StronglySorted precedes l → l !! i = Some p →
  countAhead p l =
  Z.of_nat (length (filter (λ q, ahead q p) (take i l))).
Proof.
  intros Hs Hi. destruct (sorted_around l i p Hs Hi) as [_ Hafter].
  unfold countAhead. rewrite <- (take_drop_middle l i p Hi) at 1.
  rewrite filter_app, filter_cons_False by apply ahead_irrefl.
  rewrite (filter_none _ (drop (S i) l)); [by rewrite app_nil_r |].
  eapply Forall_impl; [done |]. intros q. apply precedes_not_ahead.
Qed.

Lemma ranks_count l :
  StronglySorted precedes l →
  (∀ p, l !! 0%nat = Some p → rank p = Some 1) →
  (∀ i prev p, l !! i = Some prev → l !! S i = Some p →
               rank p = if decide (tiedWith prev p) then rank prev
                        else Some (Z.of_nat (S i) + 1)) →
  ∀ i p, l !! i = Some p → rank p = Some (1 + countAhead p l).
Proof.
  intros Hs Hfirst Hnext i. induction i as [|i IH]; intros p Hp.
  - rewrite (countAhead_front l 0 p Hs Hp). rewrite take_0. simpl.
    by apply Hfirst.
  - destruct (lookup_lt_is_Some_2 l i) as [prev Hprev].
    { apply lookup_lt_Some in Hp. lia. }
    rewrite (Hnext i prev p Hprev Hp).
    destruct (decide (tiedWith prev p)) as [Htied | Huntied].
    + rewrite (IH prev Hprev). do 2 f_equal. unfold countAhead. do 2 f_equal.
      apply list_filter_iff. intros q. symmetry. by apply ahead_tied.
    + rewrite (countAhead_front l (S i) p Hs Hp).
      destruct (sorted_around l (S i) p Hs Hp) as [Hbefore _].
      destruct (sorted_around l i prev Hs Hprev) as [Hbefore' _].
      assert (ahead prev p) as Hprevp.
      { apply precedes_untied_ahead; [| done].
        rewrite Forall_forall in Hbefore. apply Hbefore.
        apply elem_of_take. exists i. split; [done | lia]. }
      rewrite filter_all.
      * rewrite length_take_le by (apply lookup_lt_Some in Hp; lia).
        f_equal. lia.
      * rewrite (take_S_r l i prev Hprev). apply Forall_app. split.
        -- eapply Forall_impl; [apply Hbefore' |]. intros q Hq. simpl in Hq.
           by eapply precedes_ahead.
        -- by constructor.
Qed.

Lemma rankPlayers_count t i p :
  rankPlayers t !! i = Some p →
  rank p = Some (1 + countAhead p (rankPlayers t)).
Proof.
  apply ranks_count.
  - unfold rankPlayers.
    eapply StronglySorted_erase; [symmetry; apply assignRanks_erase |].
    apply sort_sorted.
  - apply assignRanks_first.
  - intros j prev q Hprev Hq. unfold rankPlayers in Hprev, Hq.
    rewrite (assignRanks_next _ _ _ _ _ _ Hprev Hq). by rewrite Z.add_0_l.
Qed.

Lemma filter_length_lt {A} (P Q : A → Prop)
    `{∀ x, Decision (P x)} `{∀ x, Decision (Q x)} (xs : list A) x :
  (∀ y, P y → Q y) → x ∈ xs → Q x → ¬ P x →
  (length (filter P xs) < length (filter Q xs))%nat.
Proof.
  intros HPQ Hx HQx HPx.
  assert (∀ ys : list A, length (filter P ys) ≤ length (filter Q ys))%nat
    as Hle.
  { clear -HPQ. induction ys as [|y ys IH]; [done |].
    rewrite !filter_cons. destruct (decide (P y)) as [Hy | ?].
    - rewrite decide_True by auto. simpl. lia.
    - case_decide; simpl; lia. }
  induction xs as [|y xs IH]; [by apply elem_of_nil in Hx |].
  apply elem_of_cons in Hx as [<- | Hx].
  - rewrite filter_cons_False, filter_cons_True by done. simpl.
    specialize (Hle xs). lia.
  - rewrite !filter_cons. specialize (IH Hx).
    destruct (decide (P y)) as [Hy | ?].
    + rewrite decide_True by auto. simpl. lia.
    + case_decide; simpl; lia.
Qed.

Lemma countAhead_lt l p q :
  p ∈ l → ahead p q → countAhead p l < countAhead q l.
Proof.
  intros Hp Hpq. unfold countAhead. apply inj_lt.
  apply (filter_length_lt _ _ l p); [| done | done | apply ahead_irrefl].
  intros y Hy. by eapply ahead_trans.
Qed.

Lemma countAhead_tied l p q : tiedWith p q → countAhead p l = countAhead q l.
Proof.
  intros Htied. unfold countAhead. do 2 f_equal.
  apply list_filter_iff. intros y. symmetry. by apply ahead_tied.
Qed.

Lemma rankPlayers_compare t i j p q rp rq :
  rankPlayers t !! i = Some p → rankPlayers t !! j = Some q →
  rank p = Some rp → rank q = Some rq →
  (rp < rq ↔ ahead p q) ∧ (rp = rq ↔ tiedWith p q).
Proof.
  intros Hp Hq Hrp Hrq.
  rewrite (rankPlayers_count t i p Hp) in Hrp. injection Hrp as <-.
  rewrite (rankPlayers_count t j q Hq) in Hrq. injection Hrq as <-.
  pose proof (list_elem_of_lookup_2 _ _ _ Hp) as Hpin.
  pose proof (list_elem_of_lookup_2 _ _ _ Hq) as Hqin.
  assert (ahead p q → countAhead p (rankPlayers t) < countAhead q (rankPlayers t))
    as H1 by (by apply countAhead_lt).
  assert (ahead q p → countAhead q (rankPlayers t) < countAhead p (rankPlayers t))
    as H2 by (by apply countAhead_lt).
  assert (tiedWith p q →
          countAhead p (rankPlayers t) = countAhead q (rankPlayers t))
    as H3 by apply countAhead_tied.
  destruct (standing_cases p q) as [Ha | [Ht | Hb]];
    [specialize (H1 Ha) | specialize (H3 Ht) | specialize (H2 Hb)];
    (split; split; intros; try done; try lia;
     exfalso; unfold ahead, tiedWith in *; lia).
Qed.

End standing.

(** X11: the rank of a player is one more than the number of players who
    are ahead, that is, who have more total points, or as many points and
    more wins. *)
Theorem rank_counts_players_ahead {host : Collation}
    (t : Tournament) (i : nat) (p : PlayerStats) :
  rankPlayers t !! i = Some p →
  rank p = Some (1 + countAhead p (rankPlayers t)).
Proof. apply rankPlayers_count. Qed.

Section rank_counts_witness_example.

#[local] Existing Instance clubCollation.

(** After the first round of [clubNight] four players are ahead of the
    fifth. *)
Lemma rank_counts_witness :
  ∃ p, rankPlayers clubFirstRound !! 4%nat = Some p ∧
       countAhead p (rankPlayers clubFirstRound) = 4 ∧
       rank p = Some (1 + countAhead p (rankPlayers clubFirstRound)).
Proof.
  destruct (rankPlayers clubFirstRound !! 4%nat) as [p |] eqn:Hp;
    [| vm_compute in Hp; discriminate].
  exists p. split; [reflexivity |].
  split; [vm_compute in Hp; injection Hp as <-; reflexivity |].
  exact (rank_counts_players_ahead clubFirstRound 4 p Hp).
Defined.

End rank_counts_witness_example.

(** X12: the ranks order the players as their points and wins do: of two
    players of the ranking, one has the smaller rank exactly when it is
    ahead of the other, and they have the same rank exactly when their total
    points and their wins are the same. *)
Theorem ranks_follow_points_and_wins {host : Collation}
    (t : Tournament) (i j : nat) (p q : PlayerStats) (rp rq : Z) :
  rankPlayers t !! i = Some p → rankPlayers t !! j = Some q →
  rank p = Some rp → rank q = Some rq →
  (rp < rq ↔ ahead p q) ∧ (rp = rq ↔ tiedWith p q).
Proof. apply rankPlayers_compare. Qed.

Section ranks_follow_witness_example.

#[local] Existing Instance clubCollation.

(** In [clubNight] Ann has rank 1 and Gus rank 2. *)
Lemma ranks_follow_witness :
  ∃ p q,
    rankPlayers clubNight !! 0%nat = Some p ∧
    rankPlayers clubNight !! 1%nat = Some q ∧
    rank p = Some 1 ∧ rank q = Some 2 ∧
    (1 < 2 ↔ ahead p q) ∧ (1 = 2 ↔ tiedWith p q).
Proof.
  destruct (rankPlayers clubNight !! 0%nat) as [p |] eqn:Hp;
    [| vm_compute in Hp; discriminate].
  destruct (rankPlayers clubNight !! 1%nat) as [q |] eqn:Hq;
    [| vm_compute in Hq; discriminate].
  assert (rank p = Some 1) as Hrp
    by (vm_compute in Hp; injection Hp as <-; reflexivity).
  assert (rank q = Some 2) as Hrq
    by (vm_compute in Hq; injection Hq as <-; reflexivity).
  exists p, q. split; [reflexivity |]. split; [reflexivity |].
  split; [exact Hrp |]. split; [exact Hrq |].
  exact (ranks_follow_points_and_wins clubNight 0 1 p q 1 2 Hp Hq Hrp Hrq).
Defined.

End ranks_follow_witness_example.

(** X13: the ranking lists the declared players, each of them once and no
    one else, except that a player named [__proto__] is not listed: the
    names in [rankPlayers] are without repetition, and a name is among them
    exactly when it is declared and is not [__proto__].  With distinct
    players the ranking is as long as the list of players exactly when none
    of them is named [__proto__]. *)
Theorem ranking_lists_each_player_once {host : Collation} (t : Tournament) :
  NoDup (name <$> rankPlayers t) ∧
  (∀ p, p ∈ name <$> rankPlayers t ↔
        p ∈ players t ∧ p ≠ "__proto__"%string) ∧
  (NoDup (players t) →
   (length (rankPlayers t) = length (players t) ↔
    "__proto__"%string ∉ players t)).
Proof.
  split; [apply rankPlayers_names |]. split; [apply rankPlayers_names |].
  intros Hnd. split.
  - intros Hlen Hproto.
    rewrite rankPlayers_length_keys, statsKeys_length in Hlen by done.
    assert (players t ≡ₚ
            filter (λ p, p = "__proto__"%string) (players t) ++
            filter (λ p, p ≠ "__proto__"%string) (players t)) as Hsplit
      by (by rewrite filter_app_complement).
    apply Permutation_length in Hsplit. rewrite length_app in Hsplit.
    assert ("__proto__"%string ∈
            filter (λ p, p = "__proto__"%string) (players t)) as Hin
      by (by apply list_elem_of_filter).
    destruct (filter (λ p, p = "__proto__"%string) (players t));
      [by apply elem_of_nil in Hin | simpl in Hsplit; lia].
  - by apply rankPlayers_length.
Qed.

Section ranking_lists_witness_example.

#[local] Existing Instance clubCollation.

(** The eight players of [clubNight], and seven of the eight players of
    [protoNight]. *)
Lemma ranking_lists_witness :
  NoDup (players clubNight) ∧ NoDup (players protoNight) ∧
  length (rankPlayers clubNight) = 8%nat ∧
  length (rankPlayers protoNight) = 7%nat ∧
  ("__proto__"%string ∈ players protoNight) ∧
  (length (rankPlayers clubNight) = length (players clubNight) ↔
   "__proto__"%string ∉ players clubNight).
Proof.
  assert (NoDup (players clubNight)) as Hnd
    by (apply (bool_decide_unpack _); vm_compute; exact I).
  assert (NoDup (players protoNight)) as Hnd'
    by (apply (bool_decide_unpack _); vm_compute; exact I).
  split; [exact Hnd |]. split; [exact Hnd' |].
  split; [vm_compute; reflexivity |]. split; [vm_compute; reflexivity |].
  split; [apply (bool_decide_unpack _); vm_compute; exact I |].
  exact (proj2 (proj2 (ranking_lists_each_player_once clubNight)) Hnd).
Defined.

End ranking_lists_witness_example.

(** ** The creation of a tournament *)

Section created.

Context {host : Collation}.

Variables (trim toLowerCase : string → string).

Implicit Types (ps : list string) (t : Tournament).

Lemma size_list_to_set_le ps : (size (list_to_set ps : gset string) ≤ length ps)%nat.
Proof.
  induction ps as [|p ps IH]; [done |].
  rewrite list_to_set_cons, size_union_alt, size_singleton. simpl.
  assert (list_to_set ps ∖ {[p]} ⊆ (list_to_set ps : gset string)) as Hsub
    by apply subseteq_difference_l, reflexivity.
  apply subseteq_size in Hsub. lia.
Qed.

Lemma size_list_to_set_NoDup ps :
  size (list_to_set ps : gset string) = length ps → NoDup ps.
Proof.
  induction ps as [|p ps IH]; [constructor |].
  rewrite list_to_set_cons. simpl.
  intros Hsize. pose proof (size_list_to_set_le ps).
  destruct (decide (p ∈ ps)) as [Hin | Hout].
  - assert ({[p]} ∪ list_to_set ps = (list_to_set ps : gset string)) as Heq.
    { apply subseteq_union_1_L, singleton_subseteq_l.
      by apply elem_of_list_to_set. }
    rewrite Heq in Hsize. lia.
  - rewrite size_union, size_singleton in Hsize
      by (apply disjoint_singleton_l; by rewrite elem_of_list_to_set).
    constructor; [done |]. apply IH. lia.
Qed.

Lemma size_list_to_set_iff ps :
  size (list_to_set ps : gset string) = length ps ↔ NoDup ps.
Proof. split; [apply size_list_to_set_NoDup | apply size_list_to_set]. Qed.

Lemma emptyNames_none ps :
  (0 <? length (filter (λ p, p = ""%string ∨ trim p = ""%string) ps))%nat = false ↔
  ∀ p, p ∈ ps → p ≠ ""%string ∧ trim p ≠ ""%string.
Proof.
  rewrite Nat.ltb_ge. split.
  - intros Hlen p Hp.
    destruct (decide (p = ""%string ∨ trim p = ""%string)) as [Hbad | ?];
      [| tauto].
    assert (p ∈ filter (λ p, p = ""%string ∨ trim p = ""%string) ps) as Hin
      by (by apply list_elem_of_filter).
    destruct (filter _ ps); [by apply elem_of_nil in Hin | simpl in Hlen; lia].
  - intros Hall. rewrite filter_none; [done |].
    apply Forall_forall. intros p Hp. specialize (Hall p Hp). tauto.
Qed.

Lemma isValidPlayerCount_length ps :
  isValidPlayerCount (Z.of_nat (length ps)) = true ↔
  length ps ∈ [8; 12; 16]%nat.
Proof.
  unfold isValidPlayerCount. rewrite bool_decide_eq_true.
  rewrite !elem_of_cons, !elem_of_nil. lia.
Qed.

Lemma validatePlayers_valid ps :
  isValid (validatePlayers trim toLowerCase ps) = true ↔
  (∀ p, p ∈ ps → p ≠ ""%string ∧ trim p ≠ ""%string) ∧
  NoDup ((λ p, toLowerCase (trim p)) <$> ps) ∧
  length ps ∈ [8; 12; 16]%nat.
Proof.
  rewrite <- emptyNames_none, <- size_list_to_set_iff, length_fmap.
  rewrite <- isValidPlayerCount_length, <- Nat.eqb_eq.
  unfold validatePlayers.
  destruct (0 <? _)%nat; simpl; [split; [done | by intros [? _]] |].
  destruct (_ =? _)%nat; simpl; [| split; [done | by intros (_ & ? & _)]].
  destruct (isValidPlayerCount _); simpl; [done |].
  split; [done | by intros (_ & _ & ?)].
Qed.

Lemma validatePlayers_error ps :
  let v := validatePlayers trim toLowerCase ps in
  let named := ∀ p, p ∈ ps → p ≠ ""%string ∧ trim p ≠ ""%string in
  let distinct := NoDup ((λ p, toLowerCase (trim p)) <$> ps) in
  (¬ named → error v = Some "All player names must be non-empty"%string) ∧
  (named → ¬ distinct →
   error v = Some "All player names must be unique"%string) ∧
  (named → distinct → length ps ∉ [8; 12; 16]%nat →
   error v = Some "Must have exactly 8, 12, or 16 players"%string) ∧
  (isValid v = true → error v = None).
Proof.
  simpl.
  rewrite <- emptyNames_none, <- size_list_to_set_iff, length_fmap.
  rewrite <- isValidPlayerCount_length, <- Nat.eqb_eq.
  unfold validatePlayers.
  destruct (0 <? _)%nat; simpl; [by repeat split |].
  destruct (_ =? _)%nat; simpl; [| by repeat split].
  destruct (isValidPlayerCount _); simpl; by repeat split.
Qed.

(** A tournament that was created has valid players. *)
Lemma createTournament_Ret now now' name date ps descr t :
  createTournament trim toLowerCase now now' name date ps descr = Ret t →
  t = mkTournament name (default ""%string descr) date (trim <$> ps) []
                   now now' ∧
  NoDup (players t) ∧ length (players t) ∈ [8; 12; 16]%nat.
Proof.
  unfold createTournament.
  destruct (isValid _) eqn:Hvalid; simpl; [| done].
  intros [= <-]. split; [done |]. simpl.
  apply validatePlayers_valid in Hvalid as (_ & Hnd & Hlen).
  split; [| by rewrite length_fmap].
  rewrite (list_fmap_compose trim toLowerCase) in Hnd.
  by apply NoDup_fmap_1 in Hnd.
Qed.

Lemma createTournament_Throw now now' name date ps descr e :
  createTournament trim toLowerCase now now' name date ps descr = Throw e →
  isValid (validatePlayers trim toLowerCase ps) = false ∧
  ∃ msg, error (validatePlayers trim toLowerCase ps) = Some msg ∧ e = Error msg.
Proof.
  unfold createTournament.
  destruct (isValid _) eqn:Hvalid; simpl; [done |].
  intros [= <-]. split; [done |].
  unfold validatePlayers in *. repeat case_match; simplify_eq/=; eauto.
Qed.

End created.

(** ** Shuffling *)

Section shuffled.

Context {host : Collation}.

Context {A : Type}.

Implicit Types (l : list A).

Lemma swap_Permutation i j l : swap i j l ≡ₚ l.
Proof.
  unfold swap.
  destruct (l !! i) as [x |] eqn:Hi; [| done].
  destruct (l !! j) as [y |] eqn:Hj; [| done].
  by apply Permutation_insert_swap.
Qed.

Lemma shuffleLoop_Permutation random i l : shuffleLoop random i l ≡ₚ l.
Proof.
  revert l. induction i as [|i IH]; intros l; simpl; [done |].
  by rewrite IH, swap_Permutation.
Qed.

Lemma shuffleArray_Permutation random l : shuffleArray random l ≡ₚ l.
Proof. apply shuffleLoop_Permutation. Qed.

End shuffled.

(** ** The first round *)

Section first_round.

Context {host : Collation}.

Implicit Types (ps : list string) (t : Tournament).

Lemma renumber_initialLoop k i mid ps :
  renumber (mid - 1) (initialLoop k i mid ps) = initialLoop k i mid ps.
Proof.
  unfold renumber. apply list_eq. intros j. rewrite list_lookup_imap.
  destruct (decide (j < k)%nat) as [Hj | Hj].
  - rewrite initialLoop_lookup by done. simpl. unfold set_id. simpl.
    do 2 f_equal. lia.
  - rewrite lookup_ge_None_2; [done |]. rewrite initialLoop_length. lia.
Qed.

Lemma renumber_createInitialPairings ps :
  renumber 0 (createInitialPairings ps) = createInitialPairings ps.
Proof. apply (renumber_initialLoop _ 0 1). Qed.

Lemma createInitialPairings_lookup ps j :
  (j < iterations (length ps))%nat →
  createInitialPairings ps !! j =
  Some (mkMatch (Z.of_nat j + 1)
          (ps !! (4 * j)%nat) (ps !! (4 * j + 3)%nat)
          (ps !! (4 * j + 1)%nat) (ps !! (4 * j + 2)%nat) Null Null).
Proof.
  intros Hj. unfold createInitialPairings.
  rewrite initialLoop_lookup by done. do 2 f_equal. lia.
Qed.

Lemma createInitialPairings_pairsQuartets ps :
  NoDup ps → Nat.divide 4 (length ps) →
  pairsQuartets ps (createInitialPairings ps).
Proof.
  intros Hnd [k Hk]. unfold createInitialPairings.
  rewrite Hk, (Nat.mul_comm k 4), iterations_quartets.
  apply initialLoop_pairsQuartets; [done | lia].
Qed.

Lemma valid_count_divide (n : nat) : n ∈ [8; 12; 16]%nat → Nat.divide 4 n.
Proof. intros [k ->]%valid_count_quartets. exists k. lia. Qed.

End first_round.

Section pairing_edges.

Context {host : Collation}.

Implicit Types (ps : list string) (t : Tournament).

Lemma createInitialPairings_length ps :
  length (createInitialPairings ps) = iterations (length ps).
Proof. apply initialLoop_length. Qed.

Lemma createInitialPairings_ids ps :
  id <$> createInitialPairings ps =
  seqZ 1 (Z.of_nat (length (createInitialPairings ps))).
Proof.
  rewrite <- (renumber_createInitialPairings ps) at 1.
  by rewrite renumber_ids.
Qed.

Lemma createInitialPairings_unscored ps m :
  m ∈ createInitialPairings ps → team1Score m = Null ∧ team2Score m = Null.
Proof.
  intros (j & Hj)%list_elem_of_lookup.
  rewrite createInitialPairings_lookup in Hj.
  - by injection Hj as <-.
  - apply lookup_lt_Some in Hj. by rewrite createInitialPairings_length in Hj.
Qed.

Lemma createInitialPairings_full ps :
  (∀ m slot, m ∈ createInitialPairings ps → slot ∈ participants m →
             is_Some slot) ↔
  Nat.divide 4 (length ps).
Proof.
  split.
  - intros Hfull.
    destruct (iterations_spec (length ps)) as [Hlo Hhi].
    destruct (iterations (length ps)) as [|j] eqn:Hn.
    { exists 0%nat. lia. }
    destruct (decide (length ps = 4 * S j)%nat) as [Heq | Hne].
    { exists (S j). lia. }
    assert (createInitialPairings ps !! j =
            Some (mkMatch (Z.of_nat j + 1)
                    (ps !! (4 * j)%nat) (ps !! (4 * j + 3)%nat)
                    (ps !! (4 * j + 1)%nat) (ps !! (4 * j + 2)%nat) Null Null))
      as Hlast by (apply createInitialPairings_lookup; lia).
    apply list_elem_of_lookup_2 in Hlast.
    destruct (Hfull _ (ps !! (4 * j + 3)%nat) Hlast) as [p Hp].
    { unfold participants. simpl. by repeat constructor. }
    apply lookup_lt_Some in Hp. lia.
  - intros Hdiv m slot Hm Hslot.
    assert (slot ∈ Some <$> ps) as Hin.
    { rewrite <- (createInitialPairings_participants ps Hdiv).
      apply list_elem_of_join. exists (participants m). split; [done |].
      by apply list_elem_of_fmap_2. }
    apply list_elem_of_fmap in Hin as (p & -> & _). eauto.
Qed.

Lemma renumber_unscored maxId ms m :
  (∀ m', m' ∈ ms → team1Score m' = Null ∧ team2Score m' = Null) →
  m ∈ renumber maxId ms → team1Score m = Null ∧ team2Score m = Null.
Proof.
  intros Hms (j & Hj)%list_elem_of_lookup. unfold renumber in Hj.
  rewrite list_lookup_imap in Hj.
  destruct (ms !! j) as [m' |] eqn:Hm'; simplify_eq/=.
  apply Hms. by eapply list_elem_of_lookup_2.
Qed.

(** The round that [generateNextRound] returns. *)
Lemma generateNextRound_fresh t next :
  generateNextRound t = Ret (Some next) →
  roundNumber next = Z.of_nat (length (rounds t)) + 1 ∧
  id <$> matches next =
    seqZ (maxMatchId (rounds t) + 1) (Z.of_nat (length (matches next))) ∧
  ∀ m, m ∈ matches next → team1Score m = Null ∧ team2Score m = Null.
Proof.
  intros (_ & ms & -> & Hms)%generateNextRound_Some. cbn [roundNumber matches].
  split; [done |]. split.
  - rewrite renumber_ids. unfold renumber. by rewrite length_imap.
  - intros m. apply renumber_unscored.
    destruct Hms as [[_ ->] | [_ [_ ->]%createMexicanoPairings_Ret]];
      apply createInitialPairings_unscored.
Qed.

End pairing_edges.

(** X14: [validatePlayers] accepts a list of names exactly when no name is
    empty or blank, the trimmed names are distinct without regard to case,
    and there are 8, 12 or 16 of them.  A rejected list is reported with the
    message of the first of these three checks that fails, and an accepted
    one carries no message. *)
Theorem validatePlayers_accepts_iff
    (trim toLowerCase : string → string) (ps : list string) :
  let v := validatePlayers trim toLowerCase ps in
  let named := ∀ p, p ∈ ps → p ≠ ""%string ∧ trim p ≠ ""%string in
  let distinct := NoDup ((λ p, toLowerCase (trim p)) <$> ps) in
  (isValid v = true ↔ named ∧ distinct ∧ length ps ∈ [8; 12; 16]%nat) ∧
  (¬ named → error v = Some "All player names must be non-empty"%string) ∧
  (named → ¬ distinct →
   error v = Some "All player names must be unique"%string) ∧
  (named → distinct → length ps ∉ [8; 12; 16]%nat →
   error v = Some "Must have exactly 8, 12, or 16 players"%string) ∧
  (isValid v = true → error v = None).
Proof.
  split; [apply validatePlayers_valid | apply validatePlayers_error].
Qed.

(** Ann and ann, with other six names, are not distinct. *)
Lemma validatePlayers_witness :
  let ps := ["Ann"; "ann "; "Cat"; "Dan"; "Eve"; "Fay"; "Gus"; "Hal"]%string in
  (∀ p, p ∈ ps → p ≠ ""%string ∧ asciiTrim p ≠ ""%string) ∧
  ¬ NoDup ((λ p, asciiLowerCase (asciiTrim p)) <$> ps) ∧
  error (validatePlayers asciiTrim asciiLowerCase ps) =
    Some "All player names must be unique"%string.
Proof.
  set (ps := ["Ann"; "ann "; "Cat"; "Dan"; "Eve"; "Fay"; "Gus"; "Hal"]%string).
  assert (∀ p, p ∈ ps → p ≠ ""%string ∧ asciiTrim p ≠ ""%string) as Hnamed.
  { intros p Hp.
    assert (Forall (λ p, p ≠ ""%string ∧ asciiTrim p ≠ ""%string) ps) as Hall
      by (apply (bool_decide_unpack _); vm_compute; exact I).
    rewrite Forall_forall in Hall. by apply Hall. }
  assert (¬ NoDup ((λ p, asciiLowerCase (asciiTrim p)) <$> ps)) as Hdup
    by (apply (bool_decide_unpack _); vm_compute; exact I).
  split; [exact Hnamed |]. split; [exact Hdup |].
  exact (proj1 (proj2 (proj2
           (validatePlayers_accepts_iff asciiTrim asciiLowerCase ps)))
           Hnamed Hdup).
Defined.

(** X15: a tournament that [createTournament] returns has the given name,
    date and description, the trimmed names as players, no round, and the
    two readings of the clock as times; its players are distinct and 8, 12
    or 16 in number.  When [createTournament] throws, it throws the message
    of [validatePlayers]. *)
Theorem createTournament_gives_valid_players
    (trim toLowerCase : string → string) (now now' : Z) (name : string)
    (date : Z) (ps : list string) (descr : option string) :
  (∀ t, createTournament trim toLowerCase now now' name date ps descr = Ret t →
        t = mkTournament name (default ""%string descr) date (trim <$> ps) []
                         now now' ∧
        NoDup (players t) ∧ length (players t) ∈ [8; 12; 16]%nat) ∧
  (∀ e, createTournament trim toLowerCase now now' name date ps descr = Throw e →
        isValid (validatePlayers trim toLowerCase ps) = false ∧
        ∃ msg, error (validatePlayers trim toLowerCase ps) = Some msg ∧
               e = Error msg).
Proof.
  split; [apply createTournament_Ret | apply createTournament_Throw].
Qed.

(** The entries of the club, trimmed, are the players of [clubNight]. *)
Lemma createTournament_witness :
  ∃ t,
    createTournament asciiTrim asciiLowerCase 0 0 "Club night" 20000
                     clubEntries None = Ret t ∧
    players t = clubPlayers ∧
    NoDup (players t) ∧ length (players t) ∈ [8; 12; 16]%nat.
Proof.
  destruct (createTournament asciiTrim asciiLowerCase 0 0 "Club night" 20000
                             clubEntries None) as [t | e] eqn:Hcreate;
    [| vm_compute in Hcreate; discriminate].
  exists t. split; [reflexivity |].
  destruct (proj1 (createTournament_gives_valid_players
                     asciiTrim asciiLowerCase 0 0 "Club night" 20000
                     clubEntries None) t Hcreate) as (Ht & Hnd & Hlen).
  split; [| split; [exact Hnd | exact Hlen]].
  rewrite Ht. reflexivity.
Defined.

(** X16: [shuffleArray] returns the elements of the array in some order:
    when each draw is at most the index of its iteration, the result is a
    permutation of the array, of the same length. *)
Theorem shuffleArray_permutes
    {A : Type} (random : nat → nat) (array : list A) :
  (∀ i, (random i ≤ i)%nat) →
  shuffleArray random array ≡ₚ array ∧
  length (shuffleArray random array) = length array.
Proof.
  intros _. split; [apply shuffleArray_Permutation |].
  by rewrite shuffleArray_Permutation.
Qed.

Lemma shuffleArray_witness :
  (∀ i, (clubDraws i ≤ i)%nat) ∧
  shuffleArray clubDraws clubPlayers =
    ["Hal"; "Ann"; "Bob"; "Cat"; "Dan"; "Eve"; "Fay"; "Gus"]%string ∧
  shuffleArray clubDraws clubPlayers ≡ₚ clubPlayers ∧
  length (shuffleArray clubDraws clubPlayers) = length clubPlayers.
Proof.
  assert (∀ i, (clubDraws i ≤ i)%nat) as Hdraws.
  { intros i. unfold clubDraws.
    pose proof (Nat.mod_upper_bound (3 * i + 1) (i + 1)). lia. }
  split; [exact Hdraws |]. split; [vm_compute; reflexivity |].
  exact (shuffleArray_permutes clubDraws clubPlayers Hdraws).
Defined.

(** X17: the first round seats everyone: for a tournament that
    [createTournament] returned, with its players shuffled,
    [generateNextRound] returns round 1; its matches are numbered from 1 and
    pair the shuffled players in groups of four, every player in exactly one
    match. *)
Theorem first_round_seats_everyone {host : Collation}
    (trim toLowerCase : string → string) (now now' : Z) (name : string)
    (date : Z) (ps : list string) (descr : option string)
    (random : nat → nat) (t : Tournament) :
  createTournament trim toLowerCase now now' name date ps descr = Ret t →
  (∀ i, (random i ≤ i)%nat) →
  let t1 := set_players (shuffleArray random (players t)) t in
  players t1 ≡ₚ trim <$> ps ∧
  ∃ round1,
    generateNextRound t1 = Ret (Some round1) ∧
    roundNumber round1 = 1 ∧
    pairsQuartets (players t1) (matches round1) ∧
    id <$> matches round1 = seqZ 1 (Z.of_nat (length (matches round1))).
Proof.
  intros (-> & Hnd & Hlen)%createTournament_Ret _. cbn [players] in *.
  cbn [set_players players].
  split; [apply shuffleArray_Permutation |].
  rewrite generateNextRound_first by done. eexists. split; [done |].
  cbn [roundNumber matches players set_players].
  rewrite renumber_createInitialPairings.
  split; [done |]. split; [| apply createInitialPairings_ids].
  apply createInitialPairings_pairsQuartets.
  - by rewrite shuffleArray_Permutation.
  - rewrite shuffleArray_Permutation. by apply valid_count_divide.
Qed.

Section first_round_witness_example.

#[local] Existing Instance clubCollation.

Lemma first_round_witness :
  ∃ t,
    createTournament asciiTrim asciiLowerCase 0 0 "Club night" 20000
                     clubEntries None = Ret t ∧
    (∀ i, (clubDraws i ≤ i)%nat) ∧
    let t1 := set_players (shuffleArray clubDraws (players t)) t in
    players t1 ≡ₚ asciiTrim <$> clubEntries ∧
    ∃ round1,
      generateNextRound t1 = Ret (Some round1) ∧
      roundNumber round1 = 1 ∧
      pairsQuartets (players t1) (matches round1) ∧
      id <$> matches round1 = seqZ 1 (Z.of_nat (length (matches round1))).
Proof.
  destruct (createTournament asciiTrim asciiLowerCase 0 0 "Club night" 20000
                             clubEntries None) as [t | e] eqn:Hcreate;
    [| vm_compute in Hcreate; discriminate].
  assert (∀ i, (clubDraws i ≤ i)%nat) as Hdraws.
  { intros i. unfold clubDraws.
    pose proof (Nat.mod_upper_bound (3 * i + 1) (i + 1)). lia. }
  exists t. split; [reflexivity |]. split; [exact Hdraws |].
  exact (first_round_seats_everyone
           asciiTrim asciiLowerCase 0 0 "Club night" 20000 clubEntries None
           clubDraws t Hcreate Hdraws).
Defined.

End first_round_witness_example.

(** X18: [createMexicanoPairings] returns exactly when the number of ranked
    players is divisible by four, and then pairs their names as
    [createInitialPairings] pairs players; otherwise it throws a
    [TypeError]. *)
Theorem createMexicanoPairings_returns_iff (ranked : list PlayerStats) :
  (Nat.divide 4 (length ranked) →
   createMexicanoPairings ranked =
   Ret (createInitialPairings (name <$> ranked))) ∧
  (¬ Nat.divide 4 (length ranked) →
   createMexicanoPairings ranked = Throw TypeError).
Proof.
  split; [apply createMexicanoPairings_quartets |
          apply createMexicanoPairings_throws].
Qed.

Section createMexicanoPairings_witness_example.

#[local] Existing Instance clubCollation.

(** Eight ranked players are paired; the first five of them are not. *)
Lemma createMexicanoPairings_witness :
  Nat.divide 4 (length (rankPlayers clubNight)) ∧
  createMexicanoPairings (rankPlayers clubNight) =
    Ret (createInitialPairings (name <$> rankPlayers clubNight)) ∧
  ¬ Nat.divide 4 (length (take 5 (rankPlayers clubNight))) ∧
  createMexicanoPairings (take 5 (rankPlayers clubNight)) = Throw TypeError.
Proof.
  assert (Nat.divide 4 (length (rankPlayers clubNight))) as Hdiv
    by (exists 2%nat; vm_compute; reflexivity).
  assert (¬ Nat.divide 4 (length (take 5 (rankPlayers clubNight)))) as Hndiv.
  { assert (length (take 5 (rankPlayers clubNight)) = 5%nat) as ->
      by (vm_compute; reflexivity).
    intros [k Hk]. lia. }
  split; [exact Hdiv |].
  split; [exact (proj1 (createMexicanoPairings_returns_iff _) Hdiv) |].
  split; [exact Hndiv |].
  exact (proj2 (createMexicanoPairings_returns_iff _) Hndiv).
Defined.

End createMexicanoPairings_witness_example.

(** X19: [createInitialPairings] makes one match for every four players
    begun: the number of matches times four is at least the number of
    players and less than four more; the matches are numbered from 1 and
    have no scores.  All participants are defined exactly when the number of
    players is divisible by four. *)
Theorem createInitialPairings_shape (ps : list string) :
  let ms := createInitialPairings ps in
  (length ps ≤ 4 * length ms < length ps + 4)%nat ∧
  id <$> ms = seqZ 1 (Z.of_nat (length ms)) ∧
  (∀ m, m ∈ ms → team1Score m = Null ∧ team2Score m = Null) ∧
  ((∀ m slot, m ∈ ms → slot ∈ participants m → is_Some slot) ↔
   Nat.divide 4 (length ps)).
Proof.
  simpl. rewrite createInitialPairings_length.
  pose proof (iterations_spec (length ps)).
  split; [lia |]. split; [| split].
  - rewrite <- createInitialPairings_length. apply createInitialPairings_ids.
  - apply createInitialPairings_unscored.
  - apply createInitialPairings_full.
Qed.

(** X20: with match numbers in the range of the integers that a double
    holds exactly (the highest number plus the number of players is at most
    2^53), [addNextRound] refuses, with its message and without a write,
    when the last round has an incomplete match.  When it returns, the last
    round was complete or absent, and the tournament has exactly one round
    more, after the rounds it had: numbered with their number plus one, its
    matches numbered upwards from the highest match number so far, and
    without scores. *)
Theorem addNextRound_appends_one_round {host : Collation}
    (now : Z) (t : Tournament) :
  idsInRange t →
  (canStartNextRound t = false →
   addNextRound now t =
   (Throw (Error "Cannot start next round: current round is not complete"),
    t)) ∧
  (∀ t', addNextRound now t = (Ret (), t') →
     canStartNextRound t = true ∧
     ∃ next,
       t' = set_updatedAt now (set_rounds (rounds t ++ [next]) t) ∧
       roundNumber next = Z.of_nat (length (rounds t)) + 1 ∧
       id <$> matches next =
         seqZ (maxMatchId (rounds t) + 1)
              (Z.of_nat (length (matches next))) ∧
       ∀ m, m ∈ matches next → team1Score m = Null ∧ team2Score m = Null).
Proof.
  intros _. split.
  - intros Hcan%generateNextRound_null. unfold addNextRound. by rewrite Hcan.
  - intros t' Hadd.
    destruct (addNextRound_rounds now t) as [[_ [e He]] | (next & Hgen & Heq)].
    { rewrite Hadd in He. done. }
    rewrite Heq in Hadd. injection Hadd as <-.
    pose proof (generateNextRound_Some _ _ Hgen) as [Hcan _].
    split; [done |]. exists next. split; [done |].
    by apply generateNextRound_fresh.
Qed.

Section addNextRound_witness_example.

#[local] Existing Instance clubCollation.

(** A fourth round is added to [clubNight], with the matches 7 and 8. *)
Lemma addNextRound_witness :
  idsInRange clubNight ∧
  ∃ t',
    addNextRound 9 clubNight = (Ret (), t') ∧
    canStartNextRound clubNight = true ∧
    ∃ next,
      t' = set_updatedAt 9 (set_rounds (rounds clubNight ++ [next]) clubNight) ∧
      roundNumber next = Z.of_nat (length (rounds clubNight)) + 1 ∧
      id <$> matches next =
        seqZ (maxMatchId (rounds clubNight) + 1)
             (Z.of_nat (length (matches next))) ∧
      ∀ m, m ∈ matches next → team1Score m = Null ∧ team2Score m = Null.
Proof.
  assert (idsInRange clubNight) as Hrange
    by (apply (bool_decide_unpack _); vm_compute; exact I).
  split; [exact Hrange |].
  destruct (addNextRound 9 clubNight) as [[[] | e] t'] eqn:Hadd;
    [| vm_compute in Hadd; discriminate].
  exists t'. split; [reflexivity |].
  exact (proj2 (addNextRound_appends_one_round 9 clubNight Hrange) t' Hadd).
Defined.

End addNextRound_witness_example.

(** ** The tournament in hand *)

Section app.

Context {host : Collation}.

Variables trim toLowerCase : string → string.

Implicit Types (t : Tournament) (rs : list Round) (ms : list Match).

Lemma foldl_max_seqZ (n : nat) :
  foldl Z.max 0 (seqZ 1 (Z.of_nat n)) = Z.of_nat n.
Proof.
  induction n as [|n IH]; [done |].
  rewrite seqZ_S, foldl_app, IH. simpl. lia.
Qed.

Lemma idsInOrder_max rs :
  idsInOrder rs → maxMatchId rs = Z.of_nat (length (flat_map matches rs)).
Proof. intros H. rewrite maxMatchId_ids, H. apply foldl_max_seqZ. Qed.

Lemma idsInOrder_snoc rs n ms :
  idsInOrder rs →
  idsInOrder (rs ++ [mkRound n (renumber (maxMatchId rs) ms)]).
Proof.
  intros H. unfold idsInOrder.
  rewrite flat_map_snoc, fmap_app, length_app. cbn [matches].
  rewrite renumber_ids, H, (idsInOrder_max _ H), Nat2Z.inj_add, seqZ_app
    by lia.
  unfold renumber. rewrite length_imap. do 2 f_equal. lia.
Qed.

Lemma idsInOrder_prefix (l1 l2 : list Match) :
  id <$> (l1 ++ l2) = seqZ 1 (Z.of_nat (length (l1 ++ l2))) →
  id <$> l1 = seqZ 1 (Z.of_nat (length l1)).
Proof.
  rewrite fmap_app, length_app, Nat2Z.inj_add, seqZ_app by lia.
  intros H. apply app_inj_1 in H as [H _]; [done |].
  by rewrite length_fmap, length_seqZ, Nat2Z.id.
Qed.

Lemma idsInOrder_take rs n : idsInOrder rs → idsInOrder (take n rs).
Proof.
  unfold idsInOrder. intros H.
  rewrite <- (take_drop n rs), flat_map_app in H.
  by apply idsInOrder_prefix in H.
Qed.

Lemma idsInOrder_kept rs i round s1 s2 k m :
  idsInOrder rs → rs !! i = Some round → matches round !! k = Some m →
  idsInOrder (keptRounds i (withScores s1 s2 k m round) rs).
Proof.
  intros H Hr Hk. unfold idsInOrder.
  pose proof (ids_keptRounds rs i round s1 s2 k m Hr Hk) as Hids.
  assert (length (flat_map matches
                    (keptRounds i (withScores s1 s2 k m round) rs)) =
          length (flat_map matches (take (S i) rs))) as Hlen
    by (by rewrite <- (length_fmap id), Hids, length_fmap).
  rewrite Hids, Hlen. by apply idsInOrder_take.
Qed.

Lemma participants_length ms :
  length (mjoin (participants <$> ms)) = (4 * length ms)%nat.
Proof.
  induction ms as [|m ms IH]; [done |].
  change (length (mjoin (participants <$> m :: ms))) with
    (4 + length (mjoin (participants <$> ms)))%nat.
  rewrite IH. cbn [length]. lia.
Qed.

Lemma everyonePlays_courts (ps : list string) rs r :
  everyonePlays ps rs → r ∈ rs → (4 * length (matches r) = length ps)%nat.
Proof.
  intros He Hr. rewrite <- participants_length, (He r Hr).
  by rewrite length_fmap.
Qed.

(** The push of a round that [generateNextRound] returned. *)
Lemma wellFormed_push t next :
  NoDup (players t) → length (players t) ∈ [8; 12; 16]%nat →
  roundsNumbered (rounds t) → completeButLast (rounds t) →
  idsInOrder (rounds t) → everyonePlays (players t) (rounds t) →
  generateNextRound t = Ret (Some next) →
  wellFormed (set_rounds (rounds t ++ [next]) t).
Proof.
  intros Hnd Hlen Hn Hc Hi He Hgen.
  pose proof (valid_count_divide _ Hlen) as Hdiv.
  pose proof (generateNextRound_everyonePlays t next Hnd Hdiv He Hgen) as He'.
  apply generateNextRound_Some in Hgen as (Hcan & ms & -> & _).
  unfold wellFormed. cbn [set_rounds players rounds].
  split; [done |]. split; [done |].
  split; [by destruct (rounds t) |].
  split; [by apply roundsNumbered_snoc |].
  split.
  { apply completeButLast_snoc; [done |].
    apply canStartNextRound_true in Hcan as [-> | (r' & -> & ?)];
      [done | by intros ? [= <-]]. }
  split; [by apply idsInOrder_snoc |].
  split; [done |].
  intros r Hr. by eapply everyonePlays_courts.
Qed.

Lemma reachable_wellFormed t : reachable trim toLowerCase t → wellFormed t.
Proof.
  induction 1 as [now now' name date ps descr random t t1 round1
                    Hcreate _ -> Hgen
                 | now t r mid s1 s2 _ IH
                 | t lastRound nextRound _ IH _ _ Hgen
                 | now t _ IH].
  - apply createTournament_Ret in Hcreate as (Ht & Hnd & Hlen).
    assert (rounds (set_players (shuffleArray random (players t)) t) = [])
      as Hrs by (by rewrite Ht).
    apply wellFormed_push; [| | | | | | done];
      cbn [set_players players]; rewrite ?Hrs.
    + by rewrite shuffleArray_Permutation.
    + by rewrite shuffleArray_Permutation.
    + by intros [|?] ?.
    + by intros [|?] ?.
    + done.
    + by intros ? ?%elem_of_nil.
  - destruct IH as (Hnd & Hlen & Hne & Hn & Hc & Hi & He & _).
    pose proof (valid_count_divide _ Hlen) as Hdiv.
    destruct (updateMatchScore_frame now t r mid s1 s2)
      as (_ & _ & _ & Hps & _).
    cut (rounds (snd (updateMatchScore now t r mid s1 s2)) ≠ [] ∧
         roundsNumbered (rounds (snd (updateMatchScore now t r mid s1 s2))) ∧
         completeButLast (rounds (snd (updateMatchScore now t r mid s1 s2))) ∧
         idsInOrder (rounds (snd (updateMatchScore now t r mid s1 s2))) ∧
         everyonePlays (players t)
           (rounds (snd (updateMatchScore now t r mid s1 s2)))).
    { intros (? & ? & ? & ? & He'). unfold wellFormed. rewrite Hps.
      repeat (split; [done |]). intros r' Hr'. by eapply everyonePlays_courts. }
    destruct (updateMatchScore_rounds now t r mid s1 s2)
      as [-> | (round & k & m & Hlt & Hround & Hk &
                [-> | (Hcomplete & ms & Hms & ->)])]; [done | |].
    + split; [unfold keptRounds; by destruct (take _ _) |].
      split; [by apply roundsNumbered_kept |].
      split; [by apply completeButLast_kept |].
      split; [by apply idsInOrder_kept |].
      by apply everyonePlays_kept.
    + split; [unfold keptRounds; by destruct (take _ _) |].
      split; [apply roundsNumbered_snoc; by apply roundsNumbered_kept |].
      split.
      { apply completeButLast_snoc; [by apply completeButLast_kept |].
        unfold keptRounds. rewrite last_snoc. by intros ? [= <-]. }
      split; [apply idsInOrder_snoc; by apply idsInOrder_kept |].
      apply everyonePlays_snoc; [by apply everyonePlays_kept |].
      by apply (createMexicanoPairings_ranking (set_rounds _ t)) in Hms
        as [_ ?].
  - destruct IH as (Hnd & Hlen & Hne & Hn & Hc & Hi & He & _).
    by apply wellFormed_push.
  - exact IH.
Qed.

Lemma wellFormed_generateNextRound t lastRound :
  wellFormed t → "__proto__"%string ∉ players t →
  last (rounds t) = Some lastRound → isRoundComplete lastRound = true →
  ∃ nextRound, generateNextRound t = Ret (Some nextRound).
Proof.
  intros (Hnd & Hlen & Hne & _) Hproto Hlast Hcomplete.
  pose proof (valid_count_divide _ Hlen) as Hdiv.
  rewrite generateNextRound_later; [| done |].
  - rewrite createMexicanoPairings_quartets
      by (by rewrite rankPlayers_length).
    by eexists.
  - apply canStartNextRound_true. right. eauto.
Qed.

Lemma wellFormed_generateNextRound_proto t lastRound :
  wellFormed t → "__proto__"%string ∈ players t →
  last (rounds t) = Some lastRound → isRoundComplete lastRound = true →
  generateNextRound t = Throw TypeError.
Proof.
  intros (Hnd & Hlen & Hne & _) Hproto Hlast Hcomplete.
  pose proof (valid_count_divide _ Hlen) as Hdiv.
  rewrite generateNextRound_later; [| done |].
  - by rewrite createMexicanoPairings_proto.
  - apply canStartNextRound_true. right. eauto.
Qed.

Lemma wellFormed_updateMatchScore now t r mid s1 s2 :
  wellFormed t → "__proto__"%string ∉ players t →
  fst (updateMatchScore now t r mid s1 s2) = Ret () ∨
  ∃ msg, msg ∈ rejections ∧
         updateMatchScore now t r mid s1 s2 = (Throw (Error msg), t).
Proof.
  intros (Hnd & Hlen & _) Hproto.
  pose proof (valid_count_divide _ Hlen) as Hdiv.
  destruct (updateMatchScore_cases now t r mid s1 s2)
    as [? | (round & k & m & _ & _ & _ & _ & ->)]; [by right |].
  left. unfold editOutcome.
  rewrite createMexicanoPairings_quartets by (by rewrite rankPlayers_length).
  by destruct (_ && _).
Qed.

End app.

(** X21: every tournament that the handlers of the application make is
    well formed: from a tournament that [createTournament] returned,
    shuffled and given its first round, through any sequence of score
    entries and next rounds, the players are distinct and 8, 12 or 16 in
    number, there is a round, the rounds are numbered 1, 2, 3, ..., every
    round but the last is complete, the matches are numbered 1, 2, 3, ...
    across the rounds, and every round seats every player exactly once, in
    a quarter as many matches as there are players. *)
Theorem app_tournaments_are_well_formed {host : Collation}
    (trim toLowerCase : string → string) (t : Tournament) :
  reachable trim toLowerCase t →
  NoDup (players t) ∧ length (players t) ∈ [8; 12; 16]%nat ∧
  rounds t ≠ [] ∧
  roundsNumbered (rounds t) ∧ completeButLast (rounds t) ∧
  idsInOrder (rounds t) ∧ everyonePlays (players t) (rounds t) ∧
  ∀ r, r ∈ rounds t → (4 * length (matches r) = length (players t))%nat.
Proof. apply reachable_wellFormed. Qed.

Section app_tournaments_witness_example.

#[local] Existing Instance clubCollation.

(** The club's tournament, started and with a first score entered. *)
Lemma app_tournaments_witness :
  ∃ t,
    reachable asciiTrim asciiLowerCase t ∧
    (id <$> flat_map matches (rounds t) = [1; 2]) ∧
    NoDup (players t) ∧ length (players t) ∈ [8; 12; 16]%nat ∧
    rounds t ≠ [] ∧
    roundsNumbered (rounds t) ∧ completeButLast (rounds t) ∧
    idsInOrder (rounds t) ∧ everyonePlays (players t) (rounds t) ∧
    ∀ r, r ∈ rounds t → (4 * length (matches r) = length (players t))%nat.
Proof.
  set (t0 := mkTournament "Club night" "" 20000 (asciiTrim <$> clubEntries)
                          [] 0 0).
  set (t1 := set_players (shuffleArray clubDraws (players t0)) t0).
  set (round1 := mkRound 1 (renumber 0 (createInitialPairings (players t1)))).
  assert (∀ i, (clubDraws i ≤ i)%nat) as Hdraws.
  { intros i. unfold clubDraws.
    pose proof (Nat.mod_upper_bound (3 * i + 1) (i + 1)). lia. }
  assert (reachable asciiTrim asciiLowerCase
            (set_rounds (rounds t1 ++ [round1]) t1)) as Hstart.
  { apply (reach_create asciiTrim asciiLowerCase 0 0 "Club night" 20000
             clubEntries None clubDraws t0 t1 round1);
      [vm_compute; reflexivity | exact Hdraws | reflexivity |
       vm_compute; reflexivity]. }
  pose proof (reach_confirm asciiTrim asciiLowerCase 5 _ 1 2 (Num 14) (Num 11)
                Hstart) as Hedit.
  eexists. split; [exact Hedit |]. split; [vm_compute; reflexivity |].
  exact (app_tournaments_are_well_formed asciiTrim asciiLowerCase _ Hedit).
Defined.

End app_tournaments_witness_example.

(** X22: the handlers of the application never push [null], and they meet
    a [TypeError] of the engine only with a player named [__proto__].  In
    every tournament they make without such a player, [generateNextRound]
    returns a round whenever the last round is complete, and
    [updateMatchScore] returns, or throws one of its three messages and
    leaves the tournament as it was.  In every tournament they make with
    such a player, [generateNextRound] throws a [TypeError] whenever the
    last round is complete. *)
Theorem app_handlers_get_a_round {host : Collation}
    (trim toLowerCase : string → string) (t : Tournament) :
  reachable trim toLowerCase t →
  ("__proto__"%string ∉ players t →
   (∀ lastRound,
      last (rounds t) = Some lastRound → isRoundComplete lastRound = true →
      ∃ nextRound,
        generateNextRound t = Ret (Some nextRound) ∧
        reachable trim toLowerCase (set_rounds (rounds t ++ [nextRound]) t)) ∧
   (∀ now roundNum matchId team1Score team2Score,
      fst (updateMatchScore now t roundNum matchId team1Score team2Score) =
        Ret () ∨
      ∃ msg, msg ∈ rejections ∧
             updateMatchScore now t roundNum matchId team1Score team2Score =
             (Throw (Error msg), t))) ∧
  ("__proto__"%string ∈ players t →
   ∀ lastRound,
     last (rounds t) = Some lastRound → isRoundComplete lastRound = true →
     generateNextRound t = Throw TypeError).
Proof.
  intros Hreach. pose proof (reachable_wellFormed _ _ _ Hreach) as Hwf.
  split; [intros Hproto; split |].
  - intros lastRound Hlast Hcomplete.
    destruct (wellFormed_generateNextRound
                t lastRound Hwf Hproto Hlast Hcomplete) as [nextRound Hgen].
    exists nextRound. split; [done |]. by eapply reach_next.
  - intros. by apply wellFormed_updateMatchScore.
  - intros Hproto lastRound. by apply wellFormed_generateNextRound_proto.
Qed.

Section app_handlers_witness_example.

#[local] Existing Instance clubCollation.

(** The club's tournament, started. *)
Lemma app_handlers_witness :
  ∃ t,
    reachable asciiTrim asciiLowerCase t ∧
    ("__proto__"%string ∉ players t) ∧
    (∀ lastRound,
       last (rounds t) = Some lastRound → isRoundComplete lastRound = true →
       ∃ nextRound,
         generateNextRound t = Ret (Some nextRound) ∧
         reachable asciiTrim asciiLowerCase
           (set_rounds (rounds t ++ [nextRound]) t)) ∧
    (∀ now roundNum matchId team1Score team2Score,
       fst (updateMatchScore now t roundNum matchId team1Score team2Score) =
         Ret () ∨
       ∃ msg, msg ∈ rejections ∧
              updateMatchScore now t roundNum matchId team1Score team2Score =
              (Throw (Error msg), t)).
Proof.
  set (t0 := mkTournament "Club night" "" 20000 (asciiTrim <$> clubEntries)
                          [] 0 0).
  set (t1 := set_players (shuffleArray clubDraws (players t0)) t0).
  set (round1 := mkRound 1 (renumber 0 (createInitialPairings (players t1)))).
  assert (∀ i, (clubDraws i ≤ i)%nat) as Hdraws.
  { intros i. unfold clubDraws.
    pose proof (Nat.mod_upper_bound (3 * i + 1) (i + 1)). lia. }
  assert (reachable asciiTrim asciiLowerCase
            (set_rounds (rounds t1 ++ [round1]) t1)) as Hstart.
  { apply (reach_create asciiTrim asciiLowerCase 0 0 "Club night" 20000
             clubEntries None clubDraws t0 t1 round1);
      [vm_compute; reflexivity | exact Hdraws | reflexivity |
       vm_compute; reflexivity]. }
  assert ("__proto__"%string ∉
          players (set_rounds (rounds t1 ++ [round1]) t1)) as Hproto
    by (apply (bool_decide_unpack _); vm_compute; exact I).
  eexists. split; [exact Hstart |]. split; [exact Hproto |].
  exact (proj1 (app_handlers_get_a_round asciiTrim asciiLowerCase _ Hstart)
               Hproto).
Defined.

End app_handlers_witness_example.

(** C7, at a tournament of the application with a player named
    [__proto__]: the eight names are accepted, the first round is made and
    its scores are entered.  The last round is complete, and
    [generateNextRound] neither refuses nor returns a round: the ranking has
    seven entries, and reading the name of the eighth throws a
    [TypeError]. *)
Theorem generateNextRound_throws_for_proto {host : Collation} :
  reachable asciiTrim asciiLowerCase protoNight ∧
  NoDup (players protoNight) ∧ length (players protoNight) = 8%nat ∧
  (∃ r, last (rounds protoNight) = Some r ∧ isRoundComplete r = true) ∧
  length (rankPlayers protoNight) = 7%nat ∧
  generateNextRound protoNight = Throw TypeError.
Proof.
  set (t0 := mkTournament "Proto night" "" 20000 protoPlayers [] 0 0).
  set (t1 := set_players (shuffleArray (λ i, i) (players t0)) t0).
  set (round1 := mkRound 1 (renumber 0 (createInitialPairings (players t1)))).
  assert (reachable asciiTrim asciiLowerCase
            (set_rounds (rounds t1 ++ [round1]) t1)) as Hstart.
  { apply (reach_create asciiTrim asciiLowerCase 0 0 "Proto night" 20000
             protoPlayers None (λ i, i) t0 t1 round1);
      [vm_compute; reflexivity | done | reflexivity |
       vm_compute; reflexivity]. }
  pose proof (reach_confirm asciiTrim asciiLowerCase 2 _ 1 1 (Num 15) (Num 10)
                Hstart) as Hfirst.
  pose proof (reach_confirm asciiTrim asciiLowerCase 2 _ 1 2 (Num 10) (Num 15)
                Hfirst) as Hsecond.
  assert (snd (updateMatchScore 2
                 (snd (updateMatchScore 2
                         (set_rounds (rounds t1 ++ [round1]) t1)
                         1 1 (Num 15) (Num 10)))
                 1 2 (Num 10) (Num 15)) = protoNight) as Heq
    by (vm_compute; reflexivity).
  rewrite Heq in Hsecond.
  assert (NoDup (players protoNight)) as Hnd
    by (apply (bool_decide_unpack _); vm_compute; exact I).
  assert ("__proto__"%string ∈ players protoNight) as Hproto
    by (apply (bool_decide_unpack _); vm_compute; exact I).
  split; [done |]. split; [done |]. split; [done |].
  split; [by exists protoRound1 |].
  split.
  - rewrite rankPlayers_length_keys. reflexivity.
  - apply (wellFormed_generateNextRound_proto protoNight protoRound1);
      [by eapply reachable_wellFormed | done | done | done].
Qed.

(** ** The edit window *)

Lemma startOfLocalDay_east (tz day : Z) :
  0 ≤ tz < msPerDay → startOfLocalDay tz (day * msPerDay) = day * msPerDay - tz.
Proof.
  intros Htz. unfold startOfLocalDay.
  rewrite (Z.add_comm (day * msPerDay)), Z.div_add by done.
  rewrite Z.div_small by done. lia.
Qed.

Lemma startOfLocalDay_west (tz day : Z) :
  - msPerDay ≤ tz < 0 →
  startOfLocalDay tz (day * msPerDay) = (day - 1) * msPerDay - tz.
Proof.
  intros Htz. unfold startOfLocalDay.
  replace (day * msPerDay + tz)
    with ((tz + msPerDay) + (day - 1) * msPerDay) by lia.
  rewrite Z.div_add by done.
  rewrite Z.div_small by lia. lia.
Qed.

Lemma canEdit_true (tz : Z) (t : Tournament) (now : Z) :
  canEdit tz t now = true ↔ now < editDeadline tz t.
Proof. unfold canEdit. apply Z.ltb_lt. Qed.

(** X23: the edit window in local time.  Where local time is at or ahead of
    UTC by less than a day, [canEdit] holds exactly until the local clock
    reaches the start of the second day after the tournament date; where
    local time is behind UTC, by a day at most, exactly until it reaches the
    start of the first day after the tournament date.  Once [canEdit] is
    false it is false at every later time. *)
Theorem canEdit_local_window (tz : Z) (t : Tournament) (now : Z) :
  - msPerDay ≤ tz < msPerDay →
  (0 ≤ tz →
   (canEdit tz t now = true ↔ now + tz < (tournamentDate t + 2) * msPerDay)) ∧
  (tz < 0 →
   (canEdit tz t now = true ↔ now + tz < (tournamentDate t + 1) * msPerDay)) ∧
  (∀ later, now ≤ later → canEdit tz t now = false →
            canEdit tz t later = false).
Proof.
  intros Htz. split; [| split].
  - intros Hpos. rewrite canEdit_true. unfold editDeadline.
    rewrite startOfLocalDay_east by lia. lia.
  - intros Hneg. rewrite canEdit_true. unfold editDeadline.
    rewrite startOfLocalDay_west by lia. lia.
  - intros later Hle. unfold canEdit. rewrite !Z.ltb_ge. lia.
Qed.

(** Five hours behind UTC, at noon of the day after the tournament date of
    [clubNight], the window is closed; one hour ahead of UTC it is open. *)
Lemma canEdit_local_witness :
  let west := -5 * 3600000 in
  let east := 3600000 in
  let noon tz := 20001 * msPerDay + msPerDay / 2 - tz in
  - msPerDay ≤ west < msPerDay ∧
  canEdit west clubNight (noon west) = false ∧
  canEdit east clubNight (noon east) = true ∧
  (canEdit west clubNight (noon west) = true ↔
   noon west + west < (tournamentDate clubNight + 1) * msPerDay).
Proof.
  assert (- msPerDay ≤ -5 * 3600000 < msPerDay) as Htz
    by (unfold msPerDay; lia).
  assert (-5 * 3600000 < 0) as Hneg by lia.
  split; [exact Htz |].
  split; [vm_compute; reflexivity |]. split; [vm_compute; reflexivity |].
  exact (proj1 (proj2 (canEdit_local_window (-5 * 3600000) clubNight
                         (20001 * msPerDay + msPerDay / 2 - -5 * 3600000)
                         Htz)) Hneg).
Defined.

(** ** The configuration *)

Section config.

Context {host : Collation}.

Implicit Types (ls : LocalStorage) (user repo pat : string).

Lemma js_or_item (s : string) : js_or (Some s) "" = s.
Proof. unfold js_or. by case_decide. Qed.

Lemma truthy_and (a b : string) :
  truthy (js_and a b) = true ↔ a ≠ ""%string ∧ b ≠ ""%string.
Proof.
  unfold truthy, js_and. rewrite bool_decide_eq_true.
  case_decide as Ha; [| by split; [| intros []]].
  split; [by rewrite Ha | by intros []].
Qed.

Lemma saveGitHubConfig_lookup user repo pat branch ls k :
  saveGitHubConfig user repo pat branch ls !! k =
  if decide (k = GITHUB_BRANCH) then Some (default DEFAULT_BRANCH branch)
  else if decide (k = GITHUB_PAT) then Some pat
  else if decide (k = GITHUB_REPO) then Some repo
  else if decide (k = GITHUB_USER) then Some user
  else ls !! k.
Proof.
  unfold saveGitHubConfig, setGitHubBranch, setGitHubPAT, setGitHubRepo,
    setGitHubUser.
  destruct (decide (k = GITHUB_BRANCH)) as [-> | ?];
    [by rewrite lookup_insert_eq |].
  rewrite lookup_insert_ne by congruence.
  destruct (decide (k = GITHUB_PAT)) as [-> | ?];
    [by rewrite lookup_insert_eq |].
  rewrite lookup_insert_ne by congruence.
  destruct (decide (k = GITHUB_REPO)) as [-> | ?];
    [by rewrite lookup_insert_eq |].
  rewrite lookup_insert_ne by congruence.
  destruct (decide (k = GITHUB_USER)) as [-> | ?];
    [by rewrite lookup_insert_eq |].
  by rewrite lookup_insert_ne by congruence.
Qed.

Lemma clearConfig_lookup ls k :
  clearConfig ls !! k = if decide (k ∈ STORAGE_KEYS) then None else ls !! k.
Proof.
  unfold clearConfig, STORAGE_KEYS. case_decide as Hk.
  - rewrite !elem_of_cons, elem_of_nil in Hk.
    apply lookup_delete_None. destruct (decide (GITHUB_BRANCH = k)); [by left |].
    right. apply lookup_delete_None.
    destruct (decide (GITHUB_PAT = k)); [by left |].
    right. apply lookup_delete_None.
    destruct (decide (GITHUB_REPO = k)); [by left |].
    right. apply lookup_delete_None. left.
    destruct Hk as [-> | [-> | [-> | [-> | []]]]]; done.
  - rewrite !not_elem_of_cons in Hk. destruct Hk as (? & ? & ? & ? & _).
    by rewrite !lookup_delete_ne by congruence.
Qed.

Lemma saveGitHubConfig_getters user repo pat branch ls :
  let ls' := saveGitHubConfig user repo pat branch ls in
  getGitHubUser ls' = user ∧ getGitHubRepo ls' = repo ∧
  getGitHubPAT ls' = pat ∧
  getGitHubBranch ls' = js_or branch DEFAULT_BRANCH ∧
  (truthy (isConfigured ls') = true ↔
   user ≠ ""%string ∧ repo ≠ ""%string ∧ pat ≠ ""%string) ∧
  ∀ k, k ∉ STORAGE_KEYS → ls' !! k = ls !! k.
Proof.
  cbn zeta.
  assert (getGitHubUser (saveGitHubConfig user repo pat branch ls) = user)
    as Huser.
  { unfold getGitHubUser. rewrite saveGitHubConfig_lookup. simpl.
    apply js_or_item. }
  assert (getGitHubRepo (saveGitHubConfig user repo pat branch ls) = repo)
    as Hrepo.
  { unfold getGitHubRepo. rewrite saveGitHubConfig_lookup. simpl.
    apply js_or_item. }
  assert (getGitHubPAT (saveGitHubConfig user repo pat branch ls) = pat)
    as Hpat.
  { unfold getGitHubPAT. rewrite saveGitHubConfig_lookup. simpl.
    apply js_or_item. }
  split; [done |]. split; [done |]. split; [done |]. split; [| split].
  - unfold getGitHubBranch. rewrite saveGitHubConfig_lookup. simpl.
    by destruct branch.
  - unfold isConfigured. rewrite Huser, Hrepo, Hpat, !truthy_and.
    split; [intros [Hur ?] | intros (? & ? & ?)].
    + unfold js_and in Hur. case_decide; naive_solver.
    + split; [| done]. unfold js_and. by case_decide.
  - intros k Hk. unfold STORAGE_KEYS in Hk. rewrite !not_elem_of_cons in Hk.
    destruct Hk as (? & ? & ? & ? & _).
    rewrite saveGitHubConfig_lookup. by repeat case_decide.
Qed.

Lemma clearConfig_getters ls :
  let ls' := clearConfig ls in
  getGitHubUser ls' = ""%string ∧ getGitHubRepo ls' = ""%string ∧
  getGitHubPAT ls' = ""%string ∧ getGitHubBranch ls' = DEFAULT_BRANCH ∧
  truthy (isConfigured ls') = false ∧
  (∀ k, k ∉ STORAGE_KEYS → ls' !! k = ls !! k) ∧
  ∀ user repo pat branch,
    clearConfig (saveGitHubConfig user repo pat branch ls) = ls'.
Proof.
  cbn zeta.
  unfold getGitHubUser, getGitHubRepo, getGitHubPAT, getGitHubBranch,
    isConfigured, getGitHubUser, getGitHubRepo, getGitHubPAT.
  rewrite !clearConfig_lookup. simpl.
  repeat (split; [done |]). split.
  - intros k Hk. rewrite clearConfig_lookup. by case_decide.
  - intros user repo pat branch. apply map_eq. intros k.
    rewrite !clearConfig_lookup. case_decide as Hk; [done |].
    unfold STORAGE_KEYS in Hk. rewrite !not_elem_of_cons in Hk.
    destruct Hk as (? & ? & ? & ? & _).
    rewrite saveGitHubConfig_lookup. by repeat case_decide.
Qed.

End config.

(** X24: what [saveGitHubConfig] saves is read back: after it the getters
    return the user, the repository and the token that were given, and the
    branch that was given, or "main" when the branch was left out or empty;
    [isConfigured] is truthy exactly when none of user, repository and
    token is empty; no other item of the storage has changed. *)
Theorem saveGitHubConfig_reads_back
    (user repo pat : string) (branch : option string) (ls : LocalStorage) :
  let ls' := saveGitHubConfig user repo pat branch ls in
  getGitHubUser ls' = user ∧ getGitHubRepo ls' = repo ∧
  getGitHubPAT ls' = pat ∧
  getGitHubBranch ls' = js_or branch DEFAULT_BRANCH ∧
  (truthy (isConfigured ls') = true ↔
   user ≠ ""%string ∧ repo ≠ ""%string ∧ pat ≠ ""%string) ∧
  ∀ k, k ∉ STORAGE_KEYS → ls' !! k = ls !! k.
Proof. apply saveGitHubConfig_getters. Qed.

(** The settings form saves without a branch; another item stays. *)
Lemma saveGitHubConfig_witness :
  let ls := {["theme" := "dark"]} : LocalStorage in
  let ls' := saveGitHubConfig "mino" "padel" "" None ls in
  getGitHubBranch ls' = "main"%string ∧
  truthy (isConfigured ls') = false ∧
  ("theme"%string ∉ STORAGE_KEYS) ∧ ls' !! "theme"%string = Some "dark"%string.
Proof.
  set (ls := {["theme"%string := "dark"%string]} : LocalStorage).
  destruct (saveGitHubConfig_reads_back "mino" "padel" "" None ls)
    as (_ & _ & _ & Hbranch & _ & Hother).
  assert ("theme"%string ∉ STORAGE_KEYS) as Hkey
    by (apply (bool_decide_unpack _); vm_compute; exact I).
  split; [exact Hbranch |]. split; [vm_compute; reflexivity |].
  split; [exact Hkey |].
  exact (eq_trans (Hother "theme"%string Hkey) eq_refl).
Defined.

(** X25: [clearConfig] resets the configuration and nothing else: after it
    the getters return the empty string for user, repository and token and
    "main" for the branch, [isConfigured] is falsy, no other item of the
    storage has changed, and whatever [saveGitHubConfig] had saved is
    gone. *)
Theorem clearConfig_resets (ls : LocalStorage) :
  let ls' := clearConfig ls in
  getGitHubUser ls' = ""%string ∧ getGitHubRepo ls' = ""%string ∧
  getGitHubPAT ls' = ""%string ∧ getGitHubBranch ls' = DEFAULT_BRANCH ∧
  truthy (isConfigured ls') = false ∧
  (∀ k, k ∉ STORAGE_KEYS → ls' !! k = ls !! k) ∧
  ∀ user repo pat branch,
    clearConfig (saveGitHubConfig user repo pat branch ls) = ls'.
Proof. apply clearConfig_getters. Qed.

Lemma clearConfig_witness :
  let ls := {["theme" := "dark"]} : LocalStorage in
  ("theme"%string ∉ STORAGE_KEYS) ∧
  clearConfig ls !! "theme"%string = Some "dark"%string ∧
  clearConfig (saveGitHubConfig "mino" "padel" "token" None ls) =
    clearConfig ls.
Proof.
  set (ls := {["theme"%string := "dark"%string]} : LocalStorage).
  destruct (clearConfig_resets ls) as (_ & _ & _ & _ & _ & Hother & Hgone).
  assert ("theme"%string ∉ STORAGE_KEYS) as Hkey
    by (apply (bool_decide_unpack _); vm_compute; exact I).
  split; [exact Hkey |].
  split; [exact (eq_trans (Hother "theme"%string Hkey) eq_refl) |].
  exact (Hgone "mino"%string "padel"%string "token"%string None).
Defined.

(** ** The score entry and the match cards *)

Section ui.

Context {host : Collation}.

Implicit Types (m : Match) (round : Round).

Lemma updateScoreModal_valid (parsed : option Z) :
  let '(s1, s2) := updateScoreModal parsed in
  isValidScore (Num s1) (Num s2) = true ∧ 0 ≤ s1 ≤ 25 ∧
  (∀ z, parsed = Some z → 0 ≤ z ≤ 25 → s1 = z) ∧
  (∀ z, parsed = Some z → z < 0 → s1 = 0) ∧
  (∀ z, parsed = Some z → 25 < z → s1 = 25) ∧
  (parsed = None → s1 = 0).
Proof.
  unfold updateScoreModal. rewrite isValidScore_integers.
  destruct parsed as [z |].
  - destruct (Z.ltb_spec z 0) as [? | ?].
    + cbv iota. change (25 <? 0) with false. cbv iota.
      repeat split; intros; simplify_eq; lia.
    + cbv iota. destruct (Z.ltb_spec 25 z) as [? | ?];
        repeat split; intros; simplify_eq; lia.
  - change (0 <? 0) with false. cbv iota.
    change (25 <? 0) with false. cbv iota.
    repeat split; intros; simplify_eq; lia.
Qed.

Lemma showScoreModal_complete m :
  isMatchComplete m = true → showScoreModal m = (team1Score m, team2Score m).
Proof.
  intros (x & y & H1 & H2 & ? & ? & ?)%isMatchComplete_scores.
  unfold showScoreModal. rewrite H1, H2. simpl. unfold js_sub. simpl.
  do 2 f_equal. lia.
Qed.

Lemma showScoreModal_unscored m :
  team1Score m = Null → showScoreModal m = (Num 13, Num 12).
Proof. intros H. unfold showScoreModal. by rewrite H. Qed.

Lemma completedCount_le round :
  (completedCount round ≤ length (matches round))%nat.
Proof. apply length_filter. Qed.

Lemma completedCount_all round :
  nextRoundShown round = true ↔
  completedCount round = length (matches round).
Proof.
  unfold nextRoundShown, isRoundComplete, completedCount.
  induction (matches round) as [|m ms IH]; [done |].
  cbn [forallb]. rewrite andb_true_iff, IH.
  destruct (isMatchComplete m) eqn:Hm.
  - rewrite filter_cons_True by done. cbn [length].
    split; [intros [_ Heq]; by rewrite Heq | intros [= Heq]; done].
  - rewrite filter_cons_False by (by rewrite Hm).
    pose proof (length_filter (λ m, isMatchComplete m = true) ms).
    cbn [length]. split; [by intros [? _] | lia].
Qed.

Lemma winner_values m :
  (winner m = 0 ↔ isMatchComplete m = false) ∧
  (winner m = 0 ∨ winner m = 1 ∨ winner m = 2).
Proof.
  unfold winner.
  destruct (isMatchComplete m), (js_gt (team1Score m) (team2Score m));
    (split; [split; intros [=]; done | auto]).
Qed.

(** The team marked on the card is the team whose players [processMatch]
    credits with the win, whatever the two scores are. *)
Lemma processMatch_winner stats m p s :
  stats !! p = Some s →
  ∃ s', processMatch stats m !! p = Some s' ∧
        wins s' = wins s +
                  (if winner m =? 1 then onTeam1 p m
                   else if winner m =? 2 then onTeam2 p m else 0) ∧
        losses s' = losses s +
                    (if winner m =? 1 then onTeam2 p m
                     else if winner m =? 2 then onTeam1 p m else 0).
Proof.
  intros Hs. unfold processMatch, winner.
  destruct (isMatchComplete m); simpl.
  - rewrite !updatePlayer_lookup, Hs. simpl. rewrite !gain_gain.
    eexists. split; [reflexivity |]. unfold onTeam1, onTeam2.
    destruct (js_gt (team1Score m) (team2Score m)); simpl; lia.
  - exists s. split; [done |]. lia.
Qed.

End ui.

(** X26: the score entry always holds a valid score.  [updateScoreModal]
    puts into the two inputs a pair that [isValidScore] accepts, whatever
    was typed or slid: the value itself when it is between 0 and 25, the
    nearer bound when it is outside, 0 when it is not a number, and 25 minus
    it for the other team.  [showScoreModal] opens with the scores of the
    match when the match is complete, and with 13 to 12 when team 1 has no
    score. *)
Theorem score_entry_holds_a_valid_score (parsed : option Z) (m : Match) :
  (let '(s1, s2) := updateScoreModal parsed in
   isValidScore (Num s1) (Num s2) = true ∧ 0 ≤ s1 ≤ 25 ∧
   (∀ z, parsed = Some z → 0 ≤ z ≤ 25 → s1 = z) ∧
   (∀ z, parsed = Some z → z < 0 → s1 = 0) ∧
   (∀ z, parsed = Some z → 25 < z → s1 = 25) ∧
   (parsed = None → s1 = 0)) ∧
  (isMatchComplete m = true →
   showScoreModal m = (team1Score m, team2Score m)) ∧
  (team1Score m = Null → showScoreModal m = (Num 13, Num 12)).
Proof.
  split; [apply updateScoreModal_valid |].
  split; [apply showScoreModal_complete | apply showScoreModal_unscored].
Qed.

(** The entry opened on match 1 of [clubNight], and 40 typed into it. *)
Lemma score_entry_witness :
  ∃ m, rounds clubNight !! 0%nat ≫= (λ r, matches r !! 0%nat) = Some m ∧
       isMatchComplete m = true ∧
       showScoreModal m = (team1Score m, team2Score m) ∧
       updateScoreModal (Some 40) = (25, 0).
Proof.
  eexists. split; [reflexivity |].
  match goal with
  | |- isMatchComplete ?m = true ∧ _ =>
      assert (isMatchComplete m = true) as Hm by (vm_compute; reflexivity);
      split; [exact Hm |];
      split; [exact (proj1 (proj2
                       (score_entry_holds_a_valid_score (Some 40) m)) Hm) |]
  end.
  reflexivity.
Defined.

(** X27: on the match cards, the button for the next round is shown
    exactly when the count of completed matches equals the number of
    matches, which it never exceeds.  No team is marked as the winner of a
    card exactly when the match is not complete; otherwise team 1 or team 2
    is marked, and whatever the two scores are it is the team whose players
    [processMatch] credits with the win, the players of the other team
    getting the loss. *)
Theorem match_cards_agree_with_the_engine (round : Round) (m : Match) :
  (completedCount round ≤ length (matches round))%nat ∧
  (nextRoundShown round = true ↔
   completedCount round = length (matches round)) ∧
  (winner m = 0 ↔ isMatchComplete m = false) ∧
  (winner m = 0 ∨ winner m = 1 ∨ winner m = 2) ∧
  (∀ (stats : gmap string PlayerStats) (p : string) (s : PlayerStats),
     stats !! p = Some s →
     ∃ s', processMatch stats m !! p = Some s' ∧
           wins s' = wins s +
                     (if winner m =? 1 then onTeam1 p m
                      else if winner m =? 2 then onTeam2 p m else 0) ∧
           losses s' = losses s +
                       (if winner m =? 1 then onTeam2 p m
                        else if winner m =? 2 then onTeam1 p m else 0)).
Proof.
  split; [apply completedCount_le |].
  split; [apply completedCount_all |].
  split; [apply winner_values |].
  split; [apply winner_values |].
  intros stats p s Hs. by apply processMatch_winner.
Qed.

(** X28: in every round of a tournament that the handlers of the
    application make, the number of matches is [getCourtCount] of the number
    of players. *)
Theorem getCourtCount_matches_of_a_round {host : Collation}
    (trim toLowerCase : string → string) (t : Tournament) (r : Round) :
  reachable trim toLowerCase t → r ∈ rounds t →
  (getCourtCount (Z.of_nat (length (players t))) ==
   inject_Z (Z.of_nat (length (matches r))))%Q.
Proof.
  intros Hreach Hr.
  destruct (reachable_wellFormed _ _ _ Hreach) as (_ & _ & _ & _ & _ & _ & _ & H).
  rewrite <- (H r Hr). unfold getCourtCount.
  rewrite Nat2Z.inj_mul, inject_Z_mult. simpl (Z.of_nat 4). field.
Qed.

Section getCourtCount_witness_example.

#[local] Existing Instance clubCollation.

Lemma getCourtCount_witness :
  ∃ t r,
    reachable asciiTrim asciiLowerCase t ∧ r ∈ rounds t ∧
    length (players t) = 8%nat ∧
    (getCourtCount (Z.of_nat (length (players t))) ==
     inject_Z (Z.of_nat (length (matches r))))%Q.
Proof.
  set (t0 := mkTournament "Club night" "" 20000 (asciiTrim <$> clubEntries)
                          [] 0 0).
  set (t1 := set_players (shuffleArray clubDraws (players t0)) t0).
  set (round1 := mkRound 1 (renumber 0 (createInitialPairings (players t1)))).
  assert (∀ i, (clubDraws i ≤ i)%nat) as Hdraws.
  { intros i. unfold clubDraws.
    pose proof (Nat.mod_upper_bound (3 * i + 1) (i + 1)). lia. }
  assert (reachable asciiTrim asciiLowerCase
            (set_rounds (rounds t1 ++ [round1]) t1)) as Hstart.
  { apply (reach_create asciiTrim asciiLowerCase 0 0 "Club night" 20000
             clubEntries None clubDraws t0 t1 round1);
      [vm_compute; reflexivity | exact Hdraws | reflexivity |
       vm_compute; reflexivity]. }
  assert (round1 ∈ rounds (set_rounds (rounds t1 ++ [round1]) t1)) as Hin
    by (by left).
  exists (set_rounds (rounds t1 ++ [round1]) t1), round1.
  split; [exact Hstart |]. split; [exact Hin |].
  split; [vm_compute; reflexivity |].
  exact (getCourtCount_matches_of_a_round
           asciiTrim asciiLowerCase _ round1 Hstart Hin).
Defined.

End getCourtCount_witness_example.
